(** * Pon: tokenizer, precedence-climbing parser and LLVM lowering of pon.cpp

    A shallow embedding of [src/pon.cpp].  The globals of the translation
    unit ([LastChar], [IdentifierStr], [NumVal], [CurTok], [BinopPrecedence],
    [TheModule], [Builder], [NamedValues]) together with the two streams of
    the process ([stdin], [stderr]) form one record that every function
    threads explicitly.  A null pointer result is [None]. *)

From Stdlib Require Import ZArith Lia Ascii String.
From stdpp Require Import gmap strings list fin_maps pretty.

#[local] Set Warnings "-register-all".
Local Open Scope Z_scope.

(** ** Characters and the <ctype.h> predicates (C locale) *)

Definition chr (c : ascii) : Z := Z.of_N (N_of_ascii c).

(** Conversion of an [int] to [char] (assignment to a [std::string] element
    or to a [char] map key). *)
Definition char_of_int (c : Z) : ascii := ascii_of_N (Z.to_N (c mod 256)).

Definition EOF : Z := -1.

Definition isspace (c : Z) : bool := (c =? 32) || ((9 <=? c) && (c <=? 13)).
Definition isdigit (c : Z) : bool := (48 <=? c) && (c <=? 57).
Definition isalpha (c : Z) : bool :=
  ((65 <=? c) && (c <=? 90)) || ((97 <=? c) && (c <=? 122)).
Definition isalnum (c : Z) : bool := isalpha c || isdigit c.
Definition isascii (c : Z) : bool := (0 <=? c) && (c <=? 127).

(** [enum Token] *)
Definition tok_eof : Z := -1.
Definition tok_def : Z := -2.
Definition tok_extern : Z := -3.
Definition tok_identifier : Z := -4.
Definition tok_number : Z := -5.

(** A [double] is only ever produced by [strtod] on the text of a literal
    (or is the zero a static starts with); the conversion belongs to the C
    library and stays uninterpreted. *)
Inductive double : Type :=
| strtod (NumStr : string)
| double_zero.

(** ** The AST classes *)

Inductive ExprAST : Type :=
| NumberExprAST (Val : double)
| VariableExprAST (Name : string)
| BinaryExprAST (Op : ascii) (LHS RHS : ExprAST)
| CallExprAST (Callee : string) (Args : list ExprAST).

Record PrototypeAST : Type := mkPrototypeAST {
  proto_Name : string;
  proto_Args : list string
}.

Record FunctionAST : Type := mkFunctionAST {
  Proto : PrototypeAST;
  Body : ExprAST
}.

(** ** The part of LLVM the program drives

    A [Value*] that is not null.  Every instruction is a value whose
    operands are values; the last argument of each [Create...] call (the
    requested name) is kept with it.  A function is referred to by the
    identity [fid] it received when it was allocated. *)
Inductive Value : Type :=
| ConstantFP (Val : double)
| Argument (F : nat) (Idx : nat)
| FAdd (L R : Value) (Name : string)
| FSub (L R : Value) (Name : string)
| FMul (L R : Value) (Name : string)
| FCmpULT (L R : Value) (Name : string)
| UIToFP (V : Value) (Name : string)
| CallInst (Callee : nat) (Args : list Value) (Name : string)
| ReturnInst (V : Value).

Record BasicBlock : Type := mkBasicBlock {
  bb_name : string;
  bb_insts : list Value
}.

Record Function : Type := mkFunction {
  fid : nat;
  fname : string;
  farg_size : nat;
  fblocks : list BasicBlock
}.

Record Module : Type := mkModule {
  functions : list Function;
  LastUnique : nat
}.

(** What was written to [stderr]. *)
Inductive Out : Type :=
| ErrorLine (Str : string)
| Text (s : string)
| DumpFunction (F : option Function)
| DumpModule (M : Module).

(** ** The globals

    [heap] is the handle the next allocated function receives. *)

Record Globals : Type := mkGlobals {
  stdin : string;
  LastChar : Z;
  IdentifierStr : string;
  NumVal : double;
  CurTok : Z;
  BinopPrecedence : gmap ascii Z;
  TheModule : Module;
  Builder : option (nat * nat);
  NamedValues : gmap string (option Value);
  stderr : list Out;
  heap : nat
}.

Definition set_lexer (i : string) (c : Z) (id : string) (v : double)
    (g : Globals) : Globals :=
  mkGlobals i c id v (CurTok g) (BinopPrecedence g) (TheModule g)
            (Builder g) (NamedValues g) (stderr g) (heap g).

Definition set_CurTok (t : Z) (g : Globals) : Globals :=
  mkGlobals (stdin g) (LastChar g) (IdentifierStr g) (NumVal g) t
            (BinopPrecedence g) (TheModule g) (Builder g) (NamedValues g)
            (stderr g) (heap g).

Definition set_BinopPrecedence (m : gmap ascii Z) (g : Globals) : Globals :=
  mkGlobals (stdin g) (LastChar g) (IdentifierStr g) (NumVal g) (CurTok g)
            m (TheModule g) (Builder g) (NamedValues g) (stderr g) (heap g).

Definition set_TheModule (m : Module) (g : Globals) : Globals :=
  mkGlobals (stdin g) (LastChar g) (IdentifierStr g) (NumVal g) (CurTok g)
            (BinopPrecedence g) m (Builder g) (NamedValues g) (stderr g)
            (heap g).

Definition set_Builder (b : option (nat * nat)) (g : Globals) : Globals :=
  mkGlobals (stdin g) (LastChar g) (IdentifierStr g) (NumVal g) (CurTok g)
            (BinopPrecedence g) (TheModule g) b (NamedValues g) (stderr g)
            (heap g).

Definition set_NamedValues (m : gmap string (option Value)) (g : Globals)
    : Globals :=
  mkGlobals (stdin g) (LastChar g) (IdentifierStr g) (NumVal g) (CurTok g)
            (BinopPrecedence g) (TheModule g) (Builder g) m (stderr g)
            (heap g).

Definition set_stderr (o : list Out) (g : Globals) : Globals :=
  mkGlobals (stdin g) (LastChar g) (IdentifierStr g) (NumVal g) (CurTok g)
            (BinopPrecedence g) (TheModule g) (Builder g) (NamedValues g) o
            (heap g).

Definition set_heap (n : nat) (g : Globals) : Globals :=
  mkGlobals (stdin g) (LastChar g) (IdentifierStr g) (NumVal g) (CurTok g)
            (BinopPrecedence g) (TheModule g) (Builder g) (NamedValues g)
            (stderr g) n.

Definition fprintf_stderr (o : Out) (g : Globals) : Globals :=
  set_stderr (stderr g ++ [o]) g.

(** ** gettok *)

Module Lexer.

(** [getchar()] on what is left of the input. *)
Definition getchar (i : string) : Z * string :=
  match i with
  | EmptyString => (EOF, EmptyString)
  | String a r => (chr a, r)
  end.

(** [while (isspace(LastChar)) LastChar = getchar();] *)
Fixpoint skip_space (c : Z) (i : string) {struct i} : Z * string :=
  if isspace c then
    match i with
    | EmptyString => (EOF, EmptyString)
    | String a r => skip_space (chr a) r
    end
  else (c, i).

(** [while (isalnum((LastChar = getchar()))) IdentifierStr += LastChar;] *)
Fixpoint read_identifier (id : string) (i : string) {struct i}
    : string * Z * string :=
  match i with
  | EmptyString => (id, EOF, EmptyString)
  | String a r =>
      if isalnum (chr a)
      then read_identifier (id +:+ String (char_of_int (chr a)) EmptyString) r
      else (id, chr a, r)
  end.

(** [do { NumStr += LastChar; LastChar = getchar(); }
     while (isdigit(LastChar) || LastChar == '.');] *)
Fixpoint read_number (NumStr : string) (c : Z) (i : string) {struct i}
    : string * Z * string :=
  let NumStr := NumStr +:+ String (char_of_int c) EmptyString in
  match i with
  | EmptyString => (NumStr, EOF, EmptyString)
  | String a r =>
      if isdigit (chr a) || (chr a =? chr ".")
      then read_number NumStr (chr a) r
      else (NumStr, chr a, r)
  end.

(** [do LastChar = getchar();
     while (LastChar != EOF && LastChar != '\n' && LastChar != '\r');] *)
Fixpoint skip_comment (i : string) {struct i} : Z * string :=
  match i with
  | EmptyString => (EOF, EmptyString)
  | String a r =>
      if (chr a =? 10) || (chr a =? 13) then (chr a, r) else skip_comment r
  end.

(** The body of [gettok].  It calls itself after a comment, on an input
    that is at least one character shorter; [fuel] bounds that depth. *)
Fixpoint gettok_fuel (fuel : nat) (g : Globals) {struct fuel}
    : option (Z * Globals) :=
  match fuel with
  | O => None
  | S fuel =>
    let '(c, i) := skip_space (LastChar g) (stdin g) in
    if isalpha c then
      let '(id, c', i') :=
        read_identifier (String (char_of_int c) EmptyString) i in
      let g' := set_lexer i' c' id (NumVal g) g in
      if String.eqb id "def" then Some (tok_def, g')
      else if String.eqb id "extern" then Some (tok_extern, g')
      else Some (tok_identifier, g')
    else if isdigit c || (c =? chr ".") then
      let '(NumStr, c', i') := read_number EmptyString c i in
      Some (tok_number, set_lexer i' c' (IdentifierStr g) (strtod NumStr) g)
    else if c =? chr "#" then
      let '(c1, i1) := skip_comment i in
      let g1 := set_lexer i1 c1 (IdentifierStr g) (NumVal g) g in
      if negb (c1 =? EOF) then gettok_fuel fuel g1
      else Some (tok_eof, g1)
    else if c =? EOF then
      Some (tok_eof, set_lexer i c (IdentifierStr g) (NumVal g) g)
    else
      let ThisChar := c in
      let '(c2, i2) := getchar i in
      Some (ThisChar, set_lexer i2 c2 (IdentifierStr g) (NumVal g) g)
  end.

Definition gettok (g : Globals) : Z * Globals :=
  match gettok_fuel (S (String.length (stdin g))) g with
  | Some r => r
  | None => (tok_eof, g)
  end.

End Lexer.

(** ** The parser *)

(** Result of a function that may run arbitrarily long: [Done a g] is a
    return of [a] in the globals [g]; [OutOfFuel] says the bound given to
    the model was too small (it is never a result of the program). *)
Inductive Res (A : Type) : Type :=
| Done (a : A) (g : Globals)
| OutOfFuel.
Arguments Done {A} a g.
Arguments OutOfFuel {A}.

Definition Res_bind {A B : Type} (r : Res A) (k : A → Globals → Res B)
    : Res B :=
  match r with
  | Done a g => k a g
  | OutOfFuel => OutOfFuel
  end.

Notation "' ( x , g ) <- r ;; k" := (Res_bind r (λ x g, k))
  (at level 100, r at next level, x name, g name, right associativity,
   format "' ( x ,  g )  <-  r  ;;  '//' k").

(** [Error], [ErrorP], [ErrorF], [ErrorV]: one line on stderr, null result. *)
Definition Error {A : Type} (Str : string) (g : Globals)
    : option A * Globals :=
  (None, fprintf_stderr (ErrorLine Str) g).

Module Parser.

Definition getNextToken (g : Globals) : Z * Globals :=
  let '(t, g) := Lexer.gettok g in (t, set_CurTok t g).

(** [BinopPrecedence[c]]: [std::map::operator[]] inserts a
    value-initialised entry when the key is absent. *)
Definition BinopPrecedence_index (c : ascii) (g : Globals) : Z * Globals :=
  match BinopPrecedence g !! c with
  | Some p => (p, g)
  | None => (0, set_BinopPrecedence (<[c := 0]> (BinopPrecedence g)) g)
  end.

Definition GetTokPrecedence (g : Globals) : Z * Globals :=
  if negb (isascii (CurTok g)) then (-1, g)
  else
    let '(TokPrec, g) := BinopPrecedence_index (char_of_int (CurTok g)) g in
    if TokPrec <=? 0 then (-1, g) else (TokPrec, g).

Definition ParseNumberExpr (g : Globals) : option ExprAST * Globals :=
  let Result := NumberExprAST (NumVal g) in
  let '(_, g) := getNextToken g in
  (Some Result, g).

Definition ret {A : Type} (r : A * Globals) : Res A := Done (fst r) (snd r).

(** The mutually recursive parse functions.  [ParseArgs] is the
    [while (1)] loop of [ParseIdentifierExpr]; the [while (1)] loop of
    [ParseBinOpRHS] is the function's call to itself.  [TokPrec+1] is
    computed only when [TokPrec < NextPrec], so it stays an [int]. *)
Fixpoint ParseExpression (fuel : nat) (g : Globals) {struct fuel}
    : Res (option ExprAST) :=
  match fuel with
  | O => OutOfFuel
  | S fuel =>
    '(LHS, g) <- ParsePrimary fuel g ;;
    match LHS with
    | None => Done None g
    | Some LHS => ParseBinOpRHS fuel 0 LHS g
    end
  end

with ParsePrimary (fuel : nat) (g : Globals) {struct fuel}
    : Res (option ExprAST) :=
  match fuel with
  | O => OutOfFuel
  | S fuel =>
    if CurTok g =? tok_identifier then ParseIdentifierExpr fuel g
    else if CurTok g =? tok_number then ret (ParseNumberExpr g)
    else if CurTok g =? chr "(" then ParseParenExpr fuel g
    else ret (Error "unknown token when expecting an expression" g)
  end

with ParseIdentifierExpr (fuel : nat) (g : Globals) {struct fuel}
    : Res (option ExprAST) :=
  match fuel with
  | O => OutOfFuel
  | S fuel =>
    let IdName := IdentifierStr g in
    let '(_, g) := getNextToken g in
    if negb (CurTok g =? chr "(") then Done (Some (VariableExprAST IdName)) g
    else
      let '(_, g) := getNextToken g in
      '(Args, g) <-
        (if negb (CurTok g =? chr ")") then ParseArgs fuel [] g
         else Done (Some []) g) ;;
      match Args with
      | None => Done None g
      | Some Args =>
          let '(_, g) := getNextToken g in
          Done (Some (CallExprAST IdName Args)) g
      end
  end

with ParseArgs (fuel : nat) (Args : list ExprAST) (g : Globals)
    {struct fuel} : Res (option (list ExprAST)) :=
  match fuel with
  | O => OutOfFuel
  | S fuel =>
    '(Arg, g) <- ParseExpression fuel g ;;
    match Arg with
    | None => Done None g
    | Some Arg =>
        let Args := Args ++ [Arg] in
        if CurTok g =? chr ")" then Done (Some Args) g
        else if negb (CurTok g =? chr ",") then
          ret (Error "Expected ')' or ',' in argument list" g)
        else
          let '(_, g) := getNextToken g in
          ParseArgs fuel Args g
    end
  end

with ParseParenExpr (fuel : nat) (g : Globals) {struct fuel}
    : Res (option ExprAST) :=
  match fuel with
  | O => OutOfFuel
  | S fuel =>
    let '(_, g) := getNextToken g in
    '(V, g) <- ParseExpression fuel g ;;
    match V with
    | None => Done None g
    | Some V =>
        if negb (CurTok g =? chr ")") then ret (Error "expected ')'" g)
        else
          let '(_, g) := getNextToken g in
          Done (Some V) g
    end
  end

with ParseBinOpRHS (fuel : nat) (ExprPrec : Z) (LHS : ExprAST) (g : Globals)
    {struct fuel} : Res (option ExprAST) :=
  match fuel with
  | O => OutOfFuel
  | S fuel =>
    let '(TokPrec, g) := GetTokPrecedence g in
    if TokPrec <? ExprPrec then Done (Some LHS) g
    else
      let BinOp := CurTok g in
      let '(_, g) := getNextToken g in
      '(RHS, g) <- ParsePrimary fuel g ;;
      match RHS with
      | None => Done None g
      | Some RHS =>
          let '(NextPrec, g) := GetTokPrecedence g in
          '(RHS, g) <-
            (if TokPrec <? NextPrec
             then ParseBinOpRHS fuel (TokPrec + 1) RHS g
             else Done (Some RHS) g) ;;
          match RHS with
          | None => Done None g
          | Some RHS =>
              ParseBinOpRHS fuel ExprPrec
                (BinaryExprAST (char_of_int BinOp) LHS RHS) g
          end
      end
  end.

(** [while (getNextToken() == tok_identifier) ArgNames.push_back(...)] *)
Fixpoint ParsePrototype_args (fuel : nat) (ArgNames : list string)
    (g : Globals) {struct fuel} : Res (list string) :=
  match fuel with
  | O => OutOfFuel
  | S fuel =>
    let '(t, g) := getNextToken g in
    if t =? tok_identifier
    then ParsePrototype_args fuel (ArgNames ++ [IdentifierStr g]) g
    else Done ArgNames g
  end.

Definition ParsePrototype (fuel : nat) (g : Globals)
    : Res (option PrototypeAST) :=
  if negb (CurTok g =? tok_identifier) then
    ret (Error "Expected function name in prototype" g)
  else
    let FnName := IdentifierStr g in
    let '(_, g) := getNextToken g in
    if negb (CurTok g =? chr "(") then
      ret (Error "Expected '(' in prototype" g)
    else
      '(ArgNames, g) <- ParsePrototype_args fuel [] g ;;
      if negb (CurTok g =? chr ")") then
        ret (Error "Expected ')' in prototype" g)
      else
        let '(_, g) := getNextToken g in
        Done (Some (mkPrototypeAST FnName ArgNames)) g.

Definition ParseDefinition (fuel : nat) (g : Globals)
    : Res (option FunctionAST) :=
  let '(_, g) := getNextToken g in
  '(Proto, g) <- ParsePrototype fuel g ;;
  match Proto with
  | None => Done None g
  | Some Proto =>
      '(E, g) <- ParseExpression fuel g ;;
      match E with
      | Some E => Done (Some (mkFunctionAST Proto E)) g
      | None => Done None g
      end
  end.

Definition ParseTopLevelExpr (fuel : nat) (g : Globals)
    : Res (option FunctionAST) :=
  '(E, g) <- ParseExpression fuel g ;;
  match E with
  | Some E =>
      let Proto := mkPrototypeAST EmptyString [] in
      Done (Some (mkFunctionAST Proto E)) g
  | None => Done None g
  end.

Definition ParseExtern (fuel : nat) (g : Globals)
    : Res (option PrototypeAST) :=
  let '(_, g) := getNextToken g in
  ParsePrototype fuel g.

End Parser.

(** The globals as the program finds them when [main] starts, reading
    [input] from stdin. *)
Definition initial (input : string) : Globals :=
  mkGlobals input (chr " ") EmptyString double_zero 0 ∅
            (mkModule [] 0) None ∅ [] 0.

(** [BinopPrecedence['<'] = 10; ... ['*'] = 40;] *)
Definition install_precedences (g : Globals) : Globals :=
  set_BinopPrecedence
    (<["*"%char := 40]> (<["-"%char := 20]> (<["+"%char := 20]>
      (<["<"%char := 10]> (BinopPrecedence g))))) g.

(** [main] up to the call of [MainLoop]: precedences, prompt, first token. *)
Definition startup (input : string) : Globals :=
  let g := install_precedences (initial input) in
  let g := fprintf_stderr (Text "pon> ") g in
  let '(_, g) := Parser.getNextToken g in
  set_TheModule (mkModule [] 0) g.

(** What a parse function returned, when it returned. *)
Definition res_ast {A : Type} (r : Res (option A)) : option (option A) :=
  match r with Done a _ => Some a | OutOfFuel => None end.

(** ** LLVM: module, functions, builder

    Only what the program calls is modelled, at the level of the calls:
    the builder records each instruction it is asked for in the block it
    points at, and hands back the instruction as the value.  What LLVM
    does with a request beyond that (folding an operation on constants,
    making the names of values distinct, the meaning of an instruction)
    is not part of the program and is left out. *)
Module LLVM.

Definition name_taken (Name : string) (fs : list Function) : bool :=
  existsb (λ f, String.eqb (fname f) Name) fs.

(** [Module::getFunction]: the symbol table holds named values only. *)
Definition getFunction (Name : string) (M : Module) : option Function :=
  if String.eqb Name EmptyString then None
  else find (λ f, String.eqb (fname f) Name) (functions M).

(** The function a handle points to. *)
Definition deref (F : nat) (M : Module) : option Function :=
  find (λ f, Nat.eqb (fid f) F) (functions M).

(** On a name conflict the symbol table appends the next value of its
    counter to the requested name until the result is free.  At most
    [length fs] candidates can be taken; [fuel] is that bound. *)
Fixpoint createValueName (fuel : nat) (Name : string) (fs : list Function)
    (LastUnique : nat) {struct fuel} : string * nat :=
  let LastUnique := S LastUnique in
  let UniqueName := Name +:+ pretty LastUnique in
  match fuel with
  | O => (UniqueName, LastUnique)
  | S fuel =>
      if name_taken UniqueName fs
      then createValueName fuel Name fs LastUnique
      else (UniqueName, LastUnique)
  end.

(** [Function::Create(FT, ExternalLinkage, Name, TheModule)] for a type of
    [NumArgs] doubles to double: a new declaration at the end of the
    module, named [Name] when that is empty or free. *)
Definition Function_Create (Name : string) (NumArgs : nat) (g : Globals)
    : nat * Globals :=
  let M := TheModule g in
  let '(name, lu) :=
    if String.eqb Name EmptyString || negb (name_taken Name (functions M))
    then (Name, LastUnique M)
    else createValueName (length (functions M)) Name (functions M)
                         (LastUnique M) in
  let F := mkFunction (heap g) name NumArgs [] in
  (heap g,
   set_heap (S (heap g))
     (set_TheModule (mkModule (functions M ++ [F]) lu) g)).

(** [F->getName()]; the program only asks it of a live function. *)
Definition getName (F : nat) (g : Globals) : string :=
  match deref F (TheModule g) with
  | Some f => fname f
  | None => EmptyString
  end.

(** [F->eraseFromParent()] *)
Definition eraseFromParent (F : nat) (g : Globals) : Globals :=
  let M := TheModule g in
  set_TheModule
    (mkModule (filter (λ f, fid f ≠ F) (functions M)) (LastUnique M)) g.

Definition empty (f : Function) : bool :=
  match fblocks f with [] => true | _ => false end.

Definition update_function (F : nat) (h : Function → Function)
    (g : Globals) : Globals :=
  let M := TheModule g in
  set_TheModule
    (mkModule (map (λ f, if Nat.eqb (fid f) F then h f else f) (functions M))
              (LastUnique M)) g.

(** [BasicBlock::Create(getGlobalContext(), Name, TheFunction)]: a new
    block at the end of the function; the handle is the function and the
    position of the block in it. *)
Definition BasicBlock_Create (Name : string) (F : nat) (g : Globals)
    : (nat * nat) * Globals :=
  let n := match deref F (TheModule g) with
           | Some f => length (fblocks f)
           | None => O
           end in
  ((F, n),
   update_function F
     (λ f, mkFunction (fid f) (fname f) (farg_size f)
             (fblocks f ++ [mkBasicBlock Name []])) g).

Definition SetInsertPoint (BB : nat * nat) (g : Globals) : Globals :=
  set_Builder (Some BB) g.

(** Every [Builder.Create...] ends here: the instruction goes to the end of
    the block the builder points at and is the value returned. *)
Definition Insert (I : Value) (g : Globals) : Value * Globals :=
  match Builder g with
  | Some (F, n) =>
      (I, update_function F
            (λ f, mkFunction (fid f) (fname f) (farg_size f)
                    (alter (λ b, mkBasicBlock (bb_name b) (bb_insts b ++ [I]))
                           n (fblocks f))) g)
  | None => (I, g)
  end.

Definition CreateFAdd (L R : Value) (Name : string) := Insert (FAdd L R Name).
Definition CreateFSub (L R : Value) (Name : string) := Insert (FSub L R Name).
Definition CreateFMul (L R : Value) (Name : string) := Insert (FMul L R Name).
Definition CreateFCmpULT (L R : Value) (Name : string) :=
  Insert (FCmpULT L R Name).
Definition CreateUIToFP (V : Value) (Name : string) := Insert (UIToFP V Name).
Definition CreateCall (Callee : nat) (Args : list Value) (Name : string) :=
  Insert (CallInst Callee Args Name).
Definition CreateRet (V : Value) := Insert (ReturnInst V).

(** [verifyFunction] on the function: the program drops the result. *)
Definition verifyFunction (F : nat) (g : Globals) : Globals := g.

End LLVM.

(** ** Codegen *)

Module Codegen.
Import LLVM.

(** [NamedValues[Name]]: as for every [std::map], reading an absent key
    inserts a null entry. *)
Definition NamedValues_index (Name : string) (g : Globals)
    : option Value * Globals :=
  match NamedValues g !! Name with
  | Some V => (V, g)
  | None => (None, set_NamedValues (<[Name := None]> (NamedValues g)) g)
  end.

Definition some {A : Type} (r : A * Globals) : option A * Globals :=
  (Some (fst r), snd r).

(** The [Codegen] methods of the four expression classes.  The inner
    [args] is the [for] loop of [CallExprAST::Codegen]. *)
Fixpoint ExprAST_Codegen (e : ExprAST) (g : Globals) {struct e}
    : option Value * Globals :=
  match e with
  | NumberExprAST Val => (Some (ConstantFP Val), g)
  | VariableExprAST Name =>
      let '(V, g) := NamedValues_index Name g in
      match V with
      | Some V => (Some V, g)
      | None => Error "Unknown variable name" g
      end
  | BinaryExprAST Op LHS RHS =>
      let '(L, g) := ExprAST_Codegen LHS g in
      let '(R, g) := ExprAST_Codegen RHS g in
      match L, R with
      | Some L, Some R =>
          if Ascii.eqb Op "+" then some (CreateFAdd L R "addtmp" g)
          else if Ascii.eqb Op "-" then some (CreateFSub L R "subtmp" g)
          else if Ascii.eqb Op "*" then some (CreateFMul L R "multmp" g)
          else if Ascii.eqb Op "<" then
            let '(L, g) := CreateFCmpULT L R "cmptmp" g in
            some (CreateUIToFP L "booltmp" g)
          else Error "invalid binary operator" g
      | _, _ => (None, g)
      end
  | CallExprAST Callee Args =>
      match getFunction Callee (TheModule g) with
      | None => Error "Unknown function referenced" g
      | Some CalleeF =>
          if negb (Nat.eqb (farg_size CalleeF) (length Args)) then
            Error "Incorrect # arguments passed" g
          else
            let args :=
              fix args (Args : list ExprAST) (ArgsV : list Value)
                  (g : Globals) {struct Args}
                  : option (list Value) * Globals :=
                match Args with
                | [] => (Some ArgsV, g)
                | Arg :: Args =>
                    let '(V, g) := ExprAST_Codegen Arg g in
                    match V with
                    | None => (None, g)
                    | Some V => args Args (ArgsV ++ [V]) g
                    end
                end in
            let '(ArgsV, g) := args Args [] g in
            match ArgsV with
            | None => (None, g)
            | Some ArgsV => some (CreateCall (fid CalleeF) ArgsV "calltmp" g)
            end
      end
  end.

(** The [for] loop of [PrototypeAST::Codegen]:
    [NamedValues[Args[Idx]] = AI] for [Idx] from its start value on.  The
    name given to the argument itself is only read when the function is
    printed, and is not kept. *)
Fixpoint bind_arguments (F : nat) (Idx : nat) (Args : list string)
    (g : Globals) {struct Args} : Globals :=
  match Args with
  | [] => g
  | Arg :: Args =>
      bind_arguments F (S Idx) Args
        (set_NamedValues (<[Arg := Some (Argument F Idx)]> (NamedValues g)) g)
  end.

Definition PrototypeAST_Codegen (P : PrototypeAST) (g : Globals)
    : option nat * Globals :=
  let Name := proto_Name P in
  let Args := proto_Args P in
  let '(F, g) := Function_Create Name (length Args) g in
  let '(F, g) :=
    if negb (String.eqb (getName F g) Name) then
      let g := eraseFromParent F g in
      match getFunction Name (TheModule g) with
      | Some f =>
          if negb (empty f) then Error "redefinition of function" g
          else if negb (Nat.eqb (farg_size f) (length Args)) then
            Error "redefinition of function with different # args" g
          else (Some (fid f), g)
      | None => (None, g) (* not reached: [PrototypeAST_Codegen_spec] *)
      end
    else (Some F, g) in
  match F with
  | None => (None, g)
  | Some F => (Some F, bind_arguments F 0 Args g)
  end.

Definition FunctionAST_Codegen (FA : FunctionAST) (g : Globals)
    : option nat * Globals :=
  let g := set_NamedValues ∅ g in
  let '(TheFunction, g) := PrototypeAST_Codegen (Proto FA) g in
  match TheFunction with
  | None => (None, g)
  | Some TheFunction =>
      let '(BB, g) := BasicBlock_Create "entry" TheFunction g in
      let g := SetInsertPoint BB g in
      let '(RetVal, g) := ExprAST_Codegen (Body FA) g in
      match RetVal with
      | Some RetVal =>
          let '(_, g) := CreateRet RetVal g in
          let g := verifyFunction TheFunction g in
          (Some TheFunction, g)
      | None =>
          let g := eraseFromParent TheFunction g in
          (None, g)
      end
  end.

End Codegen.

(** ** The driver *)

Module Driver.
Import LLVM.

Definition dump (F : nat) (g : Globals) : Globals :=
  fprintf_stderr (DumpFunction (deref F (TheModule g))) g.

Definition HandleDefinition (fuel : nat) (g : Globals) : Res unit :=
  '(F, g) <- Parser.ParseDefinition fuel g ;;
  match F with
  | Some F =>
      let '(LF, g) := Codegen.FunctionAST_Codegen F g in
      match LF with
      | Some LF =>
          Done tt (dump LF (fprintf_stderr (Text "Read function definition:") g))
      | None => Done tt g
      end
  | None => let '(_, g) := Parser.getNextToken g in Done tt g
  end.

Definition HandleExtern (fuel : nat) (g : Globals) : Res unit :=
  '(P, g) <- Parser.ParseExtern fuel g ;;
  match P with
  | Some P =>
      let '(F, g) := Codegen.PrototypeAST_Codegen P g in
      match F with
      | Some F => Done tt (dump F (fprintf_stderr (Text "Read extern: ") g))
      | None => Done tt g
      end
  | None => let '(_, g) := Parser.getNextToken g in Done tt g
  end.

Definition HandleTopLevelExpression (fuel : nat) (g : Globals) : Res unit :=
  '(F, g) <- Parser.ParseTopLevelExpr fuel g ;;
  match F with
  | Some F =>
      let '(LF, g) := Codegen.FunctionAST_Codegen F g in
      match LF with
      | Some LF =>
          Done tt (dump LF (fprintf_stderr (Text "Read top-level expression:") g))
      | None => Done tt g
      end
  | None => let '(_, g) := Parser.getNextToken g in Done tt g
  end.

Fixpoint MainLoop (fuel : nat) (g : Globals) {struct fuel} : Res unit :=
  match fuel with
  | O => OutOfFuel
  | S fuel =>
    let g := fprintf_stderr (Text "pon> ") g in
    if CurTok g =? tok_eof then Done tt g
    else
      '(_, g) <-
        (if CurTok g =? chr ";" then
           let '(_, g) := Parser.getNextToken g in Done tt g
         else if CurTok g =? tok_def then HandleDefinition fuel g
         else if CurTok g =? tok_extern then HandleExtern fuel g
         else HandleTopLevelExpression fuel g) ;;
      MainLoop fuel g
  end.

Definition main (fuel : nat) (input : string) : Res unit :=
  '(_, g) <- MainLoop fuel (startup input) ;;
  Done tt (fprintf_stderr (DumpModule (TheModule g)) g).

End Driver.

(** The globals a function left, when it returned. *)
Definition res_globals {A : Type} (r : Res A) : option Globals :=
  match r with Done _ g => Some g | OutOfFuel => None end.

(** ** Observations used in the statements *)

(** The tokens [gettok] returns up to and including [tok_eof], each with
    the payload globals as the call left them. *)
Fixpoint tokens (fuel : nat) (g : Globals) {struct fuel}
    : option (list (Z * string * double)) :=
  match fuel with
  | O => None
  | S fuel =>
      let '(t, g) := Lexer.gettok g in
      let here := (t, IdentifierStr g, NumVal g) in
      if t =? tok_eof then Some [here]
      else option_map (cons here) (tokens fuel g)
  end.

(** The globals when [LastChar] is [c] and [i] is still to be read. *)
Definition at_input (c : Z) (i : string) (g : Globals) : Globals :=
  set_lexer i c (IdentifierStr g) (NumVal g) g.

Definition newline : string := String (ascii_of_nat 10) EmptyString.

(** The current token is not a key of the precedence table, or its
    precedence there is not positive. *)
Definition not_infix (g : Globals) : Prop :=
  match BinopPrecedence g !! char_of_int (CurTok g) with
  | Some p => p ≤ 0
  | None => True
  end.

(** [g'] is [g] up to the contents of the precedence table: nothing was
    read, printed or assigned otherwise. *)
Definition only_table_differs (g g' : Globals) : Prop :=
  g' = set_BinopPrecedence (BinopPrecedence g') g.

(** No character of [s] ends a line. *)
Fixpoint no_line_end (s : string) : bool :=
  match s with
  | EmptyString => true
  | String a r => negb ((chr a =? 10) || (chr a =? 13)) && no_line_end r
  end.

(** [s] is empty or begins with a character that ends a line. *)
Definition at_line_end (s : string) : bool :=
  match s with
  | EmptyString => true
  | String a _ => (chr a =? 10) || (chr a =? 13)
  end.

(** How the tokenizer stands on an input with a comment and on the same
    input without it: at the same place before the comment, or at the [#]
    on one side and at the end of the line on the other, or at the same
    place after it. *)
Definition comment_related (body rest : string) (s1 s2 : Z * string) : Prop :=
  s1 = s2
  ∨ (∃ c pre, s1 = (c, pre +:+ String "#" (body +:+ rest)) ∧
              s2 = (c, pre +:+ rest))
  ∨ (s1 = (chr "#", body +:+ rest) ∧ s2 = Lexer.getchar rest).

(** The instructions of the block the builder points at. *)
Definition current_block (g : Globals) : option (list Value) :=
  match Builder g with
  | Some (F, n) =>
      f ← LLVM.deref F (TheModule g); bb_insts <$> fblocks f !! n
  | None => None
  end.

(** The argument loop of [CallExprAST::Codegen] on its own. *)
Fixpoint Codegen_args (Args : list ExprAST) (ArgsV : list Value)
    (g : Globals) {struct Args} : option (list Value) * Globals :=
  match Args with
  | [] => (Some ArgsV, g)
  | Arg :: Args =>
      let '(V, g) := Codegen.ExprAST_Codegen Arg g in
      match V with
      | None => (None, g)
      | Some V => Codegen_args Args (ArgsV ++ [V]) g
      end
  end.

(** What LLVM maintains about the functions of a module: a handle not yet
    handed out is larger than every handle in use, and a name of the symbol
    table belongs to one function. *)
Definition fresh_ids (g : Globals) : Prop :=
  Forall (λ f, (fid f < heap g)%nat) (functions (TheModule g)).

Definition unique_names (g : Globals) : Prop :=
  Forall (λ f1,
    Forall (λ f2, fname f1 ≠ EmptyString → fname f1 = fname f2 →
                  fid f1 = fid f2)
           (functions (TheModule g)))
    (functions (TheModule g)).

Definition wf (g : Globals) : Prop := fresh_ids g ∧ unique_names g.

(** The texts [Error] was called with, in order. *)
Definition diagnostics (g : Globals) : list string :=
  omap (λ o, match o with ErrorLine Str => Some Str | _ => None end)
       (stderr g).

(** Identity, name and arity of the functions of the module, in order. *)
Definition shape (g : Globals) : list (nat * string * nat) :=
  map (λ f, (fid f, fname f, farg_size f)) (functions (TheModule g)).

(** The functions of the module other than [F]. *)
Definition others (F : nat) (g : Globals) : list Function :=
  filter (λ f, fid f ≠ F) (functions (TheModule g)).

(** What lowering an expression leaves alone: which functions there are,
    the handle counter, the insertion point, every binding of the local
    table that is not null, and every function but the one the builder
    points into. *)
Definition lowering_frame (g g' : Globals) : Prop :=
  shape g' = shape g ∧ heap g' = heap g ∧ Builder g' = Builder g ∧
  (∀ x V, NamedValues g !! x = Some (Some V) →
          NamedValues g' !! x = Some (Some V)) ∧
  (∀ F n, Builder g = Some (F, n) → others F g' = others F g).

(** The globals the parser never assigns. *)
Definition backend (g : Globals)
    : Module * nat * option (nat * nat) * gmap string (option Value) :=
  (TheModule g, heap g, Builder g, NamedValues g).

(** A result reached with some fuel is the result with any larger fuel. *)
Definition stable {A : Type} (f : nat → Globals → Res A) (n : nat) : Prop :=
  ∀ g a g', f n g = Done a g' → ∀ m, (n ≤ m)%nat → f m g = Done a g'.

(** A function of the parser that returns leaves the backend globals. *)
Definition keeps_backend {A : Type} (f : nat → Globals → Res A) (n : nat)
    : Prop :=
  ∀ g a g', f n g = Done a g' → backend g' = backend g.

(** The globals after [main] has read all of [input], when [fuel] is
    enough for that. *)
Definition run (fuel : nat) (input : string) : option Globals :=
  res_globals (Driver.MainLoop fuel (startup input)).

(** ** Further observations *)

(** Every character of [s], as [getchar] returns it, satisfies [p]. *)
Fixpoint string_forall (p : Z → bool) (s : string) : bool :=
  match s with
  | EmptyString => true
  | String a r => p (chr a) && string_forall p r
  end.

(** A letter followed by letters and digits. *)
Definition identifier_shaped (s : string) : bool :=
  match s with
  | EmptyString => false
  | String a r => isalpha (chr a) && string_forall isalnum r
  end.

(** What the tokenizer still has before it: the characters not yet read,
    and the one in [LastChar] unless that is the end of the input. *)
Definition lexer_measure (g : Globals) : nat :=
  String.length (stdin g) + (if LastChar g =? EOF then 0%nat else 1%nat).

(** The precedence [GetTokPrecedence] works with for the character [c]:
    an absent entry counts as the zero [operator[]] would insert. *)
Definition precedence_of (g : Globals) (c : ascii) : Z :=
  default 0 (BinopPrecedence g !! c).

(** One call of [gettok], by the path it takes through the function: the
    token returned and the globals left.  A comment that ends in a line
    end leads to the call of [gettok] by itself. *)
Inductive gettok_step (g : Globals) : Z → Globals → Prop :=
| step_identifier c i id c' i' :
    Lexer.skip_space (LastChar g) (stdin g) = (c, i) →
    isalpha c = true →
    Lexer.read_identifier (String (char_of_int c) EmptyString) i
      = (id, c', i') →
    gettok_step g
      (if String.eqb id "def" then tok_def
       else if String.eqb id "extern" then tok_extern else tok_identifier)
      (set_lexer i' c' id (NumVal g) g)
| step_number c i NumStr c' i' :
    Lexer.skip_space (LastChar g) (stdin g) = (c, i) →
    isalpha c = false → (isdigit c || (c =? chr ".")) = true →
    Lexer.read_number EmptyString c i = (NumStr, c', i') →
    gettok_step g tok_number
      (set_lexer i' c' (IdentifierStr g) (strtod NumStr) g)
| step_comment i c1 i1 t g' :
    Lexer.skip_space (LastChar g) (stdin g) = (chr "#", i) →
    Lexer.skip_comment i = (c1, i1) → c1 ≠ EOF →
    gettok_step (at_input c1 i1 g) t g' →
    gettok_step g t g'
| step_comment_eof i i1 :
    Lexer.skip_space (LastChar g) (stdin g) = (chr "#", i) →
    Lexer.skip_comment i = (EOF, i1) →
    gettok_step g tok_eof (at_input EOF i1 g)
| step_eof i :
    Lexer.skip_space (LastChar g) (stdin g) = (EOF, i) →
    gettok_step g tok_eof (at_input EOF i g)
| step_char c i :
    Lexer.skip_space (LastChar g) (stdin g) = (c, i) →
    isalpha c = false → (isdigit c || (c =? chr ".")) = false →
    c ≠ chr "#" → c ≠ EOF →
    gettok_step g c (at_input (Lexer.getchar i).1 (Lexer.getchar i).2 g).

(** The operators of an expression, at any depth. *)
Fixpoint operators (e : ExprAST) : list ascii :=
  match e with
  | NumberExprAST _ | VariableExprAST _ => []
  | BinaryExprAST Op LHS RHS => Op :: operators LHS ++ operators RHS
  | CallExprAST _ Args => flat_map operators Args
  end.

(** The texts the parser calls [Error] with. *)
Definition parser_errors : list string :=
  [ "unknown token when expecting an expression";
    "Expected ')' or ',' in argument list";
    "expected ')'";
    "Expected function name in prototype";
    "Expected '(' in prototype";
    "Expected ')' in prototype" ].

(** What the parser has before it: what the tokenizer has, and the current
    token unless that is the end of the input. *)
Definition parser_measure (g : Globals) : nat :=
  lexer_measure g + (if CurTok g =? tok_eof then 0%nat else 1%nat).

(** When the current token is the end of the input, the tokenizer has seen
    it: so it is after every call of [getNextToken]. *)
Definition eof_seen (g : Globals) : Prop :=
  CurTok g = tok_eof → LastChar g = EOF.

(** The paths through the expression parser.  Each rule is one way
    through the body of the function it is named after, with the calls it
    makes on the way as premises; [parser_paths] shows that every return of
    a function is by one of its rules. *)
Inductive ParseExpression_path
    : Globals → option ExprAST → Globals → Prop :=
| PE_primary_null g g1 :
    ParsePrimary_path g None g1 →
    ParseExpression_path g None g1
| PE_rhs g LHS g1 r g2 :
    ParsePrimary_path g (Some LHS) g1 →
    ParseBinOpRHS_path 0 LHS g1 r g2 →
    ParseExpression_path g r g2

with ParsePrimary_path : Globals → option ExprAST → Globals → Prop :=
| PP_identifier g r g' :
    CurTok g = tok_identifier →
    ParseIdentifierExpr_path g r g' →
    ParsePrimary_path g r g'
| PP_number g t g' :
    CurTok g = tok_number →
    Parser.getNextToken g = (t, g') →
    ParsePrimary_path g (Some (NumberExprAST (NumVal g))) g'
| PP_paren g r g' :
    CurTok g = chr "(" →
    ParseParenExpr_path g r g' →
    ParsePrimary_path g r g'
| PP_default g :
    CurTok g ≠ tok_identifier → CurTok g ≠ tok_number →
    CurTok g ≠ chr "(" →
    ParsePrimary_path g None
      (fprintf_stderr
         (ErrorLine "unknown token when expecting an expression") g)

with ParseIdentifierExpr_path : Globals → option ExprAST → Globals → Prop :=
| PI_variable g t g1 :
    Parser.getNextToken g = (t, g1) → CurTok g1 ≠ chr "(" →
    ParseIdentifierExpr_path g (Some (VariableExprAST (IdentifierStr g))) g1
| PI_no_args g t1 g1 t2 g2 t3 g3 :
    Parser.getNextToken g = (t1, g1) → CurTok g1 = chr "(" →
    Parser.getNextToken g1 = (t2, g2) → CurTok g2 = chr ")" →
    Parser.getNextToken g2 = (t3, g3) →
    ParseIdentifierExpr_path g (Some (CallExprAST (IdentifierStr g) [])) g3
| PI_args g t1 g1 t2 g2 Args g3 t4 g4 :
    Parser.getNextToken g = (t1, g1) → CurTok g1 = chr "(" →
    Parser.getNextToken g1 = (t2, g2) → CurTok g2 ≠ chr ")" →
    ParseArgs_path [] g2 (Some Args) g3 →
    Parser.getNextToken g3 = (t4, g4) →
    ParseIdentifierExpr_path g (Some (CallExprAST (IdentifierStr g) Args)) g4
| PI_args_null g t1 g1 t2 g2 g3 :
    Parser.getNextToken g = (t1, g1) → CurTok g1 = chr "(" →
    Parser.getNextToken g1 = (t2, g2) → CurTok g2 ≠ chr ")" →
    ParseArgs_path [] g2 None g3 →
    ParseIdentifierExpr_path g None g3

with ParseArgs_path
    : list ExprAST → Globals → option (list ExprAST) → Globals → Prop :=
| PA_arg_null Args g g1 :
    ParseExpression_path g None g1 →
    ParseArgs_path Args g None g1
| PA_break Args g Arg g1 :
    ParseExpression_path g (Some Arg) g1 → CurTok g1 = chr ")" →
    ParseArgs_path Args g (Some (Args ++ [Arg])) g1
| PA_error Args g Arg g1 :
    ParseExpression_path g (Some Arg) g1 →
    CurTok g1 ≠ chr ")" → CurTok g1 ≠ chr "," →
    ParseArgs_path Args g None
      (fprintf_stderr (ErrorLine "Expected ')' or ',' in argument list") g1)
| PA_next Args g Arg g1 t g2 r g3 :
    ParseExpression_path g (Some Arg) g1 →
    CurTok g1 ≠ chr ")" → CurTok g1 = chr "," →
    Parser.getNextToken g1 = (t, g2) →
    ParseArgs_path (Args ++ [Arg]) g2 r g3 →
    ParseArgs_path Args g r g3

with ParseParenExpr_path : Globals → option ExprAST → Globals → Prop :=
| PPar_null g t g1 g2 :
    Parser.getNextToken g = (t, g1) →
    ParseExpression_path g1 None g2 →
    ParseParenExpr_path g None g2
| PPar_error g t g1 V g2 :
    Parser.getNextToken g = (t, g1) →
    ParseExpression_path g1 (Some V) g2 → CurTok g2 ≠ chr ")" →
    ParseParenExpr_path g None
      (fprintf_stderr (ErrorLine "expected ')'") g2)
| PPar_closed g t g1 V g2 t' g3 :
    Parser.getNextToken g = (t, g1) →
    ParseExpression_path g1 (Some V) g2 → CurTok g2 = chr ")" →
    Parser.getNextToken g2 = (t', g3) →
    ParseParenExpr_path g (Some V) g3

with ParseBinOpRHS_path
    : Z → ExprAST → Globals → option ExprAST → Globals → Prop :=
| PB_return ExprPrec LHS g TokPrec g1 :
    Parser.GetTokPrecedence g = (TokPrec, g1) → TokPrec < ExprPrec →
    ParseBinOpRHS_path ExprPrec LHS g (Some LHS) g1
| PB_primary_null ExprPrec LHS g TokPrec g1 t g2 g3 :
    Parser.GetTokPrecedence g = (TokPrec, g1) → ExprPrec ≤ TokPrec →
    Parser.getNextToken g1 = (t, g2) →
    ParsePrimary_path g2 None g3 →
    ParseBinOpRHS_path ExprPrec LHS g None g3
| PB_same ExprPrec LHS g TokPrec g1 t g2 RHS g3 NextPrec g4 r g5 :
    Parser.GetTokPrecedence g = (TokPrec, g1) → ExprPrec ≤ TokPrec →
    Parser.getNextToken g1 = (t, g2) →
    ParsePrimary_path g2 (Some RHS) g3 →
    Parser.GetTokPrecedence g3 = (NextPrec, g4) → NextPrec ≤ TokPrec →
    ParseBinOpRHS_path ExprPrec
      (BinaryExprAST (char_of_int (CurTok g1)) LHS RHS) g4 r g5 →
    ParseBinOpRHS_path ExprPrec LHS g r g5
| PB_tighter_null ExprPrec LHS g TokPrec g1 t g2 RHS g3 NextPrec g4 g5 :
    Parser.GetTokPrecedence g = (TokPrec, g1) → ExprPrec ≤ TokPrec →
    Parser.getNextToken g1 = (t, g2) →
    ParsePrimary_path g2 (Some RHS) g3 →
    Parser.GetTokPrecedence g3 = (NextPrec, g4) → TokPrec < NextPrec →
    ParseBinOpRHS_path (TokPrec + 1) RHS g4 None g5 →
    ParseBinOpRHS_path ExprPrec LHS g None g5
| PB_tighter ExprPrec LHS g TokPrec g1 t g2 RHS g3 NextPrec g4 RHS' g5 r g6 :
    Parser.GetTokPrecedence g = (TokPrec, g1) → ExprPrec ≤ TokPrec →
    Parser.getNextToken g1 = (t, g2) →
    ParsePrimary_path g2 (Some RHS) g3 →
    Parser.GetTokPrecedence g3 = (NextPrec, g4) → TokPrec < NextPrec →
    ParseBinOpRHS_path (TokPrec + 1) RHS g4 (Some RHS') g5 →
    ParseBinOpRHS_path ExprPrec
      (BinaryExprAST (char_of_int (CurTok g1)) LHS RHS') g5 r g6 →
    ParseBinOpRHS_path ExprPrec LHS g r g6.

Scheme ParseExpression_path_mut := Minimality for ParseExpression_path Sort Prop
  with ParsePrimary_path_mut := Minimality for ParsePrimary_path Sort Prop
  with ParseIdentifierExpr_path_mut :=
    Minimality for ParseIdentifierExpr_path Sort Prop
  with ParseArgs_path_mut := Minimality for ParseArgs_path Sort Prop
  with ParseParenExpr_path_mut := Minimality for ParseParenExpr_path Sort Prop
  with ParseBinOpRHS_path_mut := Minimality for ParseBinOpRHS_path Sort Prop.

Combined Scheme parser_path_ind from
  ParseExpression_path_mut, ParsePrimary_path_mut,
  ParseIdentifierExpr_path_mut, ParseArgs_path_mut, ParseParenExpr_path_mut,
  ParseBinOpRHS_path_mut.

(** What a parse function that returned [a] wrote to [stderr]: nothing
    with a result, one line of [Error] with a null. *)
Definition reports {A : Type} (g : Globals) (a : option A) (g' : Globals)
    : Prop :=
  match a with
  | Some _ => stderr g' = stderr g
  | None => ∃ s, s ∈ parser_errors ∧ stderr g' = stderr g ++ [ErrorLine s]
  end.

(** The precedence of every character is the same in [g] and [g']. *)
Definition same_precedences (g g' : Globals) : Prop :=
  ∀ c, precedence_of g' c = precedence_of g c.

(** Every operator of [e] has a positive precedence in the table of [g]. *)
Definition operators_of_table (g : Globals) (e : ExprAST) : Prop :=
  Forall (λ c, 0 < precedence_of g c) (operators e).

(** The globals the lowering never assigns. *)
Definition frontend (g : Globals)
    : string * Z * string * double * Z * gmap ascii Z :=
  (stdin g, LastChar g, IdentifierStr g, NumVal g, CurTok g,
   BinopPrecedence g).

(** [P] holds of the result and the globals [r] returned with, when it
    returned. *)
Definition returned {A : Type} (r : Res A) (P : A → Globals → Prop) : Prop :=
  match r with
  | Done a g' => P a g'
  | OutOfFuel => True
  end.

(** The texts the lowering of an expression calls [Error] with. *)
Definition codegen_errors : list string :=
  [ "Unknown variable name";
    "invalid binary operator";
    "Unknown function referenced";
    "Incorrect # arguments passed" ].

(** The lines [Error] wrote between [g] and [g'] are [new], and nothing
    else was written. *)
Definition reported (g g' : Globals) (new : list string) : Prop :=
  stderr g' = stderr g ++ map ErrorLine new.

(** [Name] has a value in the table of local values. *)
Definition is_bound (g : Globals) (Name : string) : bool :=
  match NamedValues g !! Name with
  | Some (Some _) => true
  | _ => false
  end.

(** The module has a function called [Callee] that takes [n] arguments. *)
Definition callable (g : Globals) (Callee : string) (n : nat) : bool :=
  match LLVM.getFunction Callee (TheModule g) with
  | Some f => Nat.eqb (farg_size f) n
  | None => false
  end.

(** The operators [BinaryExprAST::Codegen] has a case for. *)
Definition lowered_operators : list ascii := ["+"; "-"; "*"; "<"]%char.

(** What can be checked of an expression before it is lowered: every
    variable has a value, every callee is a function of the module of as
    many arguments as the call passes, and every operator has a case. *)
Fixpoint lowers (g : Globals) (e : ExprAST) : bool :=
  match e with
  | NumberExprAST _ => true
  | VariableExprAST Name => is_bound g Name
  | BinaryExprAST Op LHS RHS =>
      lowers g LHS && lowers g RHS && bool_decide (Op ∈ lowered_operators)
  | CallExprAST Callee Args =>
      callable g Callee (length Args) && forallb (lowers g) Args
  end.

(** What the lowering of an expression with the operators [ops] did
    between [g] and [g']: the lines it reported, all from its own texts;
    none exactly when it has a value ([ok]); and the complaint about an
    operator only if one of [ops] has no case. *)
Definition lowering_post (ops : list ascii) (g : Globals)
    (ok : Prop) (g' : Globals) : Prop :=
  ∃ new, reported g g' new ∧ Forall (λ s, s ∈ codegen_errors) new ∧
         (ok ↔ new = []) ∧
         (Forall (λ c, c ∈ lowered_operators) ops →
          "invalid binary operator" ∉ new).

(** The texts [PrototypeAST::Codegen] calls [ErrorF] with. *)
Definition redefinition_errors : list string :=
  [ "redefinition of function";
    "redefinition of function with different # args" ].

(** Every text [main] can report: those of the parser, of
    [PrototypeAST::Codegen] and of the expressions, without
    [invalid binary operator]. *)
Definition main_errors : list string :=
  parser_errors ++ redefinition_errors ++
  [ "Unknown variable name"; "Unknown function referenced";
    "Incorrect # arguments passed" ].

(** What holds of the globals throughout [main]: the characters with a
    positive precedence are operators with a case in
    [BinaryExprAST::Codegen], and every text reported so far is one of
    [main_errors]. *)
Definition reports_known (g : Globals) : Prop :=
  (∀ c, 0 < precedence_of g c → c ∈ lowered_operators) ∧
  Forall (λ s, s ∈ main_errors) (diagnostics g).

(** The instruction that ends a block. *)
Definition is_terminator (I : Value) : bool :=
  match I with
  | ReturnInst _ => true
  | _ => false
  end.

(** No instruction of [insts] ends a block. *)
Definition straight_line (insts : list Value) : bool :=
  forallb (λ I, negb (is_terminator I)) insts.

(** A function as a statement leaves it: a declaration, without blocks, or
    a definition of one block, called [entry], that ends in its only
    [ret]. *)
Definition closed (f : Function) : Prop :=
  fblocks f = [] ∨
  ∃ insts V, fblocks f = [mkBasicBlock "entry" (insts ++ [ReturnInst V])] ∧
             straight_line insts = true.

(** The module while the body of the function [F] is lowered: the builder
    points into the only block of [F], which holds [insts], and every
    other function is closed. *)
Definition open_at (F : nat) (insts : list Value) (g : Globals) : Prop :=
  NoDup (map fid (functions (TheModule g))) ∧
  Builder g = Some (F, 0%nat) ∧
  (∃ f, f ∈ functions (TheModule g) ∧ fid f = F ∧
        fblocks f = [mkBasicBlock "entry" insts]) ∧
  straight_line insts = true ∧
  Forall (λ f, fid f ≠ F → closed f) (functions (TheModule g)).

(** The module between two statements: LLVM's invariant, handles that are
    all different, and closed functions only. *)
Definition module_closed (g : Globals) : Prop :=
  wf g ∧ NoDup (map fid (functions (TheModule g))) ∧
  Forall closed (functions (TheModule g)).

(** What a statement wrote to [stderr] between [g] and [g']: the text
    [msg] and the dump of a function of the module, or lines of [Error],
    at least one. *)
Definition echoed_or_reported (msg : string) (g g' : Globals) : Prop :=
  (∃ f, stderr g' = stderr g ++ [Text msg; DumpFunction (Some f)] ∧
        f ∈ functions (TheModule g')) ∨
  (∃ new, new ≠ [] ∧ reported g g' new).

(** * Properties *)

(** ** The tokenizer returns, whatever the input *)

Section LexerTotal.
Import Lexer.

Lemma gettok_fuel_S fuel g :
  gettok_fuel (S fuel) g =
  let '(c, i) := skip_space (LastChar g) (stdin g) in
  if isalpha c then
    let '(id, c', i') :=
      read_identifier (String (char_of_int c) EmptyString) i in
    let g' := set_lexer i' c' id (NumVal g) g in
    if String.eqb id "def" then Some (tok_def, g')
    else if String.eqb id "extern" then Some (tok_extern, g')
    else Some (tok_identifier, g')
  else if isdigit c || (c =? chr ".") then
    let '(NumStr, c', i') := read_number EmptyString c i in
    Some (tok_number, set_lexer i' c' (IdentifierStr g) (strtod NumStr) g)
  else if c =? chr "#" then
    let '(c1, i1) := skip_comment i in
    let g1 := set_lexer i1 c1 (IdentifierStr g) (NumVal g) g in
    if negb (c1 =? EOF) then gettok_fuel fuel g1
    else Some (tok_eof, g1)
  else if c =? EOF then
    Some (tok_eof, set_lexer i c (IdentifierStr g) (NumVal g) g)
  else
    let '(c2, i2) := getchar i in
    Some (c, set_lexer i2 c2 (IdentifierStr g) (NumVal g) g).
Proof. reflexivity. Qed.

Lemma skip_space_stop c i : isspace c = false → skip_space c i = (c, i).
Proof. intros H. destruct i; simpl; by rewrite H. Qed.

Lemma skip_space_cons c a i :
  isspace c = true → skip_space c (String a i) = skip_space (chr a) i.
Proof. intros H. simpl. by rewrite H. Qed.

Lemma skip_space_length i : ∀ c c' i',
  skip_space c i = (c', i') → (String.length i' ≤ String.length i)%nat.
Proof.
  induction i as [|a r IH]; intros c c' i' H; simpl in H.
  - destruct (isspace c); inversion H; simpl; lia.
  - destruct (isspace c).
    + apply IH in H. simpl. lia.
    + inversion H. simpl. lia.
Qed.

Lemma skip_comment_length i : ∀ c i',
  skip_comment i = (c, i') → c ≠ EOF →
  (String.length i' < String.length i)%nat.
Proof.
  induction i as [|a r IH]; intros c i' H Hc; simpl in H.
  - inversion H. congruence.
  - destruct ((chr a =? 10) || (chr a =? 13)).
    + inversion H. simpl. lia.
    + apply IH in H; [simpl; lia | done].
Qed.

Lemma gettok_fuel_indep n : ∀ m g,
  (String.length (stdin g) < n)%nat → (String.length (stdin g) < m)%nat →
  is_Some (gettok_fuel n g) ∧ gettok_fuel n g = gettok_fuel m g.
Proof.
  induction n as [|n IH]; intros m g Hn Hm; [lia|].
  destruct m as [|m]; [lia|]. simpl.
  destruct (skip_space (LastChar g) (stdin g)) as [c i] eqn:Hs.
  apply skip_space_length in Hs.
  destruct (isalpha c).
  { destruct (read_identifier _ i) as [[id c'] i'].
    repeat case_match; eauto. }
  destruct (isdigit c || (c =? chr ".")).
  { destruct (read_number _ c i) as [[N c'] i']. eauto. }
  destruct (c =? chr "#"); [|repeat case_match; eauto].
  destruct (skip_comment i) as [c1 i1] eqn:Hc.
  destruct (c1 =? EOF) eqn:He; simpl; [eauto|].
  apply skip_comment_length in Hc; [|by apply Z.eqb_neq].
  apply IH; simpl; lia.
Qed.

Lemma gettok_unfold g n :
  (String.length (stdin g) < n)%nat →
  gettok_fuel n g = Some (gettok g).
Proof.
  intros Hn. unfold gettok.
  destruct (gettok_fuel_indep n (S (String.length (stdin g))) g Hn)
    as [[r Hr] Heq]; [lia|].
  by rewrite <- Heq, Hr.
Qed.

End LexerTotal.

(** ** Comments *)

Section Comments.
Import Lexer.

Lemma skip_comment_spec i :
  ∃ body, no_line_end body = true ∧
    ((skip_comment i = (EOF, EmptyString) ∧ i = body) ∨
     (∃ a, (chr a = 10 ∨ chr a = 13) ∧
           i = body +:+ String a (skip_comment i).2 ∧
           (skip_comment i).1 = chr a)).
Proof.
  induction i as [|a r (body & Hb & IH)]; simpl.
  - exists EmptyString. eauto.
  - destruct ((chr a =? 10) || (chr a =? 13)) eqn:Ha.
    + exists EmptyString. split; [done|]. right. exists a. simpl.
      split; [lia | done].
    + exists (String a body). simpl. rewrite Ha, Hb. split; [done|].
      destruct IH as [[-> ->]|(b & ? & Hr & ?)]; [by left|right].
      exists b. split; [done|]. split; [|done].
      exact (f_equal (String a) Hr).
Qed.

Lemma gettok_at_comment g i :
  skip_space (LastChar g) (stdin g) = (chr "#", i) →
  gettok g = gettok (at_input (skip_comment i).1 (skip_comment i).2 g).
Proof.
  intros Hs. destruct (skip_comment i) as [c1 i1] eqn:Hc. simpl.
  unfold gettok at 1.
  assert (gettok_fuel (S (String.length (stdin g))) g =
          if negb (c1 =? EOF)
          then gettok_fuel (String.length (stdin g)) (at_input c1 i1 g)
          else Some (tok_eof, at_input c1 i1 g)) as ->.
  { rewrite gettok_fuel_S, Hs.
    change (isalpha (chr "#")) with false.
    change (isdigit (chr "#") || (chr "#" =? chr ".")) with false.
    change (chr "#" =? chr "#") with true. cbv iota.
    by rewrite Hc. }
  apply skip_space_length in Hs.
  destruct (c1 =? EOF) eqn:He; simpl.
  - apply Z.eqb_eq in He. subst c1.
    assert (i1 = EmptyString) as ->.
    { destruct (skip_comment_spec i) as (b & _ & [[H _]|(a & Ha & _ & H)]);
        rewrite Hc in H; simpl in H; [congruence|].
      unfold chr, EOF in *. lia. }
    reflexivity.
  - apply skip_comment_length in Hc; [|by apply Z.eqb_neq].
    rewrite gettok_unfold; [done|]. simpl. lia.
Qed.

End Comments.

(** *** A comment anywhere in the input *)

Section CommentAnywhere.
Import Lexer.

Lemma gettok_eq g :
  gettok g =
  let '(c, i) := skip_space (LastChar g) (stdin g) in
  if isalpha c then
    let '(id, c', i') :=
      read_identifier (String (char_of_int c) EmptyString) i in
    let g' := set_lexer i' c' id (NumVal g) g in
    if String.eqb id "def" then (tok_def, g')
    else if String.eqb id "extern" then (tok_extern, g')
    else (tok_identifier, g')
  else if isdigit c || (c =? chr ".") then
    let '(NumStr, c', i') := read_number EmptyString c i in
    (tok_number, set_lexer i' c' (IdentifierStr g) (strtod NumStr) g)
  else if c =? chr "#" then
    let '(c1, i1) := skip_comment i in
    let g1 := set_lexer i1 c1 (IdentifierStr g) (NumVal g) g in
    if negb (c1 =? EOF) then gettok g1 else (tok_eof, g1)
  else if c =? EOF then
    (tok_eof, set_lexer i c (IdentifierStr g) (NumVal g) g)
  else
    let '(c2, i2) := getchar i in
    (c, set_lexer i2 c2 (IdentifierStr g) (NumVal g) g).
Proof.
  unfold gettok at 1. rewrite gettok_fuel_S.
  destruct (skip_space (LastChar g) (stdin g)) as [c i] eqn:Hs.
  apply skip_space_length in Hs.
  destruct (isalpha c).
  { destruct (read_identifier _ i) as [[id c'] i']. cbv zeta.
    by destruct (String.eqb id "def"), (String.eqb id "extern"). }
  destruct (isdigit c || (c =? chr ".")).
  { by destruct (read_number _ c i) as [[N c'] i']. }
  destruct (c =? chr "#").
  { destruct (skip_comment i) as [c1 i1] eqn:Hc. cbv zeta.
    destruct (c1 =? EOF) eqn:He; [done|]. simpl.
    apply skip_comment_length in Hc; [|by apply Z.eqb_neq].
    rewrite gettok_unfold; [done|]. simpl. lia. }
  destruct (c =? EOF); [done|]. by destruct (getchar i).
Qed.

Lemma tokens_S fuel g :
  tokens (S fuel) g =
  let '(t, g) := gettok g in
  let here := (t, IdentifierStr g, NumVal g) in
  if t =? tok_eof then Some [here]
  else option_map (cons here) (tokens fuel g).
Proof. reflexivity. Qed.

Lemma gettok_at c0 i0 g :
  gettok (at_input c0 i0 g) =
  let '(c, i) := skip_space c0 i0 in
  if isalpha c then
    let '(id, c', i') :=
      read_identifier (String (char_of_int c) EmptyString) i in
    (if String.eqb id "def" then tok_def
     else if String.eqb id "extern" then tok_extern
     else tok_identifier,
     at_input c' i' (set_lexer EmptyString 0 id (NumVal g) g))
  else if isdigit c || (c =? chr ".") then
    let '(NumStr, c', i') := read_number EmptyString c i in
    (tok_number,
     at_input c' i'
       (set_lexer EmptyString 0 (IdentifierStr g) (strtod NumStr) g))
  else if c =? chr "#" then
    let '(c1, i1) := skip_comment i in
    if negb (c1 =? EOF) then gettok (at_input c1 i1 g)
    else (tok_eof, at_input c1 i1 g)
  else if c =? EOF then (tok_eof, at_input c i g)
  else
    let '(c2, i2) := getchar i in
    (c, at_input c2 i2 g).
Proof.
  rewrite gettok_eq. cbn [LastChar stdin at_input set_lexer].
  destruct (skip_space c0 i0) as [c i].
  destruct (isalpha c).
  { destruct (read_identifier _ i) as [[id c'] i']. cbv zeta.
    by destruct (String.eqb id "def"), (String.eqb id "extern"). }
  destruct (isdigit c || (c =? chr ".")).
  { by destruct (read_number _ c i) as [[N c'] i']. }
  destruct (c =? chr "#"); [by destruct (skip_comment i) as [c1 i1]|].
  destruct (c =? EOF); [done|]. by destruct (getchar i).
Qed.

Variables body rest : string.
Hypothesis Hbody : no_line_end body = true.
Hypothesis Hrest : at_line_end rest = true.

Let X : string := String "#" (body +:+ rest).

Lemma getchar_rest :
  let c := (getchar rest).1 in
  isspace c = negb (c =? EOF) ∧ isalnum c = false ∧
  (isdigit c || (c =? chr ".")) = false ∧ (c =? chr "#") = false ∧
  isalpha c = false.
Proof.
  destruct rest as [|a post]; [done|].
  cbn [getchar fst]. cbn [at_line_end] in Hrest.
  by apply orb_true_iff in Hrest as [H|H]; apply Z.eqb_eq in H; rewrite H.
Qed.

Lemma skip_comment_body : skip_comment (body +:+ rest) = getchar rest.
Proof.
  induction body as [|b body' IH]; simpl in *.
  - destruct rest as [|a post]; simpl in *; [done|]. by rewrite Hrest.
  - apply andb_true_iff in Hbody as [Hb Hbody'].
    apply negb_true_iff in Hb. rewrite Hb. by apply IH.
Qed.

Lemma skip_space_rest c :
  isspace c = true →
  skip_space c rest = skip_space (getchar rest).1 (getchar rest).2.
Proof.
  intros Hc. destruct rest as [|a post]; simpl; by rewrite Hc.
Qed.

Lemma skip_space_pre pre : ∀ c,
  (∃ c' pre', isspace c' = false ∧
     skip_space c (pre +:+ X) = (c', pre' +:+ X) ∧
     skip_space c (pre +:+ rest) = (c', pre' +:+ rest) ∧
     (String.length pre' ≤ String.length pre)%nat)
  ∨ (skip_space c (pre +:+ X) = (chr "#", body +:+ rest) ∧
     skip_space c (pre +:+ rest) =
       skip_space (getchar rest).1 (getchar rest).2).
Proof.
  induction pre as [|p pre' IH]; intros c.
  - destruct (isspace c) eqn:Hc.
    + right. split; [|by apply skip_space_rest].
      change (EmptyString +:+ X) with (String "#" (body +:+ rest)).
      rewrite skip_space_cons by done. by apply skip_space_stop.
    + left. exists c, EmptyString. by rewrite !skip_space_stop.
  - destruct (isspace c) eqn:Hc.
    + assert (∀ t, skip_space c (String p pre' +:+ t) =
                   skip_space (chr p) (pre' +:+ t)) as Hstep
        by (intros t; by apply skip_space_cons).
      rewrite !Hstep.
      destruct (IH (chr p)) as [(c' & pre'' & ? & ? & ? & ?)|?];
        [left|by right].
      exists c', pre''. simpl. repeat split; auto with lia.
    + left. exists c, (String p pre'). by rewrite !skip_space_stop.
Qed.

Lemma read_identifier_pre pre : ∀ id,
  (∃ id' c' pre',
     read_identifier id (pre +:+ X) = (id', c', pre' +:+ X) ∧
     read_identifier id (pre +:+ rest) = (id', c', pre' +:+ rest))
  ∨ (∃ id',
     read_identifier id (pre +:+ X) = (id', chr "#", body +:+ rest) ∧
     read_identifier id (pre +:+ rest) = (id', (getchar rest).1,
                                          (getchar rest).2)).
Proof.
  induction pre as [|p pre' IH]; intros id.
  - right. exists id. split; [done|].
    pose proof getchar_rest as (_ & Hal & _).
    destruct rest as [|a post]; simpl in *; [done|]. by rewrite Hal.
  - simpl. destruct (isalnum (chr p)); [apply IH|].
    left. by exists id, (chr p), pre'.
Qed.

Lemma read_number_pre pre : ∀ N c,
  (∃ N' c' pre',
     read_number N c (pre +:+ X) = (N', c', pre' +:+ X) ∧
     read_number N c (pre +:+ rest) = (N', c', pre' +:+ rest))
  ∨ (∃ N',
     read_number N c (pre +:+ X) = (N', chr "#", body +:+ rest) ∧
     read_number N c (pre +:+ rest) = (N', (getchar rest).1,
                                       (getchar rest).2)).
Proof.
  induction pre as [|p pre' IH]; intros N c.
  - right. eexists. split; [done|].
    pose proof getchar_rest as (_ & _ & Hd & _).
    destruct rest as [|a post]; simpl in *; [done|]. by rewrite Hd.
  - simpl. destruct (isdigit (chr p) || (chr p =? chr ".")); [apply IH|].
    left. by eexists _, (chr p), pre'.
Qed.

Lemma skip_comment_pre pre :
  (∃ c' pre', c' ≠ EOF ∧
     skip_comment (pre +:+ X) = (c', pre' +:+ X) ∧
     skip_comment (pre +:+ rest) = (c', pre' +:+ rest) ∧
     (String.length pre' < String.length pre)%nat)
  ∨ (skip_comment (pre +:+ X) = getchar rest ∧
     skip_comment (pre +:+ rest) = getchar rest).
Proof.
  induction pre as [|p pre' IH].
  - right. simpl. split; [apply skip_comment_body|].
    destruct rest as [|a post]; simpl in *; [done|]. by rewrite Hrest.
  - simpl. destruct ((chr p =? 10) || (chr p =? 13)) eqn:Hp.
    + left. exists (chr p), pre'. repeat split; auto.
      unfold chr, EOF. lia.
    + destruct IH as [(c' & pre'' & ? & ? & ? & ?)|?]; [left|by right].
      exists c', pre''. repeat split; auto with lia.
Qed.

Lemma gettok_at_hash g :
  gettok (at_input (chr "#") (body +:+ rest) g) =
  gettok (at_input (getchar rest).1 (getchar rest).2 g).
Proof.
  rewrite (gettok_at_comment _ (body +:+ rest)) by (by apply skip_space_stop).
  by rewrite skip_comment_body.
Qed.

(** One call of [gettok], with and without the comment. *)
Lemma gettok_related n : ∀ pre c g,
  (String.length pre ≤ n)%nat →
  ∃ t gp s1 s2,
    gettok (at_input c (pre +:+ X) g) = (t, at_input s1.1 s1.2 gp) ∧
    gettok (at_input c (pre +:+ rest) g) = (t, at_input s2.1 s2.2 gp) ∧
    comment_related body rest s1 s2.
Proof.
  induction n as [n IHn] using lt_wf_ind. intros pre c g Hn.
  rewrite !gettok_at.
  destruct (skip_space_pre pre c) as [(c' & pre' & Hc' & -> & -> & Hlen)|[-> HY]].
  - destruct (isalpha c').
    { destruct (read_identifier_pre pre' (String (char_of_int c') ""))
        as [(id & c1 & p1 & -> & ->)|(id & -> & ->)].
      - eexists _, _, (c1, p1 +:+ X), (c1, p1 +:+ rest).
        split; [done|]. split; [done|]. right; left. by exists c1, p1.
      - eexists _, _, (chr "#", body +:+ rest), (getchar rest).
        split; [done|]. split; [done|]. by right; right. }
    destruct (isdigit c' || (c' =? chr ".")).
    { destruct (read_number_pre pre' "" c')
        as [(N & c1 & p1 & -> & ->)|(N & -> & ->)].
      - eexists _, _, (c1, p1 +:+ X), (c1, p1 +:+ rest).
        split; [done|]. split; [done|]. right; left. by exists c1, p1.
      - eexists _, _, (chr "#", body +:+ rest), (getchar rest).
        split; [done|]. split; [done|]. by right; right. }
    destruct (c' =? chr "#").
    { destruct (skip_comment_pre pre')
        as [(c1 & p1 & Hc1 & -> & -> & Hl1)|[-> ->]].
      - apply Z.eqb_neq in Hc1. rewrite Hc1. cbn [negb].
        apply (IHn (String.length p1)); lia.
      - destruct (getchar rest) as [cr ir].
        destruct (negb (cr =? EOF)).
        + destruct (gettok (at_input cr ir g)) as [t g'].
          exists t, g', (LastChar g', stdin g'), (LastChar g', stdin g').
          split; [by destruct g'|]. split; [by destruct g'|by left].
        + exists tok_eof, g, (cr, ir), (cr, ir). by repeat split; [..|left]. }
    destruct (c' =? EOF).
    { exists tok_eof, g, (c', pre' +:+ X), (c', pre' +:+ rest).
      split; [done|]. split; [done|]. right; left. by exists c', pre'. }
    destruct pre' as [|p p1].
    + exists c', g, (chr "#", body +:+ rest), (getchar rest).
      split; [done|]. split; [by destruct rest|]. by right; right.
    + exists c', g, (chr p, p1 +:+ X), (chr p, p1 +:+ rest).
      split; [done|]. split; [done|]. right; left. by exists (chr p), p1.
  - change (isalpha (chr "#")) with false.
    change (isdigit (chr "#") || (chr "#" =? chr ".")) with false.
    change (chr "#" =? chr "#") with true. cbv iota.
    rewrite skip_comment_body.
    pose proof (gettok_at (getchar rest).1 (getchar rest).2 g) as Heq.
    rewrite <- HY in Heq.
    destruct (skip_space c (pre +:+ rest)) as [c2 i2].
    rewrite <- Heq. clear Heq.
    destruct (getchar rest) as [cr ir] eqn:Er. cbn [fst snd].
    destruct (cr =? EOF) eqn:He; cbn [negb].
    + apply Z.eqb_eq in He. subst cr.
      assert (ir = EmptyString) as ->.
      { destruct rest as [|a post]; simpl in Er; [congruence|].
        injection Er as Ha _. unfold chr, EOF in Ha. lia. }
      exists tok_eof, g, (EOF, EmptyString), (EOF, EmptyString).
      split; [done|]. split; [|by left].
      by rewrite gettok_at.
    + destruct (gettok (at_input cr ir g)) as [t g'].
      exists t, g', (LastChar g', stdin g'), (LastChar g', stdin g').
      split; [by destruct g'|]. split; [by destruct g'|by left].
Qed.

Lemma tokens_related fuel : ∀ gp s1 s2,
  comment_related body rest s1 s2 →
  tokens fuel (at_input s1.1 s1.2 gp) = tokens fuel (at_input s2.1 s2.2 gp).
Proof.
  induction fuel as [|fuel IH]; intros gp s1 s2 HR; [done|].
  rewrite !tokens_S.
  destruct HR as [->|[(c & pre & -> & ->)|[-> ->]]]; [done| |].
  - destruct (gettok_related _ pre c gp (le_n _))
      as (t & gp' & s1 & s2 & H1 & H2 & HR).
    unfold X in H1. cbn [fst snd]. rewrite H1, H2.
    cbn [IdentifierStr NumVal at_input set_lexer].
    destruct (t =? tok_eof); [done|]. by rewrite (IH gp' s1 s2 HR).
  - cbn [fst snd]. by rewrite gettok_at_hash.
Qed.

End CommentAnywhere.

(** C8.  A comment is invisible to the tokenizer.  Take any input with a
    [#] in it, followed by characters none of which ends a line, followed
    by the end of the input or by a line feed or carriage return and more.
    Wherever the tokenizer stands before it, the tokens it returns are
    those it returns for the input with the part from the [#] to the end
    of that line cut out.  The mechanism: when [gettok], having skipped
    white space, stands at a [#], it returns what it returns from the
    character that ended the comment line with only the rest of the input
    after it left to read; the commented line is everything up to the
    first line end.  The input [1 + 2 # trailing comment<LF> + 3] yields
    the same tokens as [1 + 2 + 3]: number, [+], number, [+], number, end
    of input. *)
Theorem comment_transparent :
  (∀ pre body rest c g fuel,
     no_line_end body = true → at_line_end rest = true →
     tokens fuel (at_input c (pre +:+ String "#" (body +:+ rest)) g) =
     tokens fuel (at_input c (pre +:+ rest) g))
  ∧ (∀ g i fuel,
     Lexer.skip_space (LastChar g) (stdin g) = (chr "#", i) →
     let g' :=
       at_input (Lexer.skip_comment i).1 (Lexer.skip_comment i).2 g in
     Lexer.gettok g = Lexer.gettok g' ∧ tokens fuel g = tokens fuel g')
  ∧ (∀ i, ∃ body, no_line_end body = true ∧
       ((Lexer.skip_comment i = (EOF, EmptyString) ∧ i = body) ∨
        (∃ a, (chr a = 10 ∨ chr a = 13) ∧
              i = body +:+ String a (Lexer.skip_comment i).2 ∧
              (Lexer.skip_comment i).1 = chr a)))
  ∧ tokens 6 (initial ("1 + 2 # trailing comment" +:+ newline +:+ " + 3")) =
    tokens 6 (initial "1 + 2 + 3")
  ∧ tokens 6 (initial "1 + 2 + 3") =
    Some [(tok_number, EmptyString, strtod "1");
          (chr "+", EmptyString, strtod "1");
          (tok_number, EmptyString, strtod "2");
          (chr "+", EmptyString, strtod "2");
          (tok_number, EmptyString, strtod "3");
          (tok_eof, EmptyString, strtod "3")].
Proof.
  split; [|split; [|split; [apply skip_comment_spec|split; reflexivity]]].
  - intros pre body rest c g fuel Hbody Hrest.
    apply (tokens_related body rest Hbody Hrest fuel g
             (c, pre +:+ String "#" (body +:+ rest)) (c, pre +:+ rest)).
    right; left. by exists c, pre.
  - intros g i fuel Hs g'. split; [by apply gettok_at_comment|].
    destruct fuel as [|fuel]; [done|]. simpl.
    by rewrite (gettok_at_comment g i Hs).
Qed.

(** The instance: the trailing comment of the example, cut out. *)
Lemma comment_transparent_witness :
  no_line_end " trailing comment" = true
  ∧ at_line_end (newline +:+ " + 3") = true
  ∧ tokens 6 (initial ("1 + 2 # trailing comment" +:+ newline +:+ " + 3")) =
    tokens 6 (initial ("1 + 2 " +:+ newline +:+ " + 3")).
Proof.
  split; [reflexivity|]. split; [reflexivity|].
  exact (proj1 comment_transparent "1 + 2 " " trailing comment"
           (newline +:+ " + 3") (chr " ") (initial EmptyString) 6%nat
           eq_refl eq_refl).
Defined.

(** ** The parser: one step of each function, and fuel *)

Section ParserFuel.
Import Parser.

Lemma ParseExpression_S fuel g :
  ParseExpression (S fuel) g =
  ('(LHS, g) <- ParsePrimary fuel g ;;
   match LHS with
   | None => Done None g
   | Some LHS => ParseBinOpRHS fuel 0 LHS g
   end).
Proof. reflexivity. Qed.

Lemma ParsePrimary_S fuel g :
  ParsePrimary (S fuel) g =
  if CurTok g =? tok_identifier then ParseIdentifierExpr fuel g
  else if CurTok g =? tok_number then ret (ParseNumberExpr g)
  else if CurTok g =? chr "(" then ParseParenExpr fuel g
  else ret (Error "unknown token when expecting an expression" g).
Proof. reflexivity. Qed.

Lemma ParseIdentifierExpr_S fuel g :
  ParseIdentifierExpr (S fuel) g =
  let IdName := IdentifierStr g in
  let '(_, g) := getNextToken g in
  if negb (CurTok g =? chr "(") then Done (Some (VariableExprAST IdName)) g
  else
    let '(_, g) := getNextToken g in
    '(Args, g) <-
      (if negb (CurTok g =? chr ")") then ParseArgs fuel [] g
       else Done (Some []) g) ;;
    match Args with
    | None => Done None g
    | Some Args =>
        let '(_, g) := getNextToken g in
        Done (Some (CallExprAST IdName Args)) g
    end.
Proof. reflexivity. Qed.

Lemma ParseArgs_S fuel Args g :
  ParseArgs (S fuel) Args g =
  ('(Arg, g) <- ParseExpression fuel g ;;
   match Arg with
   | None => Done None g
   | Some Arg =>
       let Args := Args ++ [Arg] in
       if CurTok g =? chr ")" then Done (Some Args) g
       else if negb (CurTok g =? chr ",") then
         ret (Error "Expected ')' or ',' in argument list" g)
       else
         let '(_, g) := getNextToken g in
         ParseArgs fuel Args g
   end).
Proof. reflexivity. Qed.

Lemma ParseParenExpr_S fuel g :
  ParseParenExpr (S fuel) g =
  let '(_, g) := getNextToken g in
  '(V, g) <- ParseExpression fuel g ;;
  match V with
  | None => Done None g
  | Some V =>
      if negb (CurTok g =? chr ")") then ret (Error "expected ')'" g)
      else
        let '(_, g) := getNextToken g in
        Done (Some V) g
  end.
Proof. reflexivity. Qed.

Lemma ParseBinOpRHS_S fuel ExprPrec LHS g :
  ParseBinOpRHS (S fuel) ExprPrec LHS g =
  let '(TokPrec, g) := GetTokPrecedence g in
  if TokPrec <? ExprPrec then Done (Some LHS) g
  else
    let BinOp := CurTok g in
    let '(_, g) := getNextToken g in
    '(RHS, g) <- ParsePrimary fuel g ;;
    match RHS with
    | None => Done None g
    | Some RHS =>
        let '(NextPrec, g) := GetTokPrecedence g in
        '(RHS, g) <-
          (if TokPrec <? NextPrec
           then ParseBinOpRHS fuel (TokPrec + 1) RHS g
           else Done (Some RHS) g) ;;
        match RHS with
        | None => Done None g
        | Some RHS =>
            ParseBinOpRHS fuel ExprPrec
              (BinaryExprAST (char_of_int BinOp) LHS RHS) g
        end
    end.
Proof. reflexivity. Qed.

Ltac fuel_step :=
  repeat first
    [ discriminate
    | progress cbv zeta in *
    | match goal with
      | H : Res_bind ?r _ = Done _ _ |- _ =>
          lazymatch r with
          | (if ?c then _ else _) => destruct c
          | _ =>
            let E := fresh "E" in
            destruct r eqn:E; [|discriminate H];
            match goal with
            | IH : _ |- _ => eapply IH in E; [rewrite E; clear E|lia]
            end;
            cbn [Res_bind] in H |- *
          end
      | H : (let '(_, _) := ?p in _) = Done _ _ |- _ => destruct p
      | H : (if ?c then _ else _) = Done _ _ |- _ => destruct c
      | H : match ?o with Some _ => _ | None => _ end = Done _ _ |- _ =>
          destruct o
      end ];
  try done;
  match goal with
  | IH : _ |- _ => eapply IH; [eassumption|lia]
  end.

Lemma parser_stable n :
  stable ParseExpression n ∧ stable ParsePrimary n ∧
  stable ParseIdentifierExpr n ∧ (∀ Args, stable (λ n, ParseArgs n Args) n) ∧
  stable ParseParenExpr n ∧
  (∀ P LHS, stable (λ n, ParseBinOpRHS n P LHS) n).
Proof.
  induction n as [|n (IH1 & IH2 & IH3 & IH4 & IH5 & IH6)].
  { repeat split; try intros ?; intros ???; discriminate. }
  unfold stable in *. repeat split.
  - intros g a g' H [|m] Hm; [lia|]. rewrite ParseExpression_S in *.
    fuel_step.
  - intros g a g' H [|m] Hm; [lia|]. rewrite ParsePrimary_S in *.
    fuel_step.
  - intros g a g' H [|m] Hm; [lia|]. rewrite ParseIdentifierExpr_S in *.
    fuel_step.
  - intros Args g a g' H [|m] Hm; [lia|]. rewrite ParseArgs_S in *.
    fuel_step.
  - intros g a g' H [|m] Hm; [lia|]. rewrite ParseParenExpr_S in *.
    fuel_step.
  - intros P LHS g a g' H [|m] Hm; [lia|]. rewrite ParseBinOpRHS_S in *.
    fuel_step.
Qed.

Lemma ParseExpression_stable n k g a g' :
  ParseExpression n g = Done a g' → ParseExpression (n + k) g = Done a g'.
Proof.
  intros H. destruct (parser_stable n) as (S1 & _). eapply S1; [done|lia].
Qed.

Lemma ParsePrototype_args_stable n : ∀ k ArgNames g a g',
  ParsePrototype_args n ArgNames g = Done a g' →
  ParsePrototype_args (n + k) ArgNames g = Done a g'.
Proof.
  induction n as [|n IH]; intros k ArgNames g a g' H; [done|].
  simpl in *. destruct (getNextToken g) as [t g1].
  destruct (t =? tok_identifier); [by apply IH|done].
Qed.

Ltac stable_by lem :=
  repeat first
    [ discriminate
    | progress cbv zeta in *
    | match goal with
      | H : Res_bind ?r _ = Done _ _ |- _ =>
          let E := fresh "E" in
          destruct r eqn:E; [|discriminate H];
          lem E; rewrite E; clear E; cbn [Res_bind] in H |- *
      | H : (let '(_, _) := ?p in _) = Done _ _ |- _ => destruct p
      | H : (if ?c then _ else _) = Done _ _ |- _ => destruct c
      | H : match ?o with Some _ => _ | None => _ end = Done _ _ |- _ =>
          destruct o
      end ];
  done.

Lemma ParsePrototype_stable n k g a g' :
  ParsePrototype n g = Done a g' → ParsePrototype (n + k) g = Done a g'.
Proof.
  unfold ParsePrototype. intros H.
  stable_by ltac:(fun E => apply (ParsePrototype_args_stable _ k) in E).
Qed.

Lemma ParseDefinition_stable n k g a g' :
  ParseDefinition n g = Done a g' → ParseDefinition (n + k) g = Done a g'.
Proof.
  unfold ParseDefinition. intros H.
  stable_by ltac:(fun E =>
    first [ apply (ParseExpression_stable _ k) in E
          | apply (ParsePrototype_stable _ k) in E ]).
Qed.

End ParserFuel.


Lemma res_top_stable n g r :
  res_ast (Parser.ParseTopLevelExpr n g) = Some r →
  ∀ k, res_ast (Parser.ParseTopLevelExpr (n + k) g) = Some r.
Proof.
  unfold Parser.ParseTopLevelExpr.
  destruct (Parser.ParseExpression n g) eqn:E; [|done].
  intros H k. by rewrite (ParseExpression_stable _ k _ _ _ E).
Qed.

Lemma res_def_stable n g r :
  res_ast (Parser.ParseDefinition n g) = Some r →
  ∀ k, res_ast (Parser.ParseDefinition (n + k) g) = Some r.
Proof.
  destruct (Parser.ParseDefinition n g) eqn:E; [|done].
  intros [= <-] k. by rewrite (ParseDefinition_stable _ k _ _ _ E).
Qed.

(** ** Precedence climbing *)


(** ** Tokens that are not operators *)

Section NotInfix.
Import Parser.

Lemma GetTokPrecedence_not_infix g :
  not_infix g →
  ∃ g', GetTokPrecedence g = (-1, g') ∧ only_table_differs g g' ∧
        not_infix g'.
Proof.
  unfold not_infix, GetTokPrecedence, BinopPrecedence_index. intros H.
  destruct (isascii (CurTok g)); simpl.
  - destruct (BinopPrecedence g !! char_of_int (CurTok g)) as [p|] eqn:E.
    + assert ((p <=? 0) = true) as -> by lia.
      exists g. rewrite E. by destruct g.
    + eexists. split; [done|]. split; [by destruct g|].
      simpl. by rewrite lookup_insert_eq.
  - exists g. by destruct g.
Qed.

Lemma only_table_differs_trans g1 g2 g3 :
  only_table_differs g1 g2 → only_table_differs g2 g3 →
  only_table_differs g1 g3.
Proof.
  unfold only_table_differs. intros H2 H3. rewrite H3, H2.
  by destruct g1.
Qed.

Lemma ParseBinOpRHS_not_infix fuel ExprPrec LHS g :
  not_infix g → 0 ≤ ExprPrec →
  ∃ g', ParseBinOpRHS (S fuel) ExprPrec LHS g = Done (Some LHS) g' ∧
        only_table_differs g g' ∧ not_infix g'.
Proof.
  intros Hg Hp. destruct (GetTokPrecedence_not_infix g Hg) as (g' & E & Hd).
  exists g'. rewrite ParseBinOpRHS_S, E.
  by assert ((-1 <? ExprPrec) = true) as -> by lia.
Qed.

End NotInfix.

(** C9.  Let a primary expression [e] have just been parsed, leaving a
    current token that is not a key of the precedence table or whose
    precedence there is not positive.  Then [ParseBinOpRHS], called with a
    minimum precedence that is not negative (the program passes 0 or one
    more than a positive precedence), returns its left-hand side at once;
    [ParseExpression] returns [e]; and when [e] was the right operand of an
    operator that [ParseBinOpRHS] had accepted, the loop returns the binary
    node it builds with [e].  In all three the token is still the current
    one and nothing further was read or reported: at most, the table has
    received a zero entry for it. *)
Theorem non_operator_ends_expression fuel g0 e g ExprPrec LHS :
  Parser.ParsePrimary fuel g0 = Done (Some e) g →
  not_infix g →
  0 ≤ ExprPrec →
  (∃ g', Parser.ParseBinOpRHS fuel ExprPrec LHS g = Done (Some LHS) g' ∧
         only_table_differs g g' ∧ CurTok g' = CurTok g)
  ∧ (∃ g', Parser.ParseExpression (S fuel) g0 = Done (Some e) g' ∧
           only_table_differs g g' ∧ CurTok g' = CurTok g)
  ∧ (∀ g1 TokPrec g2 t,
       Parser.GetTokPrecedence g1 = (TokPrec, g2) →
       ExprPrec ≤ TokPrec →
       Parser.getNextToken g2 = (t, g0) →
       ∃ g', Parser.ParseBinOpRHS (S fuel) ExprPrec LHS g1 =
               Done (Some (BinaryExprAST (char_of_int (CurTok g2)) LHS e)) g'
             ∧ only_table_differs g g' ∧ CurTok g' = CurTok g).
Proof.
  intros Hprim Hg Hp.
  destruct fuel as [|fuel]; [discriminate Hprim|].
  assert (∀ g g', only_table_differs g g' → CurTok g' = CurTok g) as Hcur.
  { intros ?? ->. done. }
  split; [|split].
  - destruct (ParseBinOpRHS_not_infix fuel ExprPrec LHS g Hg Hp)
      as (g' & E & Hd & _). eauto.
  - destruct (ParseBinOpRHS_not_infix fuel 0 e g Hg) as (g' & E & Hd & _);
      [lia|].
    exists g'. rewrite ParseExpression_S, Hprim. simpl. eauto.
  - intros g1 TokPrec g2 t Hprec Hle Hnext.
    destruct (GetTokPrecedence_not_infix g Hg) as (g' & E & Hd & Hg').
    destruct (ParseBinOpRHS_not_infix fuel ExprPrec
                (BinaryExprAST (char_of_int (CurTok g2)) LHS e) g' Hg' Hp)
      as (g'' & E' & Hd' & _).
    exists g''. rewrite ParseBinOpRHS_S, Hprec.
    assert ((TokPrec <? ExprPrec) = false) as -> by lia.
    cbv zeta. rewrite Hnext, Hprim. cbn [Res_bind]. rewrite E.
    assert ((TokPrec <? -1) = false) as -> by lia.
    cbn [Res_bind]. rewrite E'.
    assert (only_table_differs g g'') as Hd''
      by (by eapply only_table_differs_trans).
    eauto.
Qed.

(** The instance: [7] followed by [;], inside [2 * 7 ;]. *)
Lemma non_operator_ends_expression_witness :
  let g1 := snd (Parser.getNextToken (startup "2 * 7 ;")) in
  let g2 := snd (Parser.GetTokPrecedence g1) in
  let g0 := snd (Parser.getNextToken g2) in
  let e := NumberExprAST (strtod "7") in
  let g := snd (Parser.ParseNumberExpr g0) in
  CurTok g = chr ";" ∧ not_infix g ∧
  ∃ g', Parser.ParseBinOpRHS 3 0 (NumberExprAST (strtod "2")) g1 =
          Done (Some (BinaryExprAST "*" (NumberExprAST (strtod "2")) e)) g'
        ∧ only_table_differs g g' ∧ CurTok g' = CurTok g.
Proof.
  intros g1 g2 g0 e g. split; [by vm_compute|]. split; [by vm_compute|].
  refine (proj2 (proj2 (non_operator_ends_expression 2 g0 e g 0
                          (NumberExprAST (strtod "2")) _ _ _))
            g1 40 g2 (CurTok g0) _ _ _).
  - by vm_compute.
  - by vm_compute.
  - lia.
  - by vm_compute.
  - lia.
  - by vm_compute.
Defined.

(** ** Lowering: what it leaves alone *)

Lemma ExprAST_induction (P : ExprAST → Prop) :
  (∀ Val, P (NumberExprAST Val)) →
  (∀ Name, P (VariableExprAST Name)) →
  (∀ Op LHS RHS, P LHS → P RHS → P (BinaryExprAST Op LHS RHS)) →
  (∀ Callee Args, Forall P Args → P (CallExprAST Callee Args)) →
  ∀ e, P e.
Proof.
  intros HN HV HB HC. fix IH 1. intros [Val|Name|Op LHS RHS|Callee Args].
  - apply HN.
  - apply HV.
  - apply HB; apply IH.
  - apply HC. revert Args. fix IHl 1. intros [|Arg Args].
    + constructor.
    + constructor; [apply IH|apply IHl].
Qed.

Section Frame.
Import LLVM Codegen.

Lemma frame_refl g : lowering_frame g g.
Proof. by repeat split. Qed.

Lemma frame_trans g1 g2 g3 :
  lowering_frame g1 g2 → lowering_frame g2 g3 → lowering_frame g1 g3.
Proof.
  intros (S1 & H1 & B1 & N1 & O1) (S2 & H2 & B2 & N2 & O2).
  repeat split; [congruence..|auto|].
  intros F n HB. rewrite (O2 F n), (O1 F n); congruence.
Qed.

Lemma update_function_shape F h g :
  (∀ f, fid (h f) = fid f ∧ fname (h f) = fname f ∧
        farg_size (h f) = farg_size f) →
  shape (update_function F h g) = shape g.
Proof.
  intros Hh. unfold shape, update_function. simpl.
  rewrite map_map. apply map_ext. intros f.
  destruct (Nat.eqb (fid f) F); [|done].
  by destruct (Hh f) as (-> & -> & ->).
Qed.

Lemma update_function_others F h g :
  (∀ f, fid (h f) = fid f) →
  others F (update_function F h g) = others F g.
Proof.
  intros Hh. unfold others, update_function. simpl.
  induction (functions (TheModule g)) as [|f fs IH]; [done|]. simpl.
  destruct (Nat.eqb (fid f) F) eqn:E.
  - apply Nat.eqb_eq in E.
    rewrite !filter_cons_False by (rewrite ?Hh; naive_solver). exact IH.
  - apply Nat.eqb_neq in E. rewrite !filter_cons_True by done.
    by rewrite IH.
Qed.

Lemma Insert_frame I g : lowering_frame g (Insert I g).2.
Proof.
  unfold Insert. destruct (Builder g) as [[F n]|] eqn:EB; [|apply frame_refl].
  repeat split; [by apply update_function_shape|done|].
  intros F' n' HB. rewrite EB in HB. injection HB as <- <-.
  by apply update_function_others.
Qed.

Lemma Error_frame {A} Str g : lowering_frame g (@Error A Str g).2.
Proof. by repeat split. Qed.

Lemma Call_unfold Callee Args g :
  ExprAST_Codegen (CallExprAST Callee Args) g =
  match getFunction Callee (TheModule g) with
  | None => Error "Unknown function referenced" g
  | Some CalleeF =>
      if negb (Nat.eqb (farg_size CalleeF) (length Args)) then
        Error "Incorrect # arguments passed" g
      else
        let '(ArgsV, g) := Codegen_args Args [] g in
        match ArgsV with
        | None => (None, g)
        | Some ArgsV => some (CreateCall (fid CalleeF) ArgsV "calltmp" g)
        end
  end.
Proof. reflexivity. Qed.

Lemma Binary_unfold Op LHS RHS g :
  ExprAST_Codegen (BinaryExprAST Op LHS RHS) g =
  let '(L, g) := ExprAST_Codegen LHS g in
  let '(R, g) := ExprAST_Codegen RHS g in
  match L, R with
  | Some L, Some R =>
      if Ascii.eqb Op "+" then some (CreateFAdd L R "addtmp" g)
      else if Ascii.eqb Op "-" then some (CreateFSub L R "subtmp" g)
      else if Ascii.eqb Op "*" then some (CreateFMul L R "multmp" g)
      else if Ascii.eqb Op "<" then
        let '(L, g) := CreateFCmpULT L R "cmptmp" g in
        some (CreateUIToFP L "booltmp" g)
      else Error "invalid binary operator" g
  | _, _ => (None, g)
  end.
Proof. reflexivity. Qed.

Lemma Codegen_args_frame Args :
  Forall (λ e, ∀ g, lowering_frame g (ExprAST_Codegen e g).2) Args →
  ∀ ArgsV g, lowering_frame g (Codegen_args Args ArgsV g).2.
Proof.
  induction 1 as [|Arg Args HArg _ IH]; intros ArgsV g; simpl.
  - apply frame_refl.
  - specialize (HArg g). destruct (ExprAST_Codegen Arg g) as [[V|] g1]; [|done].
    eapply frame_trans; [exact HArg|apply IH].
Qed.

Lemma ExprAST_Codegen_frame e : ∀ g, lowering_frame g (ExprAST_Codegen e g).2.
Proof.
  induction e as [Val|Name|Op LHS RHS IHL IHR|Callee Args IH]
    using ExprAST_induction; intros g.
  - apply frame_refl.
  - simpl. unfold NamedValues_index.
    destruct (NamedValues g !! Name) as [[V|]|] eqn:E; simpl.
    + apply frame_refl.
    + by repeat split.
    + repeat split; try done. simpl. intros x V Hx.
      rewrite lookup_insert_ne; [done|congruence].
  - rewrite Binary_unfold. specialize (IHL g).
    destruct (ExprAST_Codegen LHS g) as [L g1]. specialize (IHR g1).
    destruct (ExprAST_Codegen RHS g1) as [R g2].
    assert (lowering_frame g g2) as H12 by (by eapply frame_trans).
    destruct L as [L|], R as [R|]; try done.
    eapply frame_trans; [exact H12|].
    unfold CreateFAdd, CreateFSub, CreateFMul, CreateFCmpULT, CreateUIToFP.
    destruct (Ascii.eqb Op "+"); [apply Insert_frame|].
    destruct (Ascii.eqb Op "-"); [apply Insert_frame|].
    destruct (Ascii.eqb Op "*"); [apply Insert_frame|].
    destruct (Ascii.eqb Op "<"); [|by repeat split].
    pose proof (Insert_frame (FCmpULT L R "cmptmp") g2) as H.
    destruct (Insert (FCmpULT L R "cmptmp") g2) as [L' g3].
    eapply frame_trans; [exact H|apply Insert_frame].
  - rewrite Call_unfold.
    destruct (getFunction Callee (TheModule g)) as [f|]; [|apply Error_frame].
    destruct (negb _); [apply Error_frame|].
    pose proof (Codegen_args_frame Args IH [] g) as H.
    destruct (Codegen_args Args [] g) as [[ArgsV|] g1]; [|done].
    eapply frame_trans; [exact H|apply Insert_frame].
Qed.

End Frame.

(** ** The builder *)

Section Builder.
Import LLVM Codegen.


Lemma Insert_stderr I g : stderr (Insert I g).2 = stderr g.
Proof. unfold Insert. by destruct (Builder g) as [[F n]|]. Qed.


Lemma Insert_fst I g : (Insert I g).1 = I.
Proof. unfold Insert. by destruct (Builder g) as [[F n]|]. Qed.

End Builder.

(** ** Binary operators *)



(** ** Variable references *)

(** C6.  [VariableExprAST::Codegen] returns the value bound to the name
    when there is one; when the name is absent from [NamedValues] (or its
    entry is null) it reports [Unknown variable name] and returns null.
    The text [def bar(a) a+c] parses, without any report, into the
    definition of [bar] with parameter [a] and body [a+c]; lowering that
    definition is what reports the unknown variable and fails, and it
    leaves no function behind. *)
Theorem unknown_variable_fails_in_lowering :
  (∀ Name g,
     let result := Codegen.ExprAST_Codegen (VariableExprAST Name) g in
     match NamedValues g !! Name with
     | Some (Some V) => result = (Some V, g)
     | Some None =>
         result = (None, fprintf_stderr (ErrorLine "Unknown variable name") g)
     | None =>
         result =
         (None, fprintf_stderr (ErrorLine "Unknown variable name")
                  (set_NamedValues (<[Name := None]> (NamedValues g)) g))
     end)
  ∧ ∀ k,
    let bar :=
      mkFunctionAST (mkPrototypeAST "bar" ["a"])
        (BinaryExprAST "+" (VariableExprAST "a") (VariableExprAST "c")) in
    ∃ g1, Parser.ParseDefinition (8 + k) (startup "def bar(a) a+c") =
            Done (Some bar) g1
          ∧ diagnostics g1 = []
          ∧ (Codegen.FunctionAST_Codegen bar g1).1 = None
          ∧ diagnostics (Codegen.FunctionAST_Codegen bar g1).2 =
              ["Unknown variable name"]
          ∧ functions (TheModule (Codegen.FunctionAST_Codegen bar g1).2) = [].
Proof.
  split.
  - intros Name g. simpl. unfold Codegen.NamedValues_index.
    by destruct (NamedValues g !! Name) as [[V|]|].
  - intros k bar. eexists. split.
    + apply ParseDefinition_stable. by vm_compute.
    + by vm_compute.
Qed.

(** ** Calls *)

Lemma Codegen_args_app A1 : ∀ A2 ArgsV g,
  Codegen_args (A1 ++ A2) ArgsV g =
  match Codegen_args A1 ArgsV g with
  | (Some V1, g1) => Codegen_args A2 V1 g1
  | (None, g1) => (None, g1)
  end.
Proof.
  induction A1 as [|Arg A1 IH]; intros A2 ArgsV g; simpl; [done|].
  destruct (Codegen.ExprAST_Codegen Arg g) as [[V|] g1]; [apply IH|done].
Qed.

Lemma Codegen_args_values Args : ∀ ArgsV g V g',
  Codegen_args Args ArgsV g = (Some V, g') →
  ∃ new, V = ArgsV ++ new ∧ length new = length Args.
Proof.
  induction Args as [|Arg Args IH]; intros ArgsV g V g' H; simpl in H.
  - exists []. simplify_eq. by rewrite app_nil_r.
  - destruct (Codegen.ExprAST_Codegen Arg g) as [[V1|] g1]; [|done].
    apply IH in H as (new & -> & Hlen). exists (V1 :: new).
    rewrite <- app_assoc. simpl. by rewrite Hlen.
Qed.

(** C4.  [CallExprAST::Codegen]: when the module has no function of the
    callee's name it reports [Unknown function referenced] and returns
    null; when the function's number of arguments is not the number of
    argument expressions it reports [Incorrect # arguments passed] and
    returns null; otherwise it lowers the arguments in order, each in the
    globals left by the one before, stops with null at the first that
    fails, and else asks the builder for the call of the function on the
    values, which is the result.  After [extern foo(a b)], lowering
    [foo(1)] reports the wrong number of arguments and lowering [foo(1,2)]
    adds the call to the block. *)
Theorem CallExprAST_Codegen_cases :
  (∀ Callee Args g,
     let result := Codegen.ExprAST_Codegen (CallExprAST Callee Args) g in
     match LLVM.getFunction Callee (TheModule g) with
     | None =>
         result =
         (None, fprintf_stderr (ErrorLine "Unknown function referenced") g)
     | Some CalleeF =>
         if decide (farg_size CalleeF = length Args) then
           match Codegen_args Args [] g with
           | (Some ArgsV, g') =>
               length ArgsV = length Args ∧
               result =
               (Some (CallInst (fid CalleeF) ArgsV "calltmp"),
                (LLVM.Insert (CallInst (fid CalleeF) ArgsV "calltmp") g').2)
           | (None, g') => result = (None, g')
           end
         else
           result =
           (None, fprintf_stderr (ErrorLine "Incorrect # arguments passed") g)
     end)
  ∧ (∀ A1 Arg A2 ArgsV g,
       Codegen_args (A1 ++ Arg :: A2) ArgsV g =
       match Codegen_args A1 ArgsV g with
       | (Some V1, g1) =>
           match Codegen.ExprAST_Codegen Arg g1 with
           | (Some V, g2) => Codegen_args A2 (V1 ++ [V]) g2
           | (None, g2) => (None, g2)
           end
       | (None, g1) => (None, g1)
       end)
  ∧ (let one := NumberExprAST (strtod "1") in
     let two := NumberExprAST (strtod "2") in
     let anon body := mkFunctionAST (mkPrototypeAST EmptyString []) body in
     ∃ g,
       run 20 "extern foo(a b);" = Some g
       ∧ diagnostics g = []
       ∧ (∀ k, res_ast (Parser.ParseTopLevelExpr (8 + k) (startup "foo(1)"))
               = Some (Some (anon (CallExprAST "foo" [one]))))
       ∧ (∀ k, res_ast (Parser.ParseTopLevelExpr (8 + k) (startup "foo(1,2)"))
               = Some (Some (anon (CallExprAST "foo" [one; two]))))
       ∧ (Codegen.FunctionAST_Codegen (anon (CallExprAST "foo" [one])) g).1
         = None
       ∧ diagnostics
           (Codegen.FunctionAST_Codegen (anon (CallExprAST "foo" [one])) g).2
         = ["Incorrect # arguments passed"]
       ∧ (Codegen.FunctionAST_Codegen
            (anon (CallExprAST "foo" [one; two])) g).1 = Some 1%nat
       ∧ current_block
           (Codegen.FunctionAST_Codegen
              (anon (CallExprAST "foo" [one; two])) g).2
         = Some [CallInst 0 [ConstantFP (strtod "1"); ConstantFP (strtod "2")]
                   "calltmp";
                 ReturnInst
                   (CallInst 0
                      [ConstantFP (strtod "1"); ConstantFP (strtod "2")]
                      "calltmp")]).
Proof.
  split; [|split].
  - intros Callee Args g result. subst result. rewrite Call_unfold.
    destruct (LLVM.getFunction Callee (TheModule g)) as [f|]; [|done].
    case_decide as Hn.
    + rewrite Hn, Nat.eqb_refl. simpl.
      destruct (Codegen_args Args [] g) as [[ArgsV|] g'] eqn:E; [|done].
      apply Codegen_args_values in E as (new & -> & Hlen).
      split; [done|]. unfold Codegen.some, LLVM.CreateCall.
      by rewrite Insert_fst.
    + apply Nat.eqb_neq in Hn. by rewrite Hn.
  - intros A1 Arg A2 ArgsV g. rewrite Codegen_args_app.
    by destruct (Codegen_args A1 ArgsV g) as [[V1|] g1].
  - intros one two anon. eexists. split; [vm_compute; reflexivity|].
    split; [by vm_compute|].
    split; [intros k|split; [intros k|by vm_compute]].
    + apply res_top_stable. by vm_compute.
    + apply res_top_stable. by vm_compute.
Qed.

(** ** Declaring a function *)

Section Declare.
Import LLVM Codegen.

Lemma app_ne (s t : string) : t ≠ EmptyString → s +:+ t ≠ s.
Proof.
  intros Ht. induction s as [|a s IH]; [done|].
  intros [= H]. by apply IH.
Qed.

Lemma pretty_N_go_length x : ∀ s,
  (String.length s ≤ String.length (pretty_N_go x s))%nat.
Proof.
  induction (N.lt_wf_0 x) as [x _ IH]; intros s.
  destruct (decide (x = 0)%N) as [->|Hx]; [by rewrite pretty_N_go_0|].
  rewrite pretty_N_go_step by lia.
  etrans; [|apply IH; apply N.div_lt; lia]. simpl. lia.
Qed.

Lemma pretty_nat_nonempty (n : nat) : pretty n ≠ EmptyString.
Proof.
  unfold pretty, pretty_nat, pretty, pretty_N.
  case_decide; [done|].
  rewrite pretty_N_go_step by lia. intros Hp.
  pose proof (pretty_N_go_length (N.of_nat n `div` 10)
                (String (pretty_N_char (N.of_nat n `mod` 10)) "")) as Hl.
  rewrite Hp in Hl. simpl in Hl. lia.
Qed.

Lemma createValueName_ne fuel Name fs : ∀ lu,
  (createValueName fuel Name fs lu).1 ≠ Name.
Proof.
  induction fuel as [|fuel IH]; intros lu; simpl.
  - apply app_ne, pretty_nat_nonempty.
  - destruct (name_taken _ fs); [apply IH|].
    apply app_ne, pretty_nat_nonempty.
Qed.

Lemma find_existsb {A} (p : A → bool) l :
  existsb p l = match find p l with Some _ => true | None => false end.
Proof.
  induction l as [|a l IH]; simpl; [done|]. by destruct (p a).
Qed.

Lemma deref_new fs id name n bs lu :
  Forall (λ f, (fid f < id)%nat) fs →
  deref id (mkModule (fs ++ [mkFunction id name n bs]) lu) =
  Some (mkFunction id name n bs).
Proof.
  unfold deref. simpl. induction 1 as [|f fs Hf _ IH]; simpl.
  - by rewrite Nat.eqb_refl.
  - by assert (Nat.eqb (fid f) id = false) as ->
      by (apply Nat.eqb_neq; lia).
Qed.

Lemma erase_new fs id name n bs :
  Forall (λ f, (fid f < id)%nat) fs →
  filter (λ f, fid f ≠ id) (fs ++ [mkFunction id name n bs]) = fs.
Proof.
  induction 1 as [|f fs Hf _ IH]; simpl.
  - by rewrite filter_cons_False by naive_solver.
  - rewrite filter_cons_True by lia. by rewrite IH.
Qed.

(** What [PrototypeAST::Codegen] does, by what [getFunction] finds for the
    name before the call.  The handle counter moves on in every case; the
    counter of the symbol table moves only when the name was taken. *)
Lemma PrototypeAST_Codegen_spec Name Args g :
  fresh_ids g →
  let M := TheModule g in
  match getFunction Name M with
  | None =>
      PrototypeAST_Codegen (mkPrototypeAST Name Args) g =
      (Some (heap g),
       bind_arguments (heap g) 0 Args
         (set_heap (S (heap g))
            (set_TheModule
               (mkModule
                  (functions M ++ [mkFunction (heap g) Name (length Args) []])
                  (LastUnique M)) g)))
  | Some f =>
      ∃ lu,
        let g1 :=
          set_heap (S (heap g)) (set_TheModule (mkModule (functions M) lu) g)
        in
        PrototypeAST_Codegen (mkPrototypeAST Name Args) g =
        if negb (empty f) then
          (None, fprintf_stderr (ErrorLine "redefinition of function") g1)
        else if negb (Nat.eqb (farg_size f) (length Args)) then
          (None,
           fprintf_stderr
             (ErrorLine "redefinition of function with different # args") g1)
        else (Some (fid f), bind_arguments (fid f) 0 Args g1)
  end.
Proof.
  intros Hfresh M. unfold PrototypeAST_Codegen, Function_Create.
  cbn [proto_Name proto_Args]. fold M.
  assert (∀ name lu,
    getName (heap g)
      (set_heap (S (heap g))
         (set_TheModule
            (mkModule
               (functions M ++ [mkFunction (heap g) name (length Args) []])
               lu) g)) = name)
    as Hname.
  { intros name lu. unfold getName. cbn [TheModule set_heap set_TheModule].
    by rewrite (deref_new (functions M) _ name (length Args) [] lu Hfresh). }
  assert (∀ name lu,
    eraseFromParent (heap g)
      (set_heap (S (heap g))
         (set_TheModule
            (mkModule
               (functions M ++ [mkFunction (heap g) name (length Args) []])
               lu) g)) =
    set_heap (S (heap g)) (set_TheModule (mkModule (functions M) lu) g))
    as Herase.
  { intros name lu. unfold eraseFromParent.
    cbn [TheModule set_heap set_TheModule functions LastUnique].
    by rewrite (erase_new (functions M) _ name (length Args) [] Hfresh). }
  destruct (getFunction Name M) as [f|] eqn:Eget.
  - unfold getFunction in Eget.
    destruct (String.eqb Name "") eqn:En; [done|].
    assert (name_taken Name (functions M) = true) as Htaken.
    { unfold name_taken. by rewrite find_existsb, Eget. }
    rewrite Htaken. cbn [orb negb].
    pose proof (createValueName_ne (length (functions M)) Name (functions M)
                  (LastUnique M)) as Hne.
    destruct (createValueName _ _ _ _) as [name lu]. simpl in Hne.
    exists lu. rewrite Hname.
    assert (String.eqb name Name = false) as -> by (by apply String.eqb_neq).
    cbn [negb]. rewrite Herase.
    assert (getFunction Name
              (TheModule (set_heap (S (heap g))
                 (set_TheModule (mkModule (functions M) lu) g))) = Some f)
      as -> by (unfold getFunction; cbn; by rewrite En).
    by destruct (negb (empty f)), (negb (Nat.eqb (farg_size f) (length Args))).
  - assert (String.eqb Name "" || negb (name_taken Name (functions M)) = true)
      as ->.
    { unfold getFunction in Eget. destruct (String.eqb Name ""); [done|].
      unfold name_taken. by rewrite find_existsb, Eget. }
    rewrite Hname, String.eqb_refl. done.
Qed.

End Declare.

(** ** Binding the parameters *)

Section Bind.
Import LLVM Codegen.

Lemma bind_arguments_frame F Args : ∀ Idx g,
  TheModule (bind_arguments F Idx Args g) = TheModule g ∧
  stderr (bind_arguments F Idx Args g) = stderr g ∧
  heap (bind_arguments F Idx Args g) = heap g ∧
  Builder (bind_arguments F Idx Args g) = Builder g.
Proof.
  induction Args as [|Arg Args IH]; intros Idx g; simpl; [done|].
  destruct (IH (S Idx) (set_NamedValues
    (<[Arg := Some (Argument F Idx)]> (NamedValues g)) g))
    as (-> & -> & -> & ->). done.
Qed.

Lemma bind_arguments_other F Args x : ∀ Idx g,
  x ∉ Args →
  NamedValues (bind_arguments F Idx Args g) !! x = NamedValues g !! x.
Proof.
  induction Args as [|Arg Args IH]; intros Idx g Hx; simpl; [done|].
  apply not_elem_of_cons in Hx as [Hne Hx].
  rewrite IH by done. simpl. by rewrite lookup_insert_ne.
Qed.

(** The binding of a parameter name is the argument at the last position
    the name has in the list. *)
Lemma bind_arguments_last F Args x : ∀ Idx g i,
  Args !! i = Some x →
  (∀ j, (i < j)%nat → Args !! j ≠ Some x) →
  NamedValues (bind_arguments F Idx Args g) !! x =
  Some (Some (Argument F (Idx + i))).
Proof.
  induction Args as [|Arg Args IH]; intros Idx g i Hi Hlast; [done|].
  simpl. destruct i as [|i]; simpl in Hi.
  - injection Hi as ->.
    rewrite bind_arguments_other.
    + simpl. by rewrite lookup_insert_eq, Nat.add_0_r.
    + intros (j & Hj)%list_elem_of_lookup_1.
      by apply (Hlast (S j)); [lia|].
  - rewrite (IH (S Idx) _ i Hi).
    + do 3 f_equal. lia.
    + intros j Hj. apply (Hlast (S j)). lia.
Qed.

End Bind.

(** ** Repeated parameter names *)

(** C10.  Let [PrototypeAST::Codegen] succeed with function [F] on a
    parameter list in which [i] is the last position of the name [x]
    (earlier positions may hold [x] too).  Lowering with any other list of
    the same length, repeated or not, succeeds with the same function: the
    names are not checked.  Afterwards [x] is bound to the argument [i] of
    [F].  The body is lowered starting from these bindings; wherever [x] is
    so bound, a reference to [x] lowers to that argument, and lowering any
    expression keeps [x] so bound. *)
Theorem repeated_parameter_binds_last Name Args g F g' x i :
  Codegen.PrototypeAST_Codegen (mkPrototypeAST Name Args) g = (Some F, g') →
  Args !! i = Some x →
  (∀ j, (i < j)%nat → Args !! j ≠ Some x) →
  (∀ Args', length Args' = length Args →
     (Codegen.PrototypeAST_Codegen (mkPrototypeAST Name Args') g).1 = Some F)
  ∧ NamedValues g' !! x = Some (Some (Argument F i))
  ∧ (∀ BB, NamedValues
             (LLVM.SetInsertPoint BB (LLVM.BasicBlock_Create "entry" F g').2)
           = NamedValues g')
  ∧ (∀ g2, NamedValues g2 !! x = Some (Some (Argument F i)) →
       Codegen.ExprAST_Codegen (VariableExprAST x) g2 =
         (Some (Argument F i), g2)
       ∧ ∀ e, NamedValues (Codegen.ExprAST_Codegen e g2).2 !! x =
              Some (Some (Argument F i))).
Proof.
  intros H Hi Hlast. unfold Codegen.PrototypeAST_Codegen in *.
  cbn [proto_Name proto_Args] in *.
  destruct (LLVM.Function_Create Name (length Args) g) as [F0 g0] eqn:EC.
  match type of H with
  | (let '(_, _) := ?E in _) = _ => destruct E as [[F1|] g1] eqn:E1
  end; [|done].
  injection H as <- <-.
  split; [|split; [|split]].
  - intros Args' Hlen. by rewrite Hlen, EC, E1.
  - by apply (bind_arguments_last F1 Args x 0%nat g1 i).
  - done.
  - intros g2 H2. split.
    + simpl. unfold Codegen.NamedValues_index. by rewrite H2.
    + intros e. by apply (ExprAST_Codegen_frame e g2).
Qed.

(** The instance: [h(x x)], where [x] ends as the second argument. *)
Lemma repeated_parameter_binds_last_witness :
  let r :=
    Codegen.PrototypeAST_Codegen (mkPrototypeAST "h" ["x"; "x"])
      (initial EmptyString) in
  r.1 = Some 0%nat ∧
  NamedValues r.2 !! "x" = Some (Some (Argument 0 1)) ∧
  ∀ e, NamedValues (Codegen.ExprAST_Codegen e r.2).2 !! "x" =
       Some (Some (Argument 0 1)).
Proof.
  intros r. split; [by vm_compute|].
  assert (["x"; "x"] !! 1%nat = Some "x") as Hi by done.
  assert (∀ j, (1 < j)%nat → ["x"; "x"] !! j ≠ Some "x") as Hlast.
  { intros [|[|[|j]]] Hj; (lia || done). }
  destruct (repeated_parameter_binds_last "h" ["x"; "x"] (initial EmptyString)
              0%nat r.2 "x" 1%nat eq_refl Hi Hlast)
    as (_ & Hx & _ & Hbody).
  split; [exact Hx|]. intros e. by apply (Hbody r.2 Hx).
Defined.

(** ** The local table does not outlive a definition *)

(** C5.  [FunctionAST::Codegen] starts by clearing [NamedValues]: its
    result and every global it leaves are the same whatever the table held
    on entry.  Lowering [def f(a) a] leaves [a] bound, and lowering
    [def g(b) a] after it still reports [Unknown variable name] and fails;
    [main], reading the two definitions, reports exactly that and the
    module has no [g]. *)
Theorem local_table_cleared_on_entry :
  (∀ FA g nv,
     Codegen.FunctionAST_Codegen FA (set_NamedValues nv g) =
     Codegen.FunctionAST_Codegen FA g)
  ∧ (let f :=
       mkFunctionAST (mkPrototypeAST "f" ["a"]) (VariableExprAST "a") in
     let g :=
       mkFunctionAST (mkPrototypeAST "g" ["b"]) (VariableExprAST "a") in
     let r1 := Codegen.FunctionAST_Codegen f (startup EmptyString) in
     let r2 := Codegen.FunctionAST_Codegen g r1.2 in
     r1.1 = Some 0%nat
     ∧ NamedValues r1.2 !! "a" = Some (Some (Argument 0 0))
     ∧ r2.1 = None
     ∧ diagnostics r2.2 = ["Unknown variable name"]
     ∧ NamedValues r2.2 !! "a" = Some None
     ∧ (∀ k, res_ast (Parser.ParseDefinition (8 + k) (startup "def f(a) a"))
             = Some (Some f))
     ∧ (∀ k, res_ast (Parser.ParseDefinition (8 + k) (startup "def g(b) a"))
             = Some (Some g))
     ∧ diagnostics <$> run 20 "def f(a) a; def g(b) a;" =
       Some ["Unknown variable name"]
     ∧ (λ g, LLVM.getFunction "g" (TheModule g)) <$>
         run 20 "def f(a) a; def g(b) a;" = Some None).
Proof.
  split; [done|].
  intros f g r1 r2.
  split_and!; try (by vm_compute);
    intros k; apply res_def_stable; by vm_compute.
Qed.

(** ** Redefinition *)

Section Redefinition.
Import LLVM Codegen.

Lemma diagnostics_Error Str g :
  diagnostics (fprintf_stderr (ErrorLine Str) g) = diagnostics g ++ [Str].
Proof. unfold diagnostics. simpl. by rewrite omap_app. Qed.

Lemma find_app_None {A} (p : A → bool) l x :
  find p l = None → find p (l ++ [x]) = if p x then Some x else None.
Proof.
  induction l as [|a l IH]; simpl; [done|]. by destruct (p a).
Qed.

End Redefinition.

(** C2.  [PrototypeAST::Codegen] for a name and a parameter list, in a
    module where no handle in use is the next one to be handed out.
    When [getFunction] finds nothing for the name, a declaration with that
    name, as many arguments as parameters and no block is added at the end
    of the module and is the result (and is what [getFunction] finds from
    then on, unless the name is empty).  When it finds a function without
    blocks and with that many arguments, that function is the result and
    the module keeps its functions.  When it finds a function with a
    block, [redefinition of function] is reported; when it finds one
    without blocks but with another number of arguments, [redefinition of
    function with different # args] is reported; in both the result is
    null and the module keeps its functions.  So [extern foo(a)] and then
    [def foo(a) a*a] succeed and leave [foo] with a block, and
    [def foo(a) a+a] after them is reported as a redefinition and fails,
    leaving [foo] as it was. *)
Theorem redefinition_policy :
  (∀ Name Args g,
     fresh_ids g →
     let result :=
       Codegen.PrototypeAST_Codegen (mkPrototypeAST Name Args) g in
     let fs := functions (TheModule g) in
     let fs' := functions (TheModule result.2) in
     match LLVM.getFunction Name (TheModule g) with
     | None =>
         let new := mkFunction (heap g) Name (length Args) [] in
         result.1 = Some (heap g) ∧ fs' = fs ++ [new] ∧
         diagnostics result.2 = diagnostics g ∧
         (Name ≠ EmptyString →
          LLVM.getFunction Name (TheModule result.2) = Some new)
     | Some f =>
         if LLVM.empty f && Nat.eqb (farg_size f) (length Args) then
           result.1 = Some (fid f) ∧ fs' = fs ∧
           diagnostics result.2 = diagnostics g
         else
           result.1 = None ∧ fs' = fs ∧
           diagnostics result.2 =
           diagnostics g ++
             [if LLVM.empty f
              then "redefinition of function with different # args"
              else "redefinition of function"]
     end)
  ∧ (let a := VariableExprAST "a" in
     let foo := mkPrototypeAST "foo" ["a"] in
     let r1 := Codegen.PrototypeAST_Codegen foo (startup EmptyString) in
     let r2 :=
       Codegen.FunctionAST_Codegen
         (mkFunctionAST foo (BinaryExprAST "*" a a)) r1.2 in
     let r3 :=
       Codegen.FunctionAST_Codegen
         (mkFunctionAST foo (BinaryExprAST "+" a a)) r2.2 in
     let foo_has_body g :=
       negb <$> (LLVM.empty <$> LLVM.getFunction "foo" (TheModule g)) in
     r1.1 = Some 0%nat ∧ foo_has_body r1.2 = Some false
     ∧ r2.1 = Some 0%nat ∧ foo_has_body r2.2 = Some true
     ∧ diagnostics r2.2 = []
     ∧ r3.1 = None ∧ diagnostics r3.2 = ["redefinition of function"]
     ∧ functions (TheModule r3.2) = functions (TheModule r2.2)
     ∧ diagnostics <$> run 20 "extern foo(a); def foo(a) a*a;" = Some []
     ∧ foo_has_body <$> run 20 "extern foo(a); def foo(a) a*a;" =
       Some (Some true)
     ∧ diagnostics <$>
         run 20 "extern foo(a); def foo(a) a*a; def foo(a) a+a;" =
       Some ["redefinition of function"]).
Proof.
  split; [|by vm_compute].
  intros Name Args g Hfresh result fs fs'. subst result fs fs'.
  pose proof (PrototypeAST_Codegen_spec Name Args g Hfresh) as H.
  cbv zeta in H.
  destruct (LLVM.getFunction Name (TheModule g)) as [f|] eqn:Eget.
  - destruct H as (lu & ->).
    destruct (LLVM.empty f); simpl.
    + destruct (Nat.eqb (farg_size f) (length Args)); simpl.
      * by destruct (bind_arguments_frame (fid f) Args 0%nat
          (set_heap (S (heap g))
             (set_TheModule (mkModule (functions (TheModule g)) lu) g)))
          as (-> & Hs & _); unfold diagnostics; rewrite ?Hs.
      * by rewrite diagnostics_Error.
    + by rewrite diagnostics_Error.
  - rewrite H. cbn [fst snd].
    match goal with |- context [Codegen.bind_arguments ?F ?i ?A ?g0] =>
      destruct (bind_arguments_frame F A i g0) as (-> & Hs & _)
    end.
    split; [done|]. split; [done|].
    split; [unfold diagnostics; by rewrite Hs|].
    intros Hne. unfold LLVM.getFunction in *. simpl.
    apply String.eqb_neq in Hne. rewrite Hne in *.
    rewrite find_app_None by done. simpl. by rewrite String.eqb_refl.
Qed.

(** The instance: [foo(a)] again after [extern foo(a)]. *)
Lemma redefinition_policy_witness :
  let g :=
    (Codegen.PrototypeAST_Codegen (mkPrototypeAST "foo" ["a"])
       (startup EmptyString)).2 in
  let result := Codegen.PrototypeAST_Codegen (mkPrototypeAST "foo" ["a"]) g in
  fresh_ids g ∧
  result.1 = Some 0%nat ∧
  functions (TheModule result.2) = functions (TheModule g) ∧
  diagnostics result.2 = diagnostics g.
Proof.
  intros g result.
  assert (fresh_ids g) as Hfresh.
  { unfold fresh_ids. vm_compute. repeat constructor. }
  split; [exact Hfresh|].
  exact (proj1 redefinition_policy "foo" ["a"] g Hfresh).
Defined.

(** ** Rolling back a definition whose body fails *)

Section Rollback.
Import LLVM Codegen.

Lemma find_filter_None {A} (p : A → bool) (P : A → Prop)
    `{∀ x, Decision (P x)} l :
  (∀ x, x ∈ l → p x = true → ¬ P x) → find p (filter P l) = None.
Proof.
  induction l as [|a l IH]; intros Hp; [done|].
  destruct (decide (P a)) as [Ha|Ha].
  - rewrite filter_cons_True by done. simpl.
    destruct (p a) eqn:E.
    + destruct (Hp a); [left|done|done].
    + apply IH. intros x Hx. apply Hp. by right.
  - rewrite filter_cons_False by done.
    apply IH. intros x Hx. apply Hp. by right.
Qed.

Lemma find_Some_elem {A} (p : A → bool) l x :
  find p l = Some x → x ∈ l ∧ p x = true.
Proof.
  induction l as [|a l IH]; simpl; [done|].
  destruct (p a) eqn:E.
  - intros [= <-]. split; [left|done].
  - intros [Hx Hp]%IH. split; [by right|done].
Qed.

Lemma find_None_elem {A} (p : A → bool) l x :
  find p l = None → x ∈ l → p x = false.
Proof.
  induction l as [|a l IH]; simpl; [by intros _ ?%elem_of_nil|].
  destruct (p a) eqn:E; [done|].
  intros Hn [->|Hx]%elem_of_cons; auto.
Qed.

Lemma others_fresh g :
  fresh_ids g → others (heap g) g = functions (TheModule g).
Proof.
  unfold others, fresh_ids.
  induction 1 as [|f fs Hf _ IH]; [done|].
  rewrite filter_cons_True by lia. by rewrite IH.
Qed.

(** The failing path of [FunctionAST::Codegen]: the module is left with
    the functions it had after the prototype was lowered, without [F]. *)
Lemma FunctionAST_Codegen_failure FA g F g1 :
  PrototypeAST_Codegen (Proto FA) (set_NamedValues ∅ g) = (Some F, g1) →
  (ExprAST_Codegen (Body FA)
     (SetInsertPoint (BasicBlock_Create "entry" F g1).1
                     (BasicBlock_Create "entry" F g1).2)).1 = None →
  (FunctionAST_Codegen FA g).1 = None ∧
  functions (TheModule (FunctionAST_Codegen FA g).2) = others F g1.
Proof.
  intros Hproto Hbody. unfold FunctionAST_Codegen. rewrite Hproto.
  rewrite (surjective_pairing (BasicBlock_Create "entry" F g1)).
  set (gb := SetInsertPoint _ _) in *.
  pose proof (ExprAST_Codegen_frame (Body FA) gb) as (_ & _ & _ & _ & Ho).
  destruct (ExprAST_Codegen (Body FA) gb) as [[V|] g3]; [done|].
  split; [done|]. cbn [fst snd] in *.
  change (functions (TheModule (eraseFromParent F g3))) with (others F g3).
  rewrite (Ho F _ eq_refl). subst gb. unfold SetInsertPoint, BasicBlock_Create.
  change (others F (set_Builder ?b ?g)) with (others F g).
  simpl. by apply update_function_others.
Qed.

End Rollback.

(** C3.  In a module whose handles are in order and whose names each
    belong to one function: when [FunctionAST::Codegen] lowers the
    prototype to a function [F] and the body then fails to lower in the
    entry block of [F], the result is null and [F] has been erased.  The
    module is left with exactly the functions it had on entry other than
    [F]; the handle [F] refers to nothing in it, and [getFunction] finds
    nothing for the name of the definition. *)
Theorem failed_body_is_rolled_back FA g F g1 :
  wf g →
  Codegen.PrototypeAST_Codegen (Proto FA) (set_NamedValues ∅ g)
    = (Some F, g1) →
  (Codegen.ExprAST_Codegen (Body FA)
     (LLVM.SetInsertPoint (LLVM.BasicBlock_Create "entry" F g1).1
                          (LLVM.BasicBlock_Create "entry" F g1).2)).1
    = None →
  let result := Codegen.FunctionAST_Codegen FA g in
  result.1 = None
  ∧ functions (TheModule result.2) = others F g
  ∧ LLVM.deref F (TheModule result.2) = None
  ∧ LLVM.getFunction (proto_Name (Proto FA)) (TheModule result.2) = None.
Proof.
  intros [Hfresh Huniq] Hproto Hbody result.
  destruct (FunctionAST_Codegen_failure FA g F g1 Hproto Hbody)
    as [Hres Hfs].
  fold result in Hres, Hfs.
  destruct FA as [[Name Args] body]. cbn [Proto Body proto_Name] in *.
  pose proof (PrototypeAST_Codegen_spec Name Args (set_NamedValues ∅ g)
                Hfresh) as Hspec.
  cbv zeta in Hspec.
  change (TheModule (set_NamedValues ∅ g)) with (TheModule g) in Hspec.
  change (heap (set_NamedValues ∅ g)) with (heap g) in Hspec.
  assert (others F g1 = others F g ∧
          ∀ f, f ∈ functions (TheModule g) →
               String.eqb (fname f) Name = true → Name ≠ EmptyString →
               ¬ fid f ≠ F) as [Ho Hname].
  { destruct (LLVM.getFunction Name (TheModule g)) as [f|] eqn:Eget.
    - destruct Hspec as (lu & Hspec). rewrite Hspec in Hproto.
      destruct (negb (LLVM.empty f)); [done|].
      destruct (negb (Nat.eqb (farg_size f) (length Args))); [done|].
      injection Hproto as <- <-. split.
      + unfold others.
        by destruct (bind_arguments_frame (fid f) Args 0%nat
          (set_heap (S (heap g)) (set_TheModule
             (mkModule (functions (TheModule g)) lu) (set_NamedValues ∅ g))))
          as (-> & _).
      + intros f' Hf' Hn' Hne Hid. apply Hid. symmetry.
        unfold LLVM.getFunction in Eget.
        destruct (String.eqb Name "") eqn:En; [done|].
        apply find_Some_elem in Eget as [Hf Hn].
        apply String.eqb_eq in Hn, Hn'.
        unfold unique_names in Huniq.
        rewrite Forall_forall in Huniq. specialize (Huniq f Hf).
        rewrite Forall_forall in Huniq. apply (Huniq f' Hf'); congruence.
    - rewrite Hspec in Hproto. injection Hproto as <- <-. split.
      + unfold others at 1.
        match goal with |- context [Codegen.bind_arguments ?F ?i ?A ?g0] =>
          destruct (bind_arguments_frame F A i g0) as (-> & _)
        end.
        cbn [TheModule set_heap set_TheModule functions set_NamedValues].
        rewrite (erase_new _ _ Name (length Args) [] Hfresh).
        by rewrite others_fresh.
      + intros f' Hf' Hn' Hne _.
        unfold LLVM.getFunction in Eget.
        apply String.eqb_neq in Hne. rewrite Hne in Eget.
        by rewrite (find_None_elem _ _ f' Eget Hf') in Hn'. }
  rewrite Ho in Hfs.
  split; [done|]. split; [done|]. split.
  - unfold LLVM.deref. rewrite Hfs. unfold others.
    apply find_filter_None. intros f _ Hf%Nat.eqb_eq. by intros ?.
  - unfold LLVM.getFunction. rewrite Hfs.
    destruct (String.eqb Name "") eqn:En; [done|].
    apply find_filter_None. intros f Hf Hn. apply Hname; [done..|].
    by apply String.eqb_neq.
Qed.

(** The instance: [def bar(a) a+c] after [extern foo(a)]. *)
Lemma failed_body_is_rolled_back_witness :
  let g :=
    (Codegen.PrototypeAST_Codegen (mkPrototypeAST "foo" ["a"])
       (startup EmptyString)).2 in
  let bar :=
    mkFunctionAST (mkPrototypeAST "bar" ["a"])
      (BinaryExprAST "+" (VariableExprAST "a") (VariableExprAST "c")) in
  let result := Codegen.FunctionAST_Codegen bar g in
  wf g
  ∧ result.1 = None
  ∧ functions (TheModule result.2) = others 1 g
  ∧ LLVM.deref 1 (TheModule result.2) = None
  ∧ LLVM.getFunction "bar" (TheModule result.2) = None.
Proof.
  intros g bar result.
  assert (wf g) as Hwf.
  { split; [unfold fresh_ids|unfold unique_names];
      vm_compute; repeat constructor; done. }
  split; [exact Hwf|].
  refine (failed_body_is_rolled_back bar g 1
            (Codegen.PrototypeAST_Codegen (Proto bar)
               (set_NamedValues ∅ g)).2 Hwf _ _); by vm_compute.
Defined.

(** ** The invariant of the module holds wherever [main] gets *)

Section Invariant.
Import LLVM Codegen.

Lemma shape_elem g g' f :
  shape g' = shape g → f ∈ functions (TheModule g') →
  ∃ f0, f0 ∈ functions (TheModule g) ∧ fid f0 = fid f ∧ fname f0 = fname f.
Proof.
  unfold shape. change (@map Function) with (@fmap list _ Function).
  intros Hs Hf.
  assert ((fid f, fname f, farg_size f) ∈
          (λ f, (fid f, fname f, farg_size f)) <$> functions (TheModule g))
    as (f0 & [= ???] & Hf0)%list_elem_of_fmap
    by (rewrite <- Hs; apply list_elem_of_fmap; eauto).
  eauto.
Qed.

Lemma wf_shape g g' :
  shape g' = shape g → heap g' = heap g → wf g → wf g'.
Proof.
  unfold wf, fresh_ids, unique_names.
  intros Hs Hh [Hf Hu]. rewrite Hh.
  rewrite !Forall_forall in *. split.
  - intros f (f0 & H0 & <- & _)%(shape_elem g); auto.
  - intros f1 (f1' & H1 & <- & <-)%(shape_elem g); [|done].
    rewrite Forall_forall.
    intros f2 (f2' & H2 & <- & <-)%(shape_elem g); [|done].
    specialize (Hu f1' H1). rewrite Forall_forall in Hu. auto.
Qed.

Lemma wf_backend g g' : backend g' = backend g → wf g → wf g'.
Proof.
  unfold backend. intros [= HM Hh _ _].
  apply wf_shape; [unfold shape; by rewrite HM|done].
Qed.

Lemma wf_initial input : wf (initial input).
Proof. split; constructor. Qed.

Lemma wf_erase F g : wf g → wf (eraseFromParent F g).
Proof.
  unfold wf, fresh_ids, unique_names, eraseFromParent. simpl.
  set (fs := functions (TheModule g)).
  assert (∀ f, f ∈ filter (λ f, fid f ≠ F) fs → f ∈ fs) as Hsub
    by (by intros f [??]%list_elem_of_filter).
  rewrite !Forall_forall. intros [Hf Hu]. split; [by auto|].
  intros f1 H1. rewrite Forall_forall. intros f2 H2.
  specialize (Hu f1 (Hsub _ H1)). rewrite Forall_forall in Hu. by auto.
Qed.

Lemma wf_bind_arguments F Args Idx g :
  wf g → wf (bind_arguments F Idx Args g).
Proof.
  destruct (bind_arguments_frame F Args Idx g) as (HM & _ & Hh & _).
  apply wf_shape; [unfold shape; by rewrite HM|done].
Qed.

Lemma wf_declare Name n g :
  wf g → getFunction Name (TheModule g) = None →
  wf (set_heap (S (heap g))
        (set_TheModule
           (mkModule (functions (TheModule g) ++ [mkFunction (heap g) Name n []])
                     (LastUnique (TheModule g))) g)).
Proof.
  intros [Hf Hu] Hget.
  assert (∀ f, f ∈ functions (TheModule g) → fname f ≠ EmptyString →
               fname f ≠ Name) as Hfree.
  { intros f Hin Hne <-. unfold getFunction in Hget.
    apply String.eqb_neq in Hne. rewrite Hne in Hget.
    apply (find_None_elem _ _ f) in Hget; [|done]. simpl in Hget.
    by rewrite String.eqb_refl in Hget. }
  unfold wf, fresh_ids, unique_names in *. simpl.
  rewrite !Forall_forall in *. split.
  - intros f [Hin| ->%list_elem_of_singleton]%elem_of_app; simpl; [|lia].
    specialize (Hf f Hin). lia.
  - intros f1 H1. rewrite Forall_forall. intros f2 H2 Hne Heq.
    apply elem_of_app in H1 as [H1| ->%list_elem_of_singleton];
      apply elem_of_app in H2 as [H2| ->%list_elem_of_singleton];
      simpl in *.
    + specialize (Hu f1 H1). rewrite Forall_forall in Hu. auto.
    + by destruct (Hfree f1 H1 Hne).
    + destruct (Hfree f2 H2); congruence.
    + done.
Qed.

Lemma wf_PrototypeAST_Codegen P g :
  wf g → wf (PrototypeAST_Codegen P g).2.
Proof.
  intros Hwf. destruct P as [Name Args].
  pose proof (PrototypeAST_Codegen_spec Name Args g (proj1 Hwf)) as H.
  cbv zeta in H.
  assert (∀ lu, wf (set_heap (S (heap g))
            (set_TheModule (mkModule (functions (TheModule g)) lu) g)))
    as Hsame.
  { intros lu. destruct Hwf as [Hf Hu]. split; [|done].
    unfold fresh_ids in *. simpl.
    eapply Forall_impl; [exact Hf|]. simpl. lia. }
  destruct (getFunction Name (TheModule g)) as [f|] eqn:Eget.
  - destruct H as (lu & ->).
    destruct (negb (empty f)); [exact (Hsame lu)|].
    destruct (negb _); [exact (Hsame lu)|].
    by apply wf_bind_arguments.
  - rewrite H. by apply wf_bind_arguments, wf_declare.
Qed.

Lemma wf_ExprAST_Codegen e g : wf g → wf (ExprAST_Codegen e g).2.
Proof.
  destruct (ExprAST_Codegen_frame e g) as (Hs & Hh & _).
  by apply wf_shape.
Qed.

Lemma wf_FunctionAST_Codegen FA g : wf g → wf (FunctionAST_Codegen FA g).2.
Proof.
  intros Hwf. unfold FunctionAST_Codegen.
  pose proof (wf_PrototypeAST_Codegen (Proto FA) (set_NamedValues ∅ g) Hwf)
    as Hp.
  destruct (PrototypeAST_Codegen (Proto FA) (set_NamedValues ∅ g))
    as [[F|] g1]; [|done]. simpl in Hp.
  destruct (BasicBlock_Create "entry" F g1) as [BB g2] eqn:EB.
  assert (wf (SetInsertPoint BB g2)) as Hb.
  { apply (f_equal snd) in EB. simpl in EB. subst g2.
    revert Hp. apply wf_shape; [|done].
    unfold BasicBlock_Create, SetInsertPoint. simpl.
    change (shape (set_Builder ?b ?g)) with (shape g).
    by apply update_function_shape. }
  pose proof (wf_ExprAST_Codegen (Body FA) _ Hb) as He.
  destruct (ExprAST_Codegen (Body FA) (SetInsertPoint BB g2)) as [[V|] g3].
  - simpl in He. unfold CreateRet, verifyFunction.
    destruct (Insert_frame (ReturnInst V) g3) as (Hs & Hh & _).
    destruct (Insert (ReturnInst V) g3) as [I g4]. simpl in *.
    by apply (wf_shape g3).
  - by apply wf_erase.
Qed.

End Invariant.

Section ParserBackend.
Import Parser.

Lemma gettok_fuel_backend n : ∀ g r,
  Lexer.gettok_fuel n g = Some r → backend r.2 = backend g.
Proof.
  induction n as [|n IH]; intros g r H; [done|].
  rewrite gettok_fuel_S in H.
  destruct (Lexer.skip_space (LastChar g) (stdin g)) as [c i].
  destruct (isalpha c).
  { destruct (Lexer.read_identifier _ i) as [[id c'] i']. cbv zeta in H.
    repeat case_match; by simplify_eq. }
  destruct (isdigit c || (c =? chr ".")).
  { destruct (Lexer.read_number _ c i) as [[N c'] i']. by simplify_eq. }
  destruct (c =? chr "#").
  { destruct (Lexer.skip_comment i) as [c1 i1]. cbv zeta in H.
    destruct (negb (c1 =? EOF)); [|by simplify_eq].
    apply IH in H. by rewrite H. }
  destruct (c =? EOF); [by simplify_eq|].
  destruct (Lexer.getchar i). by simplify_eq.
Qed.

Lemma getNextToken_backend g t g' :
  getNextToken g = (t, g') → backend g' = backend g.
Proof.
  unfold getNextToken, Lexer.gettok.
  destruct (Lexer.gettok_fuel _ g) as [[t0 g0]|] eqn:E.
  - apply gettok_fuel_backend in E. intros [= <- <-]. by rewrite <- E.
  - by intros [= <- <-].
Qed.

Lemma GetTokPrecedence_backend g p g' :
  GetTokPrecedence g = (p, g') → backend g' = backend g.
Proof.
  unfold GetTokPrecedence, BinopPrecedence_index.
  repeat case_match; simplify_eq; by intros [= <- <-].
Qed.

Lemma backend_fprintf o g : backend (fprintf_stderr o g) = backend g.
Proof. reflexivity. Qed.

Ltac backend_step :=
  repeat first
    [ discriminate
    | progress cbv zeta in *
    | match goal with
      | H : Res_bind ?r _ = Done _ _ |- _ =>
          lazymatch r with
          | (if ?c then _ else _) => destruct c
          | Done _ _ => cbn [Res_bind] in H
          | _ =>
            let E := fresh "E" in
            destruct r eqn:E; [|discriminate H];
            cbn [Res_bind] in H;
            match goal with
            | IH : _ |- _ => apply IH in E
            end
          end
      | H : (let '(_, _) := ?p in _) = Done _ _ |- _ =>
          let E := fresh "E" in
          destruct p eqn:E;
          first [ apply getNextToken_backend in E
                | apply GetTokPrecedence_backend in E ]
      | H : (if ?c then _ else _) = Done _ _ |- _ => destruct c
      | H : match ?o with Some _ => _ | None => _ end = Done _ _ |- _ =>
          destruct o
      | H : ret _ = Done _ _ |- _ => unfold ret in H; simpl in H
      | H : Done _ _ = Done _ _ |- _ => injection H as <- <-
      end ];
  first [ congruence
        | done
        | rewrite backend_fprintf; congruence
        | match goal with
          | |- context [getNextToken ?g] =>
              let E := fresh "E" in
              destruct (getNextToken g) eqn:E;
              apply getNextToken_backend in E; simpl; congruence
          end
        | match goal with
          | IH : _, H : _ = Done _ _ |- _ => apply IH in H; congruence
          end ].

Lemma parser_keeps_backend n :
  keeps_backend ParseExpression n ∧ keeps_backend ParsePrimary n ∧
  keeps_backend ParseIdentifierExpr n ∧
  (∀ Args, keeps_backend (λ n, ParseArgs n Args) n) ∧
  keeps_backend ParseParenExpr n ∧
  (∀ P LHS, keeps_backend (λ n, ParseBinOpRHS n P LHS) n).
Proof.
  induction n as [|n (IH1 & IH2 & IH3 & IH4 & IH5 & IH6)].
  { repeat split; try intros ?; intros ???; discriminate. }
  unfold keeps_backend in *. repeat split.
  - intros g a g' H. rewrite ParseExpression_S in H. backend_step.
  - intros g a g' H. rewrite ParsePrimary_S in H. unfold ParseNumberExpr in H.
    backend_step.
  - intros g a g' H. rewrite ParseIdentifierExpr_S in H. backend_step.
  - intros Args g a g' H. rewrite ParseArgs_S in H. backend_step.
  - intros g a g' H. rewrite ParseParenExpr_S in H. backend_step.
  - intros P LHS g a g' H. rewrite ParseBinOpRHS_S in H. backend_step.
Qed.

End ParserBackend.

Section DriverInvariant.
Import Parser Driver.

Lemma ParseExpression_backend n g a g' :
  ParseExpression n g = Done a g' → backend g' = backend g.
Proof. apply (parser_keeps_backend n). Qed.

Lemma ParsePrototype_args_backend n : ∀ ArgNames g a g',
  ParsePrototype_args n ArgNames g = Done a g' → backend g' = backend g.
Proof.
  induction n as [|n IH]; intros ArgNames g a g' H; [done|]. simpl in H.
  destruct (getNextToken g) as [t g1] eqn:E.
  apply getNextToken_backend in E.
  destruct (t =? tok_identifier); [apply IH in H|injection H as <- <-];
    congruence.
Qed.

Ltac backend_by lem :=
  repeat first
    [ discriminate
    | progress cbv zeta in *
    | match goal with
      | H : Res_bind ?r _ = Done _ _ |- _ =>
          let E := fresh "E" in
          destruct r eqn:E; [|discriminate H];
          cbn [Res_bind] in H; lem E
      | H : (let '(_, _) := ?p in _) = Done _ _ |- _ =>
          let E := fresh "E" in
          destruct p eqn:E; apply getNextToken_backend in E
      | H : (if ?c then _ else _) = Done _ _ |- _ => destruct c
      | H : match ?o with Some _ => _ | None => _ end = Done _ _ |- _ =>
          destruct o
      | H : ret _ = Done _ _ |- _ => unfold ret in H; simpl in H
      | H : Done _ _ = Done _ _ |- _ => injection H as <- <-
      end ];
  first [ congruence | rewrite backend_fprintf; congruence ].

Lemma ParsePrototype_backend n g a g' :
  ParsePrototype n g = Done a g' → backend g' = backend g.
Proof.
  unfold ParsePrototype. intros H.
  backend_by ltac:(fun E => apply ParsePrototype_args_backend in E).
Qed.

Lemma ParseDefinition_backend n g a g' :
  ParseDefinition n g = Done a g' → backend g' = backend g.
Proof.
  unfold ParseDefinition. intros H.
  backend_by ltac:(fun E =>
    first [ apply ParseExpression_backend in E
          | apply ParsePrototype_backend in E ]).
Qed.

Lemma ParseTopLevelExpr_backend n g a g' :
  ParseTopLevelExpr n g = Done a g' → backend g' = backend g.
Proof.
  unfold ParseTopLevelExpr. intros H.
  backend_by ltac:(fun E => apply ParseExpression_backend in E).
Qed.

Lemma ParseExtern_backend n g a g' :
  ParseExtern n g = Done a g' → backend g' = backend g.
Proof.
  unfold ParseExtern. intros H.
  destruct (getNextToken g) as [t g1] eqn:E.
  apply getNextToken_backend in E. apply ParsePrototype_backend in H.
  congruence.
Qed.

Lemma wf_startup input : wf (startup input).
Proof.
  unfold startup. destruct (getNextToken _) as [t g].
  split; constructor.
Qed.

Lemma wf_dump F o g : wf g → wf (dump F (fprintf_stderr o g)).
Proof. done. Qed.

Lemma MainLoop_S fuel g :
  MainLoop (S fuel) g =
  let g := fprintf_stderr (Text "pon> ") g in
  if CurTok g =? tok_eof then Done tt g
  else
    '(_, g) <-
      (if CurTok g =? chr ";" then
         let '(_, g) := getNextToken g in Done tt g
       else if CurTok g =? tok_def then HandleDefinition fuel g
       else if CurTok g =? tok_extern then HandleExtern fuel g
       else HandleTopLevelExpression fuel g) ;;
    MainLoop fuel g.
Proof. reflexivity. Qed.

Lemma MainLoop_wf n : ∀ g g',
  wf g → MainLoop n g = Done tt g' → wf g'.
Proof.
  induction n as [|n IH]; intros g g' Hwf H; [done|].
  rewrite MainLoop_S in H. cbv zeta in H.
  assert (wf (fprintf_stderr (Text "pon> ") g)) as Hwf0 by done.
  revert Hwf0 H. generalize (fprintf_stderr (Text "pon> ") g).
  clear Hwf g. intros g0 Hwf0 H.
  destruct (CurTok g0 =? tok_eof); [by injection H as <-|].
  match type of H with Res_bind ?r _ = _ =>
    destruct r as [[] g1|] eqn:E; [|done] end.
  cbn [Res_bind] in H. apply (IH g1); [|done].
  destruct (CurTok g0 =? chr ";").
  { destruct (getNextToken g0) as [t g2] eqn:E2.
    apply getNextToken_backend in E2. injection E as <-.
    by apply (wf_backend g0). }
  destruct (CurTok g0 =? tok_def).
  { unfold HandleDefinition in E.
    destruct (ParseDefinition n g0) as [[FA|] g2|] eqn:E2; [| |done];
      apply ParseDefinition_backend in E2; cbn [Res_bind] in E.
    - pose proof (wf_FunctionAST_Codegen FA g2 (wf_backend _ _ E2 Hwf0)) as Hc.
      destruct (Codegen.FunctionAST_Codegen FA g2) as [[LF|] g3];
        by injection E as <-.
    - destruct (getNextToken g2) as [t g3] eqn:E3.
      apply getNextToken_backend in E3. injection E as <-.
      apply (wf_backend g0); [congruence|done]. }
  destruct (CurTok g0 =? tok_extern).
  { unfold HandleExtern in E.
    destruct (ParseExtern n g0) as [[P|] g2|] eqn:E2; [| |done];
      apply ParseExtern_backend in E2; cbn [Res_bind] in E.
    - pose proof (wf_PrototypeAST_Codegen P g2 (wf_backend _ _ E2 Hwf0))
        as Hc.
      destruct (Codegen.PrototypeAST_Codegen P g2) as [[LF|] g3];
        by injection E as <-.
    - destruct (getNextToken g2) as [t g3] eqn:E3.
      apply getNextToken_backend in E3. injection E as <-.
      apply (wf_backend g0); [congruence|done]. }
  unfold HandleTopLevelExpression in E.
  destruct (ParseTopLevelExpr n g0) as [[FA|] g2|] eqn:E2; [| |done];
    apply ParseTopLevelExpr_backend in E2; cbn [Res_bind] in E.
  - pose proof (wf_FunctionAST_Codegen FA g2 (wf_backend _ _ E2 Hwf0)) as Hc.
    destruct (Codegen.FunctionAST_Codegen FA g2) as [[LF|] g3];
      by injection E as <-.
  - destruct (getNextToken g2) as [t g3] eqn:E3.
    apply getNextToken_backend in E3. injection E as <-.
    apply (wf_backend g0); [congruence|done].
Qed.

(** Every state [main] reaches after a statement satisfies the invariant
    the theorems on lowering assume. *)
Lemma run_wf fuel input g : run fuel input = Some g → wf g.
Proof.
  unfold run. destruct (MainLoop fuel (startup input)) as [[] g1|] eqn:E;
    [|done].
  intros [= <-]. eapply MainLoop_wf; [apply wf_startup|exact E].
Qed.

End DriverInvariant.

(** * Further properties of the tokenizer *)

Section LexerMore.
Import Lexer.

Lemma chr_range a : 0 ≤ chr a ≤ 255.
Proof.
  unfold chr. pose proof (N_ascii_bounded a). lia.
Qed.

Lemma chr_char_of_int c : 0 ≤ c ≤ 255 → chr (char_of_int c) = c.
Proof.
  intros Hc. unfold chr, char_of_int.
  rewrite Z.mod_small by lia.
  rewrite N_ascii_embedding by lia. lia.
Qed.

Lemma char_of_int_chr a : char_of_int (chr a) = a.
Proof.
  unfold chr, char_of_int. pose proof (N_ascii_bounded a).
  rewrite Z.mod_small by lia. rewrite N2Z.id. apply ascii_N_embedding.
Qed.

Lemma app_empty_r (s : string) : s +:+ EmptyString = s.
Proof.
  induction s as [|a s IH]; [done|].
  change (String a (s +:+ EmptyString) = String a s). by rewrite IH.
Qed.

Lemma app_snoc (s : string) a t :
  (s +:+ String a EmptyString) +:+ t = s +:+ String a t.
Proof.
  induction s as [|b s IH]; [done|].
  change (String b ((s +:+ String a EmptyString) +:+ t) =
          String b (s +:+ String a t)). by rewrite IH.
Qed.

Lemma skip_space_result i : ∀ c c' i',
  skip_space c i = (c', i') →
  isspace c' = false ∧ (c' = c ∨ c' = EOF ∨ ∃ a, c' = chr a).
Proof.
  induction i as [|a r IH]; intros c c' i' H; simpl in H.
  - destruct (isspace c) eqn:Hc; injection H as <- <-; auto.
  - destruct (isspace c) eqn:Hc.
    + apply IH in H as [? [->|[->|[b ->]]]]; eauto.
    + injection H as <- <-. auto.
Qed.

Lemma read_identifier_result i : ∀ id id' c' i',
  read_identifier id i = (id', c', i') →
  (c' = EOF ∨ ∃ a, c' = chr a) ∧
  ∃ more, id' = id +:+ more ∧ string_forall isalnum more = true.
Proof.
  induction i as [|a r IH]; intros id id' c' i' H; simpl in H.
  - injection H as <- <- <-. split; [auto|].
    exists EmptyString. by rewrite app_empty_r.
  - destruct (isalnum (chr a)) eqn:Ha.
    + apply IH in H as [Hc (more & -> & Hm)]. split; [done|].
      exists (String a more). rewrite char_of_int_chr, app_snoc. simpl.
      by rewrite Ha, Hm.
    + injection H as <- <- <-. split; [eauto|].
      exists EmptyString. by rewrite app_empty_r.
Qed.

Lemma read_number_result i : ∀ N c N' c' i',
  0 ≤ c ≤ 255 → (isdigit c || (c =? chr ".")) = true →
  read_number N c i = (N', c', i') →
  (c' = EOF ∨ ∃ a, c' = chr a) ∧
  ∃ more, N' = N +:+ more ∧ more ≠ EmptyString ∧
          string_forall (λ c, isdigit c || (c =? chr ".")) more = true.
Proof.
  induction i as [|a r IH]; intros N c N' c' i' Hr Hc H; simpl in H.
  - injection H as <- <- <-. split; [auto|].
    exists (String (char_of_int c) ""). simpl.
    rewrite chr_char_of_int, Hc by done. done.
  - destruct (isdigit (chr a) || (chr a =? chr ".")) eqn:Ha.
    + apply IH in H as [Hc' (more & -> & _ & Hm)];
        [|apply chr_range|done]. split; [done|].
      exists (String (char_of_int c) more). rewrite app_snoc. simpl.
      by rewrite chr_char_of_int, Hc, Hm by done.
    + injection H as <- <- <-. split; [eauto|].
      exists (String (char_of_int c) ""). simpl.
      rewrite chr_char_of_int, Hc by done. done.
Qed.

Lemma skip_comment_result i c i' :
  skip_comment i = (c, i') → c = EOF ∨ ∃ a, c = chr a.
Proof.
  revert c i'. induction i as [|a r IH]; intros c i' H; simpl in H.
  - injection H as <- <-. auto.
  - destruct ((chr a =? 10) || (chr a =? 13)); [|by eapply IH].
    injection H as <- <-. eauto.
Qed.

Lemma gettok_fuel_step n : ∀ g t g',
  gettok_fuel n g = Some (t, g') → gettok_step g t g'.
Proof.
  induction n as [|n IH]; intros g t g' H; [done|].
  rewrite gettok_fuel_S in H.
  destruct (skip_space (LastChar g) (stdin g)) as [c i] eqn:Hs.
  destruct (isalpha c) eqn:Hal.
  { destruct (read_identifier _ i) as [[id c'] i'] eqn:Hid. cbv zeta in H.
    pose proof (step_identifier g c i id c' i' Hs Hal Hid) as Hstep.
    by destruct (String.eqb id "def"), (String.eqb id "extern");
      injection H as <- <-. }
  destruct (isdigit c || (c =? chr ".")) eqn:Hd.
  { destruct (read_number _ c i) as [[N c'] i'] eqn:HN.
    injection H as <- <-. by eapply step_number. }
  destruct (c =? chr "#") eqn:Hh.
  { apply Z.eqb_eq in Hh. subst c.
    destruct (skip_comment i) as [c1 i1] eqn:Hc. cbv zeta in H.
    destruct (c1 =? EOF) eqn:He; simpl in H.
    - apply Z.eqb_eq in He. subst c1. injection H as <- <-.
      by eapply step_comment_eof.
    - apply Z.eqb_neq in He. eapply step_comment; eauto. }
  destruct (c =? EOF) eqn:He.
  { apply Z.eqb_eq in He. subst c. injection H as <- <-.
    by apply step_eof. }
  apply Z.eqb_neq in Hh, He.
  destruct (getchar i) as [c2 i2] eqn:Hg. injection H as <- <-.
  pose proof (step_char g c i Hs Hal Hd Hh He) as Hstep.
  by rewrite Hg in Hstep.
Qed.

Lemma gettok_step_gettok g : gettok_step g (gettok g).1 (gettok g).2.
Proof.
  apply (gettok_fuel_step (S (String.length (stdin g)))).
  rewrite gettok_unfold by lia. by destruct (gettok g).
Qed.

Lemma at_input_same g : LastChar g = EOF → at_input EOF (stdin g) g = g.
Proof. intros H. destruct g. simpl in *. by subst. Qed.

Lemma isalpha_range c : isalpha c = true → 65 ≤ c ≤ 122.
Proof. unfold isalpha. lia. Qed.

Lemma digit_dot_range c :
  (isdigit c || (c =? chr ".")) = true → 46 ≤ c ≤ 57.
Proof. unfold isdigit. change (chr ".") with 46. lia. Qed.

Lemma chr_not_EOF a : (chr a =? EOF) = false.
Proof. pose proof (chr_range a). unfold EOF. lia. Qed.

Ltac in_list := apply list_elem_of_In; simpl; tauto.
Ltac not_in_list H :=
  apply list_elem_of_In in H; simpl in H;
  unfold tok_eof, tok_def, tok_extern, tok_identifier, tok_number in *;
  intuition (try discriminate; try lia).

Lemma gettok_step_eof g t g' :
  gettok_step g t g' → t = tok_eof → LastChar g' = EOF.
Proof.
  induction 1; intros Ht; try done; auto.
  - by destruct (String.eqb id "def"), (String.eqb id "extern").
Qed.

Lemma gettok_step_range g t g' :
  gettok_step g t g' → -1 ≤ LastChar g ≤ 255 →
  -1 ≤ LastChar g' ≤ 255 ∧
  (t ∈ [tok_eof; tok_def; tok_extern; tok_identifier; tok_number] ∨
   (0 ≤ t ≤ 255 ∧ isspace t = false ∧ isalnum t = false ∧
    t ≠ chr "." ∧ t ≠ chr "#")).
Proof.
  assert (∀ c, c = EOF ∨ (∃ a, c = chr a) → -1 ≤ c ≤ 255) as Hr.
  { intros c [->|[a ->]]; [done|]. pose proof (chr_range a). lia. }
  induction 1; intros Hg.
  - apply read_identifier_result in H1 as [Hc _]. split; [by apply Hr|].
    left. destruct (String.eqb id "def"), (String.eqb id "extern");
      in_list.
  - split; [|left; in_list].
    pose proof (digit_dot_range _ H1) as Hc.
    apply read_number_result in H2 as [Hc' _]; [by apply Hr|lia|done].
  - apply IHgettok_step. apply skip_comment_result in H0. by apply Hr.
  - split; [done|left; in_list].
  - split; [done|left; in_list].
  - split.
    { destruct i; simpl; [done|]. pose proof (chr_range a). lia. }
    right. apply skip_space_result in H as [Hsp Hc].
    unfold isalnum. rewrite H0, Hsp. simpl.
    assert (isdigit c = false ∧ c ≠ chr ".") as [-> ?].
    { apply orb_false_iff in H1 as [? ?%Z.eqb_neq]. done. }
    split; [|done].
    destruct Hc as [->|[->|[a ->]]]; [unfold EOF in *; lia|done|
                                     apply chr_range].
Qed.

Ltac list_side :=
  try done;
  try (let Hin := fresh "Hin" in
       intros Hin;
       first [ by (exfalso; apply Hin; in_list) | by not_in_list Hin ]).

Lemma gettok_step_payload g t g' :
  gettok_step g t g' → -1 ≤ LastChar g ≤ 255 →
  (t = tok_def → IdentifierStr g' = "def") ∧
  (t = tok_extern → IdentifierStr g' = "extern") ∧
  (t = tok_identifier →
     identifier_shaped (IdentifierStr g') = true ∧
     IdentifierStr g' ≠ "def" ∧ IdentifierStr g' ≠ "extern") ∧
  (t ∈ [tok_def; tok_extern; tok_identifier] → NumVal g' = NumVal g) ∧
  (t = tok_number →
     IdentifierStr g' = IdentifierStr g ∧
     ∃ NumStr, NumVal g' = strtod NumStr ∧ NumStr ≠ EmptyString ∧
       string_forall (λ c, isdigit c || (c =? chr ".")) NumStr = true) ∧
  (t ∉ [tok_def; tok_extern; tok_identifier; tok_number] →
     IdentifierStr g' = IdentifierStr g ∧ NumVal g' = NumVal g).
Proof.
  induction 1; intros Hg.
  - apply read_identifier_result in H1 as [_ (more & -> & Hm)].
    assert (0 ≤ c ≤ 255) as Hc by (apply isalpha_range in H0; lia).
    cbn [IdentifierStr NumVal set_lexer].
    destruct (String.eqb _ "def") eqn:E1;
      [|destruct (String.eqb _ "extern") eqn:E2].
    + apply String.eqb_eq in E1. split_and!; list_side.
    + apply String.eqb_eq in E2. split_and!; list_side.
    + apply String.eqb_neq in E1, E2. split_and!; list_side.
      intros _. split; [|done].
      change (String (char_of_int c) "" +:+ more)
        with (String (char_of_int c) more). simpl.
      by rewrite chr_char_of_int, H0, Hm.
  - pose proof (digit_dot_range _ H1) as Hc.
    apply read_number_result in H2 as [_ (more & -> & Hne & Hm)];
      [|lia|done].
    cbn [IdentifierStr NumVal set_lexer].
    split_and!; list_side.
    intros _. split; [done|]. by exists more.
  - destruct IHgettok_step as (? & ? & ? & ? & ? & ?); [|split_and!; done].
    apply skip_comment_result in H0 as [->|[a ->]]; [done|].
    pose proof (chr_range a). simpl. lia.
  - split_and!; list_side.
  - split_and!; list_side.
  - assert (0 ≤ c ≤ 255) as Hc.
    { apply skip_space_result in H as [_ [->|[->|[a ->]]]];
        [unfold EOF in *; lia|done|apply chr_range]. }
    unfold tok_def, tok_extern, tok_identifier, tok_number.
    split_and!; try done; try (intros ->; lia).
Qed.

Lemma gettok_step_measure g t g' :
  gettok_step g t g' →
  (lexer_measure g' ≤ lexer_measure g)%nat ∧
  (t ≠ tok_eof → (lexer_measure g' < lexer_measure g)%nat).
Proof.
  assert (∀ c i c' i', skip_space c i = (c', i') →
            (String.length i' + (if (c' =? EOF)%Z then 0 else 1) ≤
             String.length i + (if (c =? EOF)%Z then 0 else 1))%nat) as Hskip.
  { intros c i. revert c. induction i as [|a r IH]; intros c c' i' H;
      simpl in H.
    - destruct (isspace c) eqn:Hc; injection H as <- <-; [simpl; lia|done].
    - destruct (isspace c) eqn:Hc; [|by injection H as <- <-].
      apply IH in H. simpl.
      pose proof (chr_not_EOF a) as Ha.
      rewrite Ha in H. destruct (c =? EOF) eqn:He; [|lia].
      apply Z.eqb_eq in He. by subst c. }
  assert (∀ i id id' c' i', read_identifier id i = (id', c', i') →
            (String.length i' + (if (c' =? EOF)%Z then 0 else 1) ≤
             String.length i)%nat) as Hid.
  { induction i as [|a r IH]; intros id id' c' i' H; simpl in H.
    - by injection H as <- <- <-.
    - pose proof (chr_not_EOF a) as Ha.
      destruct (isalnum (chr a)).
      + apply IH in H. simpl. lia.
      + injection H as <- <- <-. rewrite Ha. simpl. lia. }
  assert (∀ i N c N' c' i', read_number N c i = (N', c', i') →
            (String.length i' + (if (c' =? EOF)%Z then 0 else 1) ≤
             String.length i)%nat) as Hnum.
  { induction i as [|a r IH]; intros N c N' c' i' H; simpl in H.
    - by injection H as <- <- <-.
    - pose proof (chr_not_EOF a) as Ha.
      destruct (isdigit (chr a) || (chr a =? chr ".")).
      + apply IH in H. simpl. lia.
      + injection H as <- <- <-. rewrite Ha. simpl. lia. }
  unfold lexer_measure.
  induction 1; cbn [LastChar stdin set_lexer at_input] in *.
  - apply Hskip in H. apply Hid in H1.
    apply isalpha_range in H0.
    assert ((c =? EOF) = false) as Hc by (unfold EOF; lia).
    rewrite Hc in H. lia.
  - apply Hskip in H. apply Hnum in H2.
    apply digit_dot_range in H1.
    assert ((c =? EOF) = false) as Hc by (unfold EOF; lia).
    rewrite Hc in H. lia.
  - apply Hskip in H. change (chr "#" =? EOF) with false in H.
    cbv iota in H.
    apply skip_comment_length in H0; [|done].
    apply Z.eqb_neq in H1. rewrite H1 in IHgettok_step.
    destruct IHgettok_step as [IH1 IH2].
    split; [lia|]. intros Ht. specialize (IH2 Ht). lia.
  - apply Hskip in H. change (chr "#" =? EOF) with false in H.
    change (EOF =? EOF) with true. cbv iota in *.
    assert (String.length i1 ≤ String.length i)%nat; [|lia].
    clear -H0. revert i1 H0. induction i as [|a r IH]; intros i1 H;
      simpl in H; [by injection H as <-|].
    destruct ((chr a =? 10) || (chr a =? 13)).
    + injection H as Ha _. pose proof (chr_range a). unfold EOF in *. lia.
    + apply IH in H. simpl. lia.
  - apply Hskip in H. change (EOF =? EOF) with true in *. cbv iota in *.
    lia.
  - apply Hskip in H. apply Z.eqb_neq in H3. rewrite H3 in H.
    destruct i as [|a r]; simpl in *; [lia|].
    rewrite chr_not_EOF. lia.
Qed.

End LexerMore.

Section LexerCalls.
Import Lexer.

Lemma gettok_at_EOF g : LastChar g = EOF → gettok g = (tok_eof, g).
Proof.
  intros H. rewrite gettok_eq, H, skip_space_stop by done.
  change ((tok_eof, at_input EOF (stdin g) g) = (tok_eof, g)).
  by rewrite at_input_same.
Qed.

Lemma skip_space_leading ws : ∀ c a r,
  isspace c = true → string_forall isspace ws = true →
  skip_space c (ws +:+ String a r) = skip_space (chr a) r.
Proof.
  induction ws as [|b ws IH]; intros c a r Hc Hws.
  - by apply skip_space_cons.
  - simpl in Hws. apply andb_true_iff in Hws as [Hb Hws].
    change (String b ws +:+ String a r) with (String b (ws +:+ String a r)).
    rewrite skip_space_cons by done. by apply IH.
Qed.

Lemma tokens_total m : ∀ g,
  lexer_measure g = m →
  ∃ l last,
    last.1.1 = tok_eof ∧ Forall (λ x, x.1.1 ≠ tok_eof) l ∧
    (length l ≤ m)%nat ∧
    ∀ n, (m < n)%nat → tokens n g = Some (l ++ [last]).
Proof.
  induction m as [m IH] using lt_wf_ind. intros g Hm.
  pose proof (gettok_step_measure _ _ _ (gettok_step_gettok g)) as [Hle Hlt].
  destruct (gettok g) as [t g1] eqn:Hg. cbn [fst snd] in *.
  destruct (t =? tok_eof) eqn:Ht.
  - exists [], (t, IdentifierStr g1, NumVal g1).
    split; [simpl; lia|]. split; [done|]. split; [simpl; lia|].
    intros [|n] Hn; [lia|]. by rewrite tokens_S, Hg, Ht.
  - apply Z.eqb_neq in Ht. specialize (Hlt Ht).
    destruct (IH (lexer_measure g1)) with (g := g1)
      as (l & last & Hlast & Hl & Hlen & Htok); [lia|done|].
    exists ((t, IdentifierStr g1, NumVal g1) :: l), last.
    split; [done|]. split; [by constructor|]. split; [simpl; lia|].
    intros [|n] Hn; [lia|]. rewrite tokens_S, Hg.
    apply Z.eqb_neq in Ht. rewrite Ht, Htok by lia. done.
Qed.

End LexerCalls.

(** ** What [gettok] returns *)

(** X1.  [gettok] returns on every input.  The only call of [gettok] by
    itself, after a comment that ends in a line end, is on an input that is
    at least one character shorter; so with any bound on the depth of these
    calls above the number of characters left, the body returns, and the
    result does not depend on the bound. *)
Theorem gettok_returns g n :
  (String.length (stdin g) < n)%nat →
  Lexer.gettok_fuel n g = Some (Lexer.gettok g)
  ∧ Lexer.gettok_fuel n g = Lexer.gettok_fuel (S (String.length (stdin g))) g.
Proof.
  intros Hn. split; [by apply gettok_unfold|].
  by rewrite !gettok_unfold by lia.
Qed.

Lemma gettok_returns_witness :
  Lexer.gettok_fuel 40 (initial ("# one" +:+ newline +:+ "# two" +:+ newline
                                  +:+ "x")) =
  Some (Lexer.gettok (initial ("# one" +:+ newline +:+ "# two" +:+ newline
                                +:+ "x"))).
Proof.
  apply (gettok_returns (initial ("# one" +:+ newline +:+ "# two" +:+ newline
                                   +:+ "x")) 40).
  vm_compute. lia.
Defined.

(** X2.  The end of the input is absorbing.  Once [gettok] has returned
    [tok_eof], [LastChar] is [EOF], and every further call returns [tok_eof]
    again without reading or assigning anything. *)
Theorem end_of_input_is_absorbing g :
  (Lexer.gettok g).1 = tok_eof →
  LastChar (Lexer.gettok g).2 = EOF ∧
  Lexer.gettok (Lexer.gettok g).2 = (tok_eof, (Lexer.gettok g).2).
Proof.
  intros Ht.
  pose proof (gettok_step_eof _ _ _ (gettok_step_gettok g) Ht) as He.
  split; [done|]. by apply gettok_at_EOF.
Qed.

Lemma end_of_input_is_absorbing_witness :
  let g := initial ("x # the rest is a comment") in
  let g1 := (Lexer.gettok g).2 in
  LastChar (Lexer.gettok g1).2 = EOF ∧
  Lexer.gettok (Lexer.gettok g1).2 = (tok_eof, (Lexer.gettok g1).2).
Proof.
  intros g g1. apply (end_of_input_is_absorbing g1). by vm_compute.
Defined.

(** X3.  The classes of tokens.  When [LastChar] holds what [getchar] can
    return (a character code from 0 to 255, or [EOF]), it still does after
    the call, and the token is either one of the five values of [enum Token]
    or the code of a character that is not white space, not a letter, not a
    digit, not [.] and not [#].  Such a code is never negative, so it is
    none of the five values. *)
Theorem gettok_token_classes g :
  -1 ≤ LastChar g ≤ 255 →
  let t := (Lexer.gettok g).1 in
  -1 ≤ LastChar (Lexer.gettok g).2 ≤ 255 ∧
  (t ∈ [tok_eof; tok_def; tok_extern; tok_identifier; tok_number] ∨
   (0 ≤ t ≤ 255 ∧ isspace t = false ∧ isalnum t = false ∧
    t ≠ chr "." ∧ t ≠ chr "#" ∧
    t ∉ [tok_eof; tok_def; tok_extern; tok_identifier; tok_number])).
Proof.
  intros Hg t.
  destruct (gettok_step_range _ _ _ (gettok_step_gettok g) Hg)
    as [Hc [Ht|(Hr & Hsp & Hal & Hdot & Hhash)]]; split; auto.
  right. repeat (split; [assumption|]). intros Hin.
  apply list_elem_of_In in Hin. simpl in Hin.
  unfold tok_eof, tok_def, tok_extern, tok_identifier, tok_number in Hin.
  fold t in Hr. lia.
Qed.

Lemma gettok_token_classes_witness :
  let g := initial "  ; rest" in
  let t := (Lexer.gettok g).1 in
  t = chr ";" ∧
  -1 ≤ LastChar (Lexer.gettok g).2 ≤ 255 ∧
  (t ∈ [tok_eof; tok_def; tok_extern; tok_identifier; tok_number] ∨
   (0 ≤ t ≤ 255 ∧ isspace t = false ∧ isalnum t = false ∧
    t ≠ chr "." ∧ t ≠ chr "#" ∧
    t ∉ [tok_eof; tok_def; tok_extern; tok_identifier; tok_number])).
Proof.
  intros g t. split; [by vm_compute|].
  apply (gettok_token_classes g). by vm_compute.
Defined.

(** X4.  Identifiers and keywords.  When [gettok] returns [tok_def] the
    text in [IdentifierStr] is [def], when it returns [tok_extern] it is
    [extern], and when it returns [tok_identifier] it is a letter followed
    by letters and digits and is neither of the two keywords.  In all three
    cases [NumVal] keeps the value of the last number read. *)
Theorem gettok_identifier_payload g :
  -1 ≤ LastChar g ≤ 255 →
  let t := (Lexer.gettok g).1 in
  let g' := (Lexer.gettok g).2 in
  (t = tok_def → IdentifierStr g' = "def") ∧
  (t = tok_extern → IdentifierStr g' = "extern") ∧
  (t = tok_identifier →
     identifier_shaped (IdentifierStr g') = true ∧
     IdentifierStr g' ≠ "def" ∧ IdentifierStr g' ≠ "extern") ∧
  (t ∈ [tok_def; tok_extern; tok_identifier] → NumVal g' = NumVal g).
Proof.
  intros Hg t g'.
  destruct (gettok_step_payload _ _ _ (gettok_step_gettok g) Hg)
    as (? & ? & ? & ? & _). done.
Qed.

Lemma gettok_identifier_payload_witness :
  let g := initial " extern1 x" in
  let t := (Lexer.gettok g).1 in
  let g' := (Lexer.gettok g).2 in
  t = tok_identifier ∧ IdentifierStr g' = "extern1" ∧
  (t = tok_def → IdentifierStr g' = "def") ∧
  (t = tok_extern → IdentifierStr g' = "extern") ∧
  (t = tok_identifier →
     identifier_shaped (IdentifierStr g') = true ∧
     IdentifierStr g' ≠ "def" ∧ IdentifierStr g' ≠ "extern") ∧
  (t ∈ [tok_def; tok_extern; tok_identifier] → NumVal g' = NumVal g).
Proof.
  intros g t g'. split; [by vm_compute|]. split; [by vm_compute|].
  apply (gettok_identifier_payload g). by vm_compute.
Defined.

(** X5.  Numbers.  When [gettok] returns [tok_number], [NumVal] is the
    result of [strtod] on a text that is not empty and holds digits and
    dots only, in any number and order (so [1.2.3] and [.] are number
    tokens), and [IdentifierStr] keeps the last identifier read.  A token
    that is neither a number nor an identifier or keyword leaves both
    [IdentifierStr] and [NumVal] as they were. *)
Theorem gettok_number_payload g :
  -1 ≤ LastChar g ≤ 255 →
  let t := (Lexer.gettok g).1 in
  let g' := (Lexer.gettok g).2 in
  (t = tok_number →
     IdentifierStr g' = IdentifierStr g ∧
     ∃ NumStr, NumVal g' = strtod NumStr ∧ NumStr ≠ EmptyString ∧
       string_forall (λ c, isdigit c || (c =? chr ".")) NumStr = true) ∧
  (t ∉ [tok_def; tok_extern; tok_identifier; tok_number] →
     IdentifierStr g' = IdentifierStr g ∧ NumVal g' = NumVal g).
Proof.
  intros Hg t g'.
  destruct (gettok_step_payload _ _ _ (gettok_step_gettok g) Hg)
    as (_ & _ & _ & _ & ? & ?). done.
Qed.

Lemma gettok_number_payload_witness :
  let g := initial "1.2.3+" in
  let t := (Lexer.gettok g).1 in
  let g' := (Lexer.gettok g).2 in
  t = tok_number ∧ NumVal g' = strtod "1.2.3" ∧
  (t = tok_number →
     IdentifierStr g' = IdentifierStr g ∧
     ∃ NumStr, NumVal g' = strtod NumStr ∧ NumStr ≠ EmptyString ∧
       string_forall (λ c, isdigit c || (c =? chr ".")) NumStr = true) ∧
  (t ∉ [tok_def; tok_extern; tok_identifier; tok_number] →
     IdentifierStr g' = IdentifierStr g ∧ NumVal g' = NumVal g).
Proof.
  intros g t g'. split; [by vm_compute|]. split; [by vm_compute|].
  apply (gettok_number_payload g). by vm_compute.
Defined.

(** X6.  Every token costs input.  Count what the tokenizer has before it
    as the characters not yet read plus one for [LastChar] unless that is
    [EOF].  No call of [gettok] increases the count, and a call that returns
    anything but [tok_eof] decreases it.  Hence the tokens of an input end:
    some list of tokens other than [tok_eof], no longer than the count,
    followed by [tok_eof], is what the calls return. *)
Theorem every_token_costs_input g :
  let t := (Lexer.gettok g).1 in
  let g' := (Lexer.gettok g).2 in
  (lexer_measure g' ≤ lexer_measure g)%nat ∧
  (t ≠ tok_eof → (lexer_measure g' < lexer_measure g)%nat) ∧
  ∃ l last,
    last.1.1 = tok_eof ∧ Forall (λ x, x.1.1 ≠ tok_eof) l ∧
    (length l ≤ lexer_measure g)%nat ∧
    ∀ n, (lexer_measure g < n)%nat → tokens n g = Some (l ++ [last]).
Proof.
  intros t g'.
  destruct (gettok_step_measure _ _ _ (gettok_step_gettok g)) as [H1 H2].
  split; [done|]. split; [done|]. by apply (tokens_total (lexer_measure g)).
Qed.

(** X7.  White space before a token is invisible.  With a white-space
    character in [LastChar] and an input that begins with any number of
    white-space characters, [gettok] does what it does with the character
    after them in [LastChar] and the input after that character left. *)
Theorem leading_whitespace_is_skipped g c ws a r :
  isspace c = true → string_forall isspace ws = true →
  Lexer.gettok (at_input c (ws +:+ String a r) g) =
  Lexer.gettok (at_input (chr a) r g).
Proof.
  intros Hc Hws. rewrite !gettok_at.
  by rewrite (skip_space_leading ws c a r Hc Hws).
Qed.

Lemma leading_whitespace_is_skipped_witness :
  Lexer.gettok (at_input (chr " ") ("  " +:+ newline +:+ " def f")
                  (initial EmptyString)) =
  Lexer.gettok (at_input (chr "d") "ef f" (initial EmptyString)).
Proof.
  pose proof (leading_whitespace_is_skipped (initial EmptyString) (chr " ")
                ("  " +:+ newline +:+ " ") "d" "ef f" eq_refl eq_refl) as H.
  exact H.
Defined.

(** * Further properties of the parser *)

Ltac list_elem := apply list_elem_of_In; simpl; tauto.

Section ParserSteps.
Import Parser.

Lemma gettok_step_lexer g t g' :
  gettok_step g t g' → ∃ i c id v, g' = set_lexer i c id v g.
Proof.
  induction 1; try (by repeat eexists).
  destruct IHgettok_step as (i' & c' & id & v & ->). by repeat eexists.
Qed.

Lemma getNextToken_lexer g t g' :
  getNextToken g = (t, g') →
  t = (Lexer.gettok g).1 ∧ g' = set_CurTok t (Lexer.gettok g).2 ∧
  ∃ i c id v, (Lexer.gettok g).2 = set_lexer i c id v g.
Proof.
  unfold getNextToken. pose proof (gettok_step_gettok g) as Hs.
  destruct (Lexer.gettok g) as [t0 g0]. intros [= <- <-].
  split; [done|]. split; [done|]. by eapply gettok_step_lexer.
Qed.

Lemma getNextToken_spec g t g' :
  getNextToken g = (t, g') →
  CurTok g' = t ∧ BinopPrecedence g' = BinopPrecedence g ∧
  stderr g' = stderr g ∧
  (eof_seen g →
   eof_seen g' ∧ (parser_measure g' ≤ parser_measure g)%nat ∧
   (CurTok g ≠ tok_eof → (parser_measure g' < parser_measure g)%nat)).
Proof.
  intros (Ht & -> & (i & c & id & v & Hg))%getNextToken_lexer.
  rewrite Hg. split; [done|]. split; [done|]. split; [done|].
  rewrite <- Hg. clear Hg. intros Hseen.
  pose proof (gettok_step_gettok g) as Hs. rewrite <- Ht in Hs.
  pose proof (gettok_step_eof _ _ _ Hs) as He.
  pose proof (gettok_step_measure _ _ _ Hs) as [Hle Hlt].
  split; [exact He|].
  unfold parser_measure.
  change (lexer_measure (set_CurTok t (Lexer.gettok g).2))
    with (lexer_measure (Lexer.gettok g).2).
  change (CurTok (set_CurTok t (Lexer.gettok g).2)) with t.
  destruct (CurTok g =? tok_eof) eqn:Hc.
  - apply Z.eqb_eq in Hc. specialize (Hseen Hc).
    rewrite (gettok_at_EOF g Hseen) in Ht. simpl in Ht. subst t.
    change (tok_eof =? tok_eof) with true. split; [lia|done].
  - destruct (t =? tok_eof) eqn:Ht'; [lia|].
    apply Z.eqb_neq in Ht'. specialize (Hlt Ht'). lia.
Qed.

Lemma precedence_of_insert_zero g c :
  BinopPrecedence g !! c = None →
  ∀ c', default 0 (<[c := 0]> (BinopPrecedence g) !! c') = precedence_of g c'.
Proof.
  intros Hc c'. unfold precedence_of.
  destruct (decide (c = c')) as [<-|Hne].
  - by rewrite lookup_insert_eq, Hc.
  - by rewrite lookup_insert_ne.
Qed.

Lemma GetTokPrecedence_spec g p g' :
  GetTokPrecedence g = (p, g') →
  only_table_differs g g' ∧
  (∀ c, precedence_of g' c = precedence_of g c) ∧
  (p = -1 ∨ 0 < p) ∧
  (0 < p → isascii (CurTok g) = true ∧
           precedence_of g (char_of_int (CurTok g)) = p) ∧
  (p = -1 → isascii (CurTok g) = false ∨
            precedence_of g (char_of_int (CurTok g)) ≤ 0) ∧
  GetTokPrecedence g' = (p, g').
Proof.
  unfold GetTokPrecedence, BinopPrecedence_index, only_table_differs.
  destruct (isascii (CurTok g)) eqn:Ha; simpl.
  - destruct (BinopPrecedence g !! char_of_int (CurTok g)) as [q|] eqn:E.
    + assert (precedence_of g (char_of_int (CurTok g)) = q) as Hq
        by (unfold precedence_of; by rewrite E).
      destruct (q <=? 0) eqn:Hle; intros [= <- <-];
        rewrite Ha, E, Hle; simpl.
      * split; [by destruct g|]. split; [done|]. split; [by left|].
        split; [lia|]. split; [|done]. intros _. right. lia.
      * split; [by destruct g|]. split; [done|]. split; [right; lia|].
        split; [done|]. split; [lia|done].
    + intros [= <- <-]. simpl. rewrite Ha, lookup_insert_eq. simpl.
      split; [by destruct g|].
      split; [intros c; by apply precedence_of_insert_zero|].
      split; [by left|]. split; [lia|]. split; [|done].
      intros _. right. unfold precedence_of. by rewrite E.
  - intros [= <- <-]. rewrite Ha. simpl.
    split; [by destruct g|]. split; [done|]. split; [by left|].
    split; [lia|]. split; [by left|done].
Qed.

End ParserSteps.

(** X8.  [GetTokPrecedence] returns -1 or a positive number: the entry of
    the current token in the precedence table when the token is an ASCII
    character whose entry is positive, and -1 otherwise.  The entry that
    [operator[]] inserts for a token that had none is the only thing the
    call changes, it changes the precedence of no character, and a second
    call returns the same number and changes nothing. *)
Theorem GetTokPrecedence_result g :
  let p := (Parser.GetTokPrecedence g).1 in
  let g' := (Parser.GetTokPrecedence g).2 in
  (if isascii (CurTok g) && (0 <? precedence_of g (char_of_int (CurTok g)))
   then p = precedence_of g (char_of_int (CurTok g)) else p = -1) ∧
  only_table_differs g g' ∧
  (∀ c, precedence_of g' c = precedence_of g c) ∧
  Parser.GetTokPrecedence g' = (p, g').
Proof.
  intros p g'.
  destruct (GetTokPrecedence_spec g p g') as (Hd & Hp & Hr & Hpos & Hneg & Hi).
  { unfold p, g'. by destruct (Parser.GetTokPrecedence g). }
  split; [|done].
  destruct (isascii (CurTok g)) eqn:Ha; simpl.
  - destruct (0 <? precedence_of g (char_of_int (CurTok g))) eqn:Hq.
    + destruct Hr as [Hr|Hr]; [|by destruct (Hpos Hr)].
      destruct (Hneg Hr); [done|lia].
    + destruct Hr as [Hr|Hr]; [done|]. destruct (Hpos Hr). lia.
  - destruct Hr as [Hr|Hr]; [done|]. by destruct (Hpos Hr).
Qed.

(** ** Every return of the expression parser is by one of its paths *)

Section ParserPaths.
Import Parser.

Ltac path_walk :=
  repeat first
    [ discriminate
    | progress cbv zeta in *
    | match goal with
      | H : Res_bind ?r _ = Done _ _ |- _ =>
          lazymatch r with
          | (if negb ?c then _ else _) =>
              let C := fresh "C" in destruct c eqn:C; cbn [negb] in H
          | (if ?c then _ else _) =>
              let C := fresh "C" in destruct c eqn:C
          | Done _ _ => cbn [Res_bind] in H
          | _ =>
              let E := fresh "E" in
              destruct r as [[?|] ?|] eqn:E; [| |discriminate H];
              cbn [Res_bind] in H;
              match goal with IH : _ |- _ => apply IH in E end
          end
      | H : (let '(_, _) := ?p in _) = Done _ _ |- _ =>
          let E := fresh "E" in destruct p eqn:E
      | H : (if negb ?c then _ else _) = Done _ _ |- _ =>
          let C := fresh "C" in destruct c eqn:C; cbn [negb] in H
      | H : (if ?c then _ else _) = Done _ _ |- _ =>
          let C := fresh "C" in destruct c eqn:C
      | H : ret _ = Done _ _ |- _ =>
          unfold ret, Error, ParseNumberExpr in H; cbn [fst snd] in H
      | H : Done (let '(_, _) := ?p in _).1 _ = Done _ _ |- _ =>
          let E := fresh "E" in destruct p eqn:E; cbn [fst snd] in H
      | H : Done _ _ = Done _ _ |- _ => injection H as <- <-
      | H : (_ =? _) = true |- _ => apply Z.eqb_eq in H
      | H : (_ =? _) = false |- _ => apply Z.eqb_neq in H
      | H : (_ <? _) = true |- _ => apply Z.ltb_lt in H
      | H : (_ <? _) = false |- _ => apply Z.ltb_ge in H
      end ].

Ltac path_rule := econstructor; first [eassumption | lia].

Lemma parser_paths n :
  (∀ g a g', ParseExpression n g = Done a g' → ParseExpression_path g a g') ∧
  (∀ g a g', ParsePrimary n g = Done a g' → ParsePrimary_path g a g') ∧
  (∀ g a g', ParseIdentifierExpr n g = Done a g' →
             ParseIdentifierExpr_path g a g') ∧
  (∀ Args g a g', ParseArgs n Args g = Done a g' →
                  ParseArgs_path Args g a g') ∧
  (∀ g a g', ParseParenExpr n g = Done a g' → ParseParenExpr_path g a g') ∧
  (∀ P LHS g a g', ParseBinOpRHS n P LHS g = Done a g' →
                   ParseBinOpRHS_path P LHS g a g').
Proof.
  induction n as [|n (IH1 & IH2 & IH3 & IH4 & IH5 & IH6)].
  { repeat split; intros; discriminate. }
  repeat split.
  - intros g a g' H. rewrite ParseExpression_S in H. path_walk.
    + apply IH6 in H. path_rule.
    + path_rule.
  - intros g a g' H. rewrite ParsePrimary_S in H. path_walk.
    + apply IH3 in H. path_rule.
    + path_rule.
    + apply IH5 in H. path_rule.
    + path_rule.
  - intros g a g' H. rewrite ParseIdentifierExpr_S in H. path_walk; path_rule.
  - intros Args g a g' H. rewrite ParseArgs_S in H. path_walk.
    all: try (apply IH4 in H); path_rule.
  - intros g a g' H. rewrite ParseParenExpr_S in H. path_walk; path_rule.
  - intros P LHS g a g' H. rewrite ParseBinOpRHS_S in H. path_walk.
    all: try (apply IH6 in H); path_rule.
Qed.

Lemma ParseExpression_paths n g a g' :
  ParseExpression n g = Done a g' → ParseExpression_path g a g'.
Proof. apply (parser_paths n). Qed.

End ParserPaths.

(** ** What the expression parser reports and what it leaves alone *)

Section ParserReports.
Import Parser.

Lemma getNextToken_stderr g t g' :
  getNextToken g = (t, g') → stderr g' = stderr g.
Proof. by intros (_ & _ & ? & _)%getNextToken_spec. Qed.

Lemma GetTokPrecedence_stderr g p g' :
  GetTokPrecedence g = (p, g') → stderr g' = stderr g.
Proof. intros (-> & _)%GetTokPrecedence_spec. done. Qed.

Lemma reports_error {A} s g0 g :
  s ∈ parser_errors → stderr g = stderr g0 →
  reports (A:=A) g0 None (fprintf_stderr (ErrorLine s) g).
Proof. intros Hs Hg. exists s. split; [done|]. simpl. by rewrite Hg. Qed.

Lemma reports_before {A} g g1 (a : option A) g2 :
  stderr g1 = stderr g → reports g1 a g2 → reports g a g2.
Proof. unfold reports. intros ->. done. Qed.

Lemma reports_after {A B} g (a : option A) (b : option B) g1 g2 :
  reports g a g1 → stderr g2 = stderr g1 →
  (is_Some a ↔ is_Some b) → reports g b g2.
Proof.
  unfold reports. intros H -> Hab.
  destruct a, b; try done.
  - destruct Hab as [Hab _]. by destruct Hab.
  - destruct Hab as [_ Hab]. by destruct Hab.
Qed.

Ltac to_stderr :=
  repeat match goal with
  | H : getNextToken _ = _ |- _ => apply getNextToken_stderr in H
  | H : GetTokPrecedence _ = _ |- _ => apply GetTokPrecedence_stderr in H
  | H : reports _ (Some _) _ |- _ => unfold reports in H
  end.

Ltac reports_done :=
  to_stderr;
  first
    [ apply reports_error; [apply list_elem_of_In; simpl; tauto|congruence]
    | (unfold reports; congruence)
    | match goal with
      | H : reports ?g1 ?r ?g2 |- reports _ ?r ?g2 =>
          apply (reports_before _ g1); [congruence|exact H]
      end
    | match goal with
      | H : reports ?g1 None ?g2 |- reports _ None ?g3 =>
          apply (reports_before _ g1); [congruence|];
          apply (reports_after _ (@None ExprAST) _ g2);
            [exact H|congruence|done]
      end ].

Lemma parser_path_reports :
  (∀ g a g', ParseExpression_path g a g' → reports g a g') ∧
  (∀ g a g', ParsePrimary_path g a g' → reports g a g') ∧
  (∀ g a g', ParseIdentifierExpr_path g a g' → reports g a g') ∧
  (∀ Args g a g', ParseArgs_path Args g a g' → reports g a g') ∧
  (∀ g a g', ParseParenExpr_path g a g' → reports g a g') ∧
  (∀ P LHS g a g', ParseBinOpRHS_path P LHS g a g' → reports g a g').
Proof.
  apply parser_path_ind; intros; reports_done.
Qed.

End ParserReports.

Section ParserTable.
Import Parser.

Lemma same_precedences_refl g : same_precedences g g.
Proof. by intros c. Qed.

Lemma same_precedences_trans g1 g2 g3 :
  same_precedences g1 g2 → same_precedences g2 g3 → same_precedences g1 g3.
Proof. intros H1 H2 c. by rewrite H2, H1. Qed.

Lemma getNextToken_table g t g' :
  getNextToken g = (t, g') → same_precedences g g'.
Proof.
  intros (_ & H & _)%getNextToken_spec c. unfold precedence_of. by rewrite H.
Qed.

Lemma GetTokPrecedence_table g p g' :
  GetTokPrecedence g = (p, g') → same_precedences g g'.
Proof. by intros (_ & H & _)%GetTokPrecedence_spec. Qed.

Lemma fprintf_table o g : same_precedences g (fprintf_stderr o g).
Proof. by intros c. Qed.

Ltac table_done :=
  repeat match goal with
  | H : getNextToken _ = _ |- _ => apply getNextToken_table in H
  | H : GetTokPrecedence _ = _ |- _ => apply GetTokPrecedence_table in H
  end;
  let c := fresh "c" in
  intros c;
  repeat match goal with
  | H : same_precedences _ _ |- _ => specialize (H c)
  end;
  unfold precedence_of in *; simpl; congruence.

Lemma parser_path_table :
  (∀ g a g', ParseExpression_path g a g' → same_precedences g g') ∧
  (∀ g a g', ParsePrimary_path g a g' → same_precedences g g') ∧
  (∀ g a g', ParseIdentifierExpr_path g a g' → same_precedences g g') ∧
  (∀ Args g a g', ParseArgs_path Args g a g' → same_precedences g g') ∧
  (∀ g a g', ParseParenExpr_path g a g' → same_precedences g g') ∧
  (∀ P LHS g a g', ParseBinOpRHS_path P LHS g a g' → same_precedences g g').
Proof.
  apply parser_path_ind; intros; table_done.
Qed.

(** After an expression, the current token is not an operator. *)
Lemma parser_path_maximal :
  (∀ g a g', ParseExpression_path g a g' →
     is_Some a → GetTokPrecedence g' = (-1, g')) ∧
  (∀ g (a : option ExprAST) g', ParsePrimary_path g a g' → True) ∧
  (∀ g (a : option ExprAST) g', ParseIdentifierExpr_path g a g' → True) ∧
  (∀ Args g (a : option (list ExprAST)) g',
     ParseArgs_path Args g a g' → True) ∧
  (∀ g (a : option ExprAST) g', ParseParenExpr_path g a g' → True) ∧
  (∀ P LHS g a g', ParseBinOpRHS_path P LHS g a g' →
     is_Some a → ∃ p, p < P ∧ GetTokPrecedence g' = (p, g')).
Proof.
  apply parser_path_ind; intros; try done.
  - destruct H2 as (p & Hp & Hg); [done|].
    destruct (GetTokPrecedence_spec _ _ _ Hg) as (_ & _ & [->|?] & _);
      [done|lia].
  - apply GetTokPrecedence_spec in H as (_ & _ & _ & _ & _ & H). eauto.
  - auto.
  - auto.
Qed.

Lemma operators_of_table_same g g' e :
  same_precedences g g' → operators_of_table g e → operators_of_table g' e.
Proof.
  unfold operators_of_table. intros H He.
  eapply Forall_impl; [exact He|]. intros c. simpl. by rewrite H.
Qed.

(** The operators of a parsed expression are operators of the table. *)
Lemma parser_path_operators :
  (∀ g a g', ParseExpression_path g a g' →
     ∀ e, a = Some e → operators_of_table g e) ∧
  (∀ g a g', ParsePrimary_path g a g' →
     ∀ e, a = Some e → operators_of_table g e) ∧
  (∀ g a g', ParseIdentifierExpr_path g a g' →
     ∀ e, a = Some e → operators_of_table g e) ∧
  (∀ Args g a g', ParseArgs_path Args g a g' →
     Forall (operators_of_table g) Args →
     ∀ Args', a = Some Args' → Forall (operators_of_table g) Args') ∧
  (∀ g a g', ParseParenExpr_path g a g' →
     ∀ e, a = Some e → operators_of_table g e) ∧
  (∀ P LHS g a g', ParseBinOpRHS_path P LHS g a g' →
     0 ≤ P → operators_of_table g LHS →
     ∀ e, a = Some e → operators_of_table g e).
Proof.
  destruct parser_path_table as (T1 & T2 & T3 & T4 & T5 & T6).
  assert (∀ g g' e, same_precedences g g' → operators_of_table g' e →
                    operators_of_table g e) as Hback.
  { intros g g' e H. apply operators_of_table_same. intros c. by rewrite H. }
  apply parser_path_ind; intros; simplify_eq; try done.
  - (* ParseExpression *)
    apply T2 in H. apply (Hback _ _ _ H). apply H2; [lia| |done].
    apply (operators_of_table_same g); auto.
  - auto.
  - constructor.
  - auto.
  - constructor.
  - constructor.
  - (* a call with arguments *)
    pose proof (getNextToken_table _ _ _ H) as S1.
    pose proof (getNextToken_table _ _ _ H1) as S2.
    specialize (H4 (Forall_nil_2 _) _ eq_refl).
    assert (Forall (operators_of_table g) Args) as HA.
    { eapply Forall_impl; [exact H4|]. intros e. apply Hback.
      by eapply same_precedences_trans. }
    clear -HA. unfold operators_of_table in *. simpl.
    induction HA; simpl; [constructor|]. by apply Forall_app.
  - (* the last argument *)
    apply Forall_app. split; [done|]. constructor; [|constructor]. auto.
  - (* one more argument *)
    pose proof (T1 _ _ _ H) as S1.
    pose proof (getNextToken_table _ _ _ H3) as S2.
    assert (same_precedences g g2) as S3
      by (by eapply same_precedences_trans).
    eapply Forall_impl; [apply H5; [|done]|].
    + apply Forall_app. split.
      * eapply Forall_impl; [exact H6|]. intros e.
        by apply operators_of_table_same.
      * constructor; [|constructor].
        apply (operators_of_table_same g); auto.
    + intros e. by apply Hback.
  - (* a parenthesis *)
    pose proof (getNextToken_table _ _ _ H) as S1.
    apply (Hback _ _ _ S1). auto.
  - (* same or lower precedence next *)
    pose proof (GetTokPrecedence_spec _ _ _ H) as (Hd & S1 & Hr & Hpos & _).
    pose proof (getNextToken_table _ _ _ H1) as S2.
    pose proof (T2 _ _ _ H2) as S3.
    pose proof (GetTokPrecedence_table _ _ _ H4) as S4.
    assert (same_precedences g g4) as S5.
    { repeat (eapply same_precedences_trans; [|eassumption]). done. }
    apply (Hback _ _ _ S5). apply H7; [done| |done].
    apply (operators_of_table_same g); [done|].
    unfold operators_of_table. simpl. constructor.
    + destruct Hpos as [_ Hpos]; [lia|]. rewrite Hd. simpl. rewrite Hpos. lia.
    + apply Forall_app. split; [done|].
      assert (same_precedences g g2) as S6
        by exact (same_precedences_trans _ _ _ S1 S2).
      apply (Hback _ _ _ S6). auto.
  - (* higher precedence next *)
    pose proof (GetTokPrecedence_spec _ _ _ H) as (Hd & S1 & Hr & Hpos & _).
    pose proof (getNextToken_table _ _ _ H1) as S2.
    pose proof (T2 _ _ _ H2) as S3.
    pose proof (GetTokPrecedence_table _ _ _ H4) as S4.
    pose proof (T6 _ _ _ _ _ H6) as S5.
    assert (same_precedences g g2) as S6
      by (by eapply same_precedences_trans).
    assert (same_precedences g g4) as S7.
    { repeat (eapply same_precedences_trans; [|eassumption]). done. }
    assert (same_precedences g g5) as S8
      by exact (same_precedences_trans _ _ _ S7 S5).
    apply (Hback _ _ _ S8). apply H9; [done| |done].
    apply (operators_of_table_same g); [done|].
    unfold operators_of_table. simpl. constructor.
    + destruct Hpos as [_ Hpos]; [lia|]. rewrite Hd. simpl. rewrite Hpos. lia.
    + apply Forall_app. split; [done|].
      apply (Hback _ _ _ S7). apply H7; [lia| |done].
      apply (operators_of_table_same g2); [|by auto].
      by eapply same_precedences_trans.
Qed.

End ParserTable.

(** ** What the parser consumes *)

Section ParserMeasure.
Import Parser.

Lemma GetTokPrecedence_measure g p g' :
  GetTokPrecedence g = (p, g') →
  (eof_seen g → eof_seen g') ∧ parser_measure g' = parser_measure g ∧
  CurTok g' = CurTok g.
Proof. intros (-> & _)%GetTokPrecedence_spec. done. Qed.

Ltac measure_chain :=
  repeat match goal with
  | Hs : eof_seen ?g, E : getNextToken ?g = (_, _) |- _ =>
      let H := fresh in
      apply getNextToken_spec in E as (? & _ & _ & H);
      destruct (H Hs) as (? & ? & ?); clear H
  | Hs : eof_seen ?g, E : GetTokPrecedence ?g = (_, _) |- _ =>
      let H := fresh in
      apply GetTokPrecedence_measure in E as (H & ? & ?);
      specialize (H Hs)
  | Hs : eof_seen ?g, IH : eof_seen ?g → _ |- _ => specialize (IH Hs)
  | IH : _ ∧ _ |- _ => destruct IH
  | H : CurTok ?g ≠ tok_eof → _, Hc : CurTok ?g = _ |- _ =>
      specialize (H ltac:(rewrite Hc; vm_compute; discriminate))
  | H : CurTok ?g ≠ tok_eof → _, Hc : CurTok ?g ≠ tok_eof |- _ =>
      specialize (H Hc)
  | H : is_Some (Some _) → _ |- _ => specialize (H ltac:(eauto))
  end.

Lemma parser_path_measure :
  (∀ g a g', ParseExpression_path g a g' → eof_seen g →
     eof_seen g' ∧ (parser_measure g' ≤ parser_measure g)%nat ∧
     (is_Some a → (parser_measure g' < parser_measure g)%nat)) ∧
  (∀ g a g', ParsePrimary_path g a g' → eof_seen g →
     eof_seen g' ∧ (parser_measure g' ≤ parser_measure g)%nat ∧
     (is_Some a → (parser_measure g' < parser_measure g)%nat)) ∧
  (∀ g a g', ParseIdentifierExpr_path g a g' → eof_seen g →
     CurTok g ≠ tok_eof →
     eof_seen g' ∧ (parser_measure g' < parser_measure g)%nat) ∧
  (∀ Args g a g', ParseArgs_path Args g a g' → eof_seen g →
     eof_seen g' ∧ (parser_measure g' ≤ parser_measure g)%nat ∧
     (is_Some a → (parser_measure g' < parser_measure g)%nat)) ∧
  (∀ g a g', ParseParenExpr_path g a g' → eof_seen g →
     CurTok g ≠ tok_eof →
     eof_seen g' ∧ (parser_measure g' < parser_measure g)%nat) ∧
  (∀ P LHS g a g', ParseBinOpRHS_path P LHS g a g' → eof_seen g →
     eof_seen g' ∧ (parser_measure g' ≤ parser_measure g)%nat).
Proof.
  apply parser_path_ind; intros; measure_chain;
    try (split; [assumption|]); try split;
    try (intros [? [=]]); try (intros _); try done;
    change (parser_measure (fprintf_stderr ?o ?g)) with (parser_measure g);
    lia.
Qed.

End ParserMeasure.

(** ** The expression parser returns *)

Section ParserReturns.
Import Parser.

Ltac next_token g Hs t1 g1 Ht Hs1 Hle Hlt :=
  let E := fresh "E" in
  let H := fresh "H" in
  destruct (getNextToken g) as [t1 g1] eqn:E;
  apply getNextToken_spec in E as (Ht & _ & _ & H);
  destruct (H Hs) as (Hs1 & Hle & Hlt); clear H.

Ltac is_not_eof C := rewrite C; vm_compute; discriminate.

Lemma parser_returns n :
  (∀ g, eof_seen g → (3 * parser_measure g + 3 ≤ n)%nat →
     ∃ a g', ParseExpression n g = Done a g') ∧
  (∀ g, eof_seen g → (3 * parser_measure g + 2 ≤ n)%nat →
     ∃ a g', ParsePrimary n g = Done a g') ∧
  (∀ g, eof_seen g → CurTok g ≠ tok_eof →
     (3 * parser_measure g + 1 ≤ n)%nat →
     ∃ a g', ParseIdentifierExpr n g = Done a g') ∧
  (∀ Args g, eof_seen g → (3 * parser_measure g + 4 ≤ n)%nat →
     ∃ a g', ParseArgs n Args g = Done a g') ∧
  (∀ g, eof_seen g → CurTok g ≠ tok_eof →
     (3 * parser_measure g + 1 ≤ n)%nat →
     ∃ a g', ParseParenExpr n g = Done a g') ∧
  (∀ P LHS g, eof_seen g → 0 ≤ P → (3 * parser_measure g + 2 ≤ n)%nat →
     ∃ a g', ParseBinOpRHS n P LHS g = Done a g').
Proof.
  induction n as [|n (IH1 & IH2 & IH3 & IH4 & IH5 & IH6)].
  { repeat split; intros; lia. }
  destruct (parser_paths n) as (S1 & S2 & S3 & S4 & S5 & S6).
  destruct parser_path_measure as (M1 & M2 & M3 & M4 & M5 & M6).
  repeat split.
  - intros g Hs Hn. rewrite ParseExpression_S.
    destruct (IH2 g Hs) as (a & g1 & Hr); [lia|].
    rewrite Hr. cbn [Res_bind]. destruct a as [LHS|]; [|eauto].
    apply S2, M2 in Hr as (Hs1 & Hle & Hlt); [|done].
    specialize (Hlt ltac:(eauto)). apply IH6; [done|lia|lia].
  - intros g Hs Hn. rewrite ParsePrimary_S.
    destruct (CurTok g =? tok_identifier) eqn:C1.
    { apply Z.eqb_eq in C1. apply IH3; [done|is_not_eof C1|lia]. }
    destruct (CurTok g =? tok_number) eqn:C2; [unfold ret; eauto|].
    destruct (CurTok g =? chr "(") eqn:C3; [|unfold ret; eauto].
    apply Z.eqb_eq in C3. apply IH5; [done|is_not_eof C3|lia].
  - intros g Hs Hc Hn. rewrite ParseIdentifierExpr_S. cbv zeta.
    next_token g Hs t1 g1 Ht1 Hs1 Hle1 Hlt1. specialize (Hlt1 Hc).
    destruct (CurTok g1 =? chr "(") eqn:C1; cbn [negb]; [|eauto].
    apply Z.eqb_eq in C1.
    next_token g1 Hs1 t2 g2 Ht2 Hs2 Hle2 Hlt2.
    specialize (Hlt2 ltac:(is_not_eof C1)).
    destruct (CurTok g2 =? chr ")") eqn:C2; cbn [negb Res_bind].
    { destruct (getNextToken g2). eauto. }
    destruct (IH4 [] g2 Hs2) as (a & g3 & Hr); [lia|].
    rewrite Hr. cbn [Res_bind].
    destruct a; [destruct (getNextToken g3)|]; eauto.
  - intros Args g Hs Hn. rewrite ParseArgs_S.
    destruct (IH1 g Hs) as (a & g1 & Hr); [lia|].
    rewrite Hr. cbn [Res_bind]. destruct a as [Arg|]; [|eauto]. cbv zeta.
    apply S1, M1 in Hr as (Hs1 & Hle & Hlt); [|done].
    specialize (Hlt ltac:(eauto)).
    destruct (CurTok g1 =? chr ")") eqn:C1; [eauto|].
    destruct (CurTok g1 =? chr ",") eqn:C2; cbn [negb];
      [|unfold ret; eauto].
    apply Z.eqb_eq in C2.
    next_token g1 Hs1 t2 g2 Ht2 Hs2 Hle2 Hlt2.
    specialize (Hlt2 ltac:(is_not_eof C2)).
    apply IH4; [done|lia].
  - intros g Hs Hc Hn. rewrite ParseParenExpr_S.
    next_token g Hs t1 g1 Ht1 Hs1 Hle1 Hlt1. specialize (Hlt1 Hc).
    destruct (IH1 g1 Hs1) as (a & g2 & Hr); [lia|].
    rewrite Hr. cbn [Res_bind]. destruct a as [V|]; [|eauto].
    destruct (CurTok g2 =? chr ")"); cbn [negb]; [|unfold ret; eauto].
    destruct (getNextToken g2). eauto.
  - intros P LHS g Hs HP Hn. rewrite ParseBinOpRHS_S.
    destruct (GetTokPrecedence g) as [TokPrec g1] eqn:E1.
    pose proof (GetTokPrecedence_spec _ _ _ E1) as (_ & _ & Hr1 & Hpos & _).
    apply GetTokPrecedence_measure in E1 as (Hs1 & Hm1 & Hc1).
    specialize (Hs1 Hs).
    destruct (TokPrec <? P) eqn:C1; [eauto|]. apply Z.ltb_ge in C1.
    cbv zeta.
    assert (CurTok g1 ≠ tok_eof) as Hne.
    { rewrite Hc1. destruct Hpos as [Ha _]; [lia|].
      intros He. by rewrite He in Ha. }
    next_token g1 Hs1 t2 g2 Ht2 Hs2 Hle2 Hlt2. specialize (Hlt2 Hne).
    destruct (IH2 g2 Hs2) as (a & g3 & Hr); [lia|].
    rewrite Hr. cbn [Res_bind]. destruct a as [RHS|]; [|eauto].
    apply S2, M2 in Hr as (Hs3 & Hle3 & Hlt3); [|done].
    specialize (Hlt3 ltac:(eauto)).
    destruct (GetTokPrecedence g3) as [NextPrec g4] eqn:E4.
    apply GetTokPrecedence_measure in E4 as (Hs4 & Hm4 & Hc4).
    specialize (Hs4 Hs3).
    destruct (TokPrec <? NextPrec).
    + destruct (IH6 (TokPrec + 1) RHS g4 Hs4) as (a & g5 & Hr);
        [lia|lia|].
      rewrite Hr. cbn [Res_bind]. destruct a as [RHS'|]; [|eauto].
      apply S6, M6 in Hr as (Hs5 & Hle5); [|done].
      apply IH6; [done|done|lia].
    + cbn [Res_bind]. apply IH6; [done|done|lia].
Qed.

End ParserReturns.

(** * Further properties of the lowering *)

(** ** The lowering leaves the tokenizer and the parser alone *)

Section Frontend.
Import LLVM Codegen.

Lemma Insert_frontend I g : frontend (Insert I g).2 = frontend g.
Proof. unfold Insert. by destruct (Builder g) as [[F n]|]. Qed.

Lemma Codegen_args_frontend Args :
  Forall (λ e, ∀ g, frontend (ExprAST_Codegen e g).2 = frontend g) Args →
  ∀ ArgsV g, frontend (Codegen_args Args ArgsV g).2 = frontend g.
Proof.
  induction 1 as [|Arg Args HArg _ IH]; intros ArgsV g; simpl; [done|].
  specialize (HArg g). destruct (ExprAST_Codegen Arg g) as [[V|] g1]; [|done].
  by rewrite IH.
Qed.

Lemma ExprAST_Codegen_frontend e :
  ∀ g, frontend (ExprAST_Codegen e g).2 = frontend g.
Proof.
  induction e as [Val|Name|Op LHS RHS IHL IHR|Callee Args IH]
    using ExprAST_induction; intros g.
  - done.
  - simpl. unfold NamedValues_index.
    by destruct (NamedValues g !! Name) as [[V|]|].
  - rewrite Binary_unfold. specialize (IHL g).
    destruct (ExprAST_Codegen LHS g) as [L g1]. specialize (IHR g1).
    destruct (ExprAST_Codegen RHS g1) as [R g2]. simpl in *.
    assert (frontend g2 = frontend g) as H12 by congruence.
    destruct L as [L|], R as [R|]; try done.
    unfold CreateFAdd, CreateFSub, CreateFMul, CreateFCmpULT, CreateUIToFP.
    destruct (Ascii.eqb Op "+"); [simpl; by rewrite Insert_frontend|].
    destruct (Ascii.eqb Op "-"); [simpl; by rewrite Insert_frontend|].
    destruct (Ascii.eqb Op "*"); [simpl; by rewrite Insert_frontend|].
    destruct (Ascii.eqb Op "<"); [|done].
    pose proof (Insert_frontend (FCmpULT L R "cmptmp") g2) as H.
    destruct (Insert (FCmpULT L R "cmptmp") g2) as [L' g3]. simpl in *.
    rewrite Insert_frontend. congruence.
  - rewrite Call_unfold.
    destruct (getFunction Callee (TheModule g)) as [f|]; [|done].
    destruct (negb _); [done|].
    pose proof (Codegen_args_frontend Args IH [] g) as H.
    destruct (Codegen_args Args [] g) as [[ArgsV|] g1]; [|done].
    simpl in *. unfold CreateCall. by rewrite Insert_frontend.
Qed.

Lemma bind_arguments_frontend F Args : ∀ Idx g,
  frontend (bind_arguments F Idx Args g) = frontend g.
Proof.
  induction Args as [|Arg Args IH]; intros Idx g; simpl; [done|].
  by rewrite IH.
Qed.

Lemma PrototypeAST_Codegen_frontend P g :
  frontend (PrototypeAST_Codegen P g).2 = frontend g.
Proof.
  unfold PrototypeAST_Codegen, Function_Create.
  destruct (String.eqb _ _ || negb _);
    [|destruct (createValueName _ _ _ _) as [name lu]];
    (destruct (negb (String.eqb _ _)); [|simpl; by rewrite bind_arguments_frontend]);
    (destruct (getFunction _ _) as [f|]; [|done]);
    (destruct (negb (empty f)); [done|]);
    (destruct (negb (Nat.eqb _ _)); [done|]);
    simpl; by rewrite bind_arguments_frontend.
Qed.

Lemma FunctionAST_Codegen_frontend FA g :
  frontend (FunctionAST_Codegen FA g).2 = frontend g.
Proof.
  unfold FunctionAST_Codegen.
  pose proof (PrototypeAST_Codegen_frontend (Proto FA) (set_NamedValues ∅ g))
    as Hp.
  destruct (PrototypeAST_Codegen (Proto FA) (set_NamedValues ∅ g))
    as [[F|] g1]; [|done]. simpl in Hp.
  destruct (BasicBlock_Create "entry" F g1) as [BB g2] eqn:EB.
  assert (frontend (SetInsertPoint BB g2) = frontend g) as Hb.
  { apply (f_equal snd) in EB. simpl in EB. by subst g2. }
  pose proof (ExprAST_Codegen_frontend (Body FA) (SetInsertPoint BB g2)) as He.
  destruct (ExprAST_Codegen (Body FA) (SetInsertPoint BB g2)) as [[V|] g3];
    simpl in He.
  - unfold CreateRet, verifyFunction.
    pose proof (Insert_frontend (ReturnInst V) g3) as Hi.
    destruct (Insert (ReturnInst V) g3) as [I g4]. simpl in *. congruence.
  - simpl. unfold eraseFromParent. simpl.
    change (frontend g3 = frontend g). congruence.
Qed.

End Frontend.

(** * [main] returns *)

Section MainReturns.
Import Parser Driver.

Ltac next_token g Hs t1 g1 Ht Hs1 Hle Hlt :=
  let E := fresh "E" in
  let H := fresh "H" in
  destruct (getNextToken g) as [t1 g1] eqn:E;
  pose proof (getNextToken_spec _ _ _ E) as (Ht & _ & _ & H);
  destruct (H Hs) as (Hs1 & Hle & Hlt); clear H.

Ltac is_not_eof C := rewrite C; vm_compute; discriminate.

Lemma getNextToken_at_eof g t g' :
  eof_seen g → CurTok g = tok_eof → getNextToken g = (t, g') → t = tok_eof.
Proof.
  intros Hs Hc. unfold getNextToken.
  rewrite (gettok_at_EOF g (Hs Hc)). by intros [= <- _].
Qed.

Lemma frontend_measure g g' :
  frontend g' = frontend g →
  (eof_seen g → eof_seen g') ∧ parser_measure g' = parser_measure g ∧
  CurTok g' = CurTok g.
Proof.
  unfold frontend, eof_seen, parser_measure, lexer_measure.
  intros [= H1 H2 H3 H4 H5 H6]. by rewrite H1, H2, H5.
Qed.

Lemma ParseExpression_returns n g :
  eof_seen g → (3 * parser_measure g + 3 ≤ n)%nat →
  ∃ a g', ParseExpression n g = Done a g' ∧ eof_seen g' ∧
          (parser_measure g' ≤ parser_measure g)%nat ∧
          (is_Some a → (parser_measure g' < parser_measure g)%nat).
Proof.
  intros Hs Hn.
  destruct (parser_returns n) as (H & _). destruct (H g Hs Hn) as (a & g' & Hr).
  exists a, g'. split; [done|].
  apply ParseExpression_paths in Hr.
  by apply (proj1 parser_path_measure) in Hr.
Qed.

Lemma ParsePrototype_args_returns n : ∀ ArgNames g,
  eof_seen g → (parser_measure g + 1 ≤ n)%nat →
  ∃ a g', ParsePrototype_args n ArgNames g = Done a g' ∧ eof_seen g' ∧
          (parser_measure g' ≤ parser_measure g)%nat.
Proof.
  induction n as [|n IH]; intros ArgNames g Hs Hn; [lia|]. simpl.
  next_token g Hs t1 g1 Ht1 Hs1 Hle1 Hlt1.
  destruct (t1 =? tok_identifier) eqn:C; [|eauto].
  apply Z.eqb_eq in C.
  assert (CurTok g ≠ tok_eof) as Hc.
  { intros Hc. by rewrite (getNextToken_at_eof _ _ _ Hs Hc E) in C. }
  specialize (Hlt1 Hc).
  destruct (IH (ArgNames ++ [IdentifierStr g1]) g1 Hs1) as (a & g' & ? & ? & ?);
    [lia|].
  exists a, g'. split; [done|]. split; [done|lia].
Qed.

Lemma ParsePrototype_returns n g :
  eof_seen g → (parser_measure g + 1 ≤ n)%nat →
  ∃ a g', ParsePrototype n g = Done a g' ∧ eof_seen g' ∧
          (parser_measure g' ≤ parser_measure g)%nat.
Proof.
  intros Hs Hn. unfold ParsePrototype.
  destruct (CurTok g =? tok_identifier) eqn:C1; cbn [negb];
    [|unfold ret; simpl; eauto].
  apply Z.eqb_eq in C1. cbv zeta.
  next_token g Hs t1 g1 Ht1 Hs1 Hle1 Hlt1.
  specialize (Hlt1 ltac:(is_not_eof C1)).
  destruct (CurTok g1 =? chr "(") eqn:C2; cbn [negb].
  2: { unfold ret. simpl. eexists _, _. split; [done|]. split; [done|].
       change (parser_measure (fprintf_stderr ?o ?g)) with (parser_measure g).
       lia. }
  destruct (ParsePrototype_args_returns n [] g1 Hs1) as (a & g2 & Hr & Hs2 & Hle2);
    [lia|].
  rewrite Hr. cbn [Res_bind].
  destruct (CurTok g2 =? chr ")") eqn:C3; cbn [negb].
  2: { unfold ret. simpl. eexists _, _. split; [done|]. split; [done|].
       change (parser_measure (fprintf_stderr ?o ?g)) with (parser_measure g).
       lia. }
  next_token g2 Hs2 t3 g3 Ht3 Hs3 Hle3 Hlt3.
  eexists _, _. split; [done|]. split; [done|lia].
Qed.

Lemma ParseDefinition_returns n g :
  eof_seen g → CurTok g ≠ tok_eof → (3 * parser_measure g + 1 ≤ n)%nat →
  ∃ a g', ParseDefinition n g = Done a g' ∧ eof_seen g' ∧
          (parser_measure g' < parser_measure g)%nat.
Proof.
  intros Hs Hc Hn. unfold ParseDefinition.
  next_token g Hs t1 g1 Ht1 Hs1 Hle1 Hlt1. specialize (Hlt1 Hc).
  destruct (ParsePrototype_returns n g1 Hs1) as (P & g2 & Hr & Hs2 & Hle2);
    [lia|].
  rewrite Hr. cbn [Res_bind].
  destruct P as [P|]; [|eexists _, _; split; [done|]; split; [done|lia]].
  destruct (ParseExpression_returns n g2 Hs2) as (E' & g3 & Hr3 & Hs3 & Hle3 & _);
    [lia|].
  rewrite Hr3. cbn [Res_bind].
  destruct E'; eexists _, _; (split; [done|]); (split; [done|lia]).
Qed.

Lemma ParseExtern_returns n g :
  eof_seen g → CurTok g ≠ tok_eof → (3 * parser_measure g + 1 ≤ n)%nat →
  ∃ a g', ParseExtern n g = Done a g' ∧ eof_seen g' ∧
          (parser_measure g' < parser_measure g)%nat.
Proof.
  intros Hs Hc Hn. unfold ParseExtern.
  next_token g Hs t1 g1 Ht1 Hs1 Hle1 Hlt1. specialize (Hlt1 Hc).
  destruct (ParsePrototype_returns n g1 Hs1) as (P & g2 & Hr & Hs2 & Hle2);
    [lia|].
  exists P, g2. split; [done|]. split; [done|lia].
Qed.

Lemma ParseTopLevelExpr_returns n g :
  eof_seen g → (3 * parser_measure g + 3 ≤ n)%nat →
  ∃ a g', ParseTopLevelExpr n g = Done a g' ∧ eof_seen g' ∧
          (parser_measure g' ≤ parser_measure g)%nat ∧
          (is_Some a → (parser_measure g' < parser_measure g)%nat).
Proof.
  intros Hs Hn. unfold ParseTopLevelExpr.
  destruct (ParseExpression_returns n g Hs Hn) as (E' & g1 & Hr & Hs1 & Hle & Hlt).
  rewrite Hr. cbn [Res_bind].
  destruct E'; eexists _, _; (split; [done|]); (split; [done|]);
    (split; [done|]); [eauto|by intros [? [=]]].
Qed.

(** What a statement of the main loop leaves behind. *)
Lemma skip_token_progress g :
  eof_seen g →
  let g' := (getNextToken g).2 in
  eof_seen g' ∧ (parser_measure g' ≤ parser_measure g)%nat ∧
  ((parser_measure g' < parser_measure g)%nat ∨ CurTok g' = tok_eof).
Proof.
  intros Hs. next_token g Hs t1 g1 Ht1 Hs1 Hle1 Hlt1. simpl.
  split; [done|]. split; [done|].
  destruct (decide (CurTok g = tok_eof)) as [Hc|Hc]; [right|by left; auto].
  by rewrite Ht1, (getNextToken_at_eof _ _ _ Hs Hc E).
Qed.

Lemma lowered_progress g g1 g' :
  eof_seen g1 → (parser_measure g1 < parser_measure g)%nat →
  frontend g' = frontend g1 →
  eof_seen g' ∧ (parser_measure g' ≤ parser_measure g)%nat ∧
  ((parser_measure g' < parser_measure g)%nat ∨ CurTok g' = tok_eof).
Proof.
  intros Hs Hlt (Hs' & Hm & _)%frontend_measure.
  split; [auto|]. rewrite Hm. split; [lia|by left].
Qed.

Lemma HandleDefinition_returns n g :
  eof_seen g → CurTok g ≠ tok_eof → (3 * parser_measure g + 1 ≤ n)%nat →
  ∃ g', HandleDefinition n g = Done tt g' ∧ eof_seen g' ∧
        (parser_measure g' ≤ parser_measure g)%nat ∧
        ((parser_measure g' < parser_measure g)%nat ∨ CurTok g' = tok_eof).
Proof.
  intros Hs Hc Hn. unfold HandleDefinition.
  destruct (ParseDefinition_returns n g Hs Hc Hn) as (F & g1 & Hr & Hs1 & Hlt).
  rewrite Hr. cbn [Res_bind]. destruct F as [F|].
  - pose proof (FunctionAST_Codegen_frontend F g1) as Hf.
    destruct (Codegen.FunctionAST_Codegen F g1) as [[LF|] g2];
      eexists; (split; [done|]); by apply (lowered_progress g g1).
  - destruct (skip_token_progress g1 Hs1) as (? & ? & ?).
    destruct (getNextToken g1) as [t g2]. simpl in *.
    eexists. split; [done|]. split; [done|]. split; [lia|left; lia].
Qed.

Lemma HandleExtern_returns n g :
  eof_seen g → CurTok g ≠ tok_eof → (3 * parser_measure g + 1 ≤ n)%nat →
  ∃ g', HandleExtern n g = Done tt g' ∧ eof_seen g' ∧
        (parser_measure g' ≤ parser_measure g)%nat ∧
        ((parser_measure g' < parser_measure g)%nat ∨ CurTok g' = tok_eof).
Proof.
  intros Hs Hc Hn. unfold HandleExtern.
  destruct (ParseExtern_returns n g Hs Hc Hn) as (P & g1 & Hr & Hs1 & Hlt).
  rewrite Hr. cbn [Res_bind]. destruct P as [P|].
  - pose proof (PrototypeAST_Codegen_frontend P g1) as Hf.
    destruct (Codegen.PrototypeAST_Codegen P g1) as [[LF|] g2];
      eexists; (split; [done|]); by apply (lowered_progress g g1).
  - destruct (skip_token_progress g1 Hs1) as (? & ? & ?).
    destruct (getNextToken g1) as [t g2]. simpl in *.
    eexists. split; [done|]. split; [done|]. split; [lia|left; lia].
Qed.

Lemma HandleTopLevelExpression_returns n g :
  eof_seen g → (3 * parser_measure g + 3 ≤ n)%nat →
  ∃ g', HandleTopLevelExpression n g = Done tt g' ∧ eof_seen g' ∧
        (parser_measure g' ≤ parser_measure g)%nat ∧
        ((parser_measure g' < parser_measure g)%nat ∨ CurTok g' = tok_eof).
Proof.
  intros Hs Hn. unfold HandleTopLevelExpression.
  destruct (ParseTopLevelExpr_returns n g Hs Hn)
    as (F & g1 & Hr & Hs1 & Hle & Hlt).
  rewrite Hr. cbn [Res_bind]. destruct F as [F|].
  - specialize (Hlt ltac:(eauto)).
    pose proof (FunctionAST_Codegen_frontend F g1) as Hf.
    destruct (Codegen.FunctionAST_Codegen F g1) as [[LF|] g2];
      eexists; (split; [done|]); by apply (lowered_progress g g1).
  - destruct (skip_token_progress g1 Hs1) as (? & ? & Hp).
    destruct (getNextToken g1) as [t g2]. simpl in *.
    eexists. split; [done|]. split; [done|]. split; [lia|].
    destruct Hp; [left; lia|by right].
Qed.

Lemma MainLoop_returns n : ∀ g,
  eof_seen g →
  (CurTok g = tok_eof ∧ (1 ≤ n)%nat) ∨ (3 * parser_measure g + 4 ≤ n)%nat →
  ∃ g', MainLoop n g = Done tt g'.
Proof.
  induction n as [|n IH]; intros g Hs Hn; [lia|].
  rewrite MainLoop_S. cbv zeta.
  change (CurTok (fprintf_stderr (Text "pon> ") g)) with (CurTok g).
  destruct (CurTok g =? tok_eof) eqn:C0; [eauto|].
  apply Z.eqb_neq in C0. destruct Hn as [[? _]|Hn]; [done|].
  set (g0 := fprintf_stderr (Text "pon> ") g).
  assert (eof_seen g0) as Hs0 by done.
  assert (parser_measure g0 = parser_measure g) as Hm0 by done.
  assert (CurTok g0 = CurTok g) as Hc0 by done.
  assert (∃ g1, (if CurTok g =? chr ";"
                 then let '(_, g) := getNextToken g0 in Done tt g
                 else if CurTok g =? tok_def then HandleDefinition n g0
                 else if CurTok g =? tok_extern then HandleExtern n g0
                 else HandleTopLevelExpression n g0) = Done tt g1 ∧
                eof_seen g1 ∧
                (parser_measure g1 ≤ parser_measure g)%nat ∧
                ((parser_measure g1 < parser_measure g)%nat ∨
                 CurTok g1 = tok_eof)) as (g1 & Hr & Hs1 & Hle & Hp).
  { rewrite <- Hm0.
    destruct (CurTok g =? chr ";").
    { destruct (skip_token_progress g0 Hs0) as (? & ? & ?).
      destruct (getNextToken g0) as [t g1]. eauto. }
    destruct (CurTok g =? tok_def).
    { apply HandleDefinition_returns; [done|by rewrite Hc0|lia]. }
    destruct (CurTok g =? tok_extern).
    { apply HandleExtern_returns; [done|by rewrite Hc0|lia]. }
    apply HandleTopLevelExpression_returns; [done|lia]. }
  rewrite Hr. cbn [Res_bind]. apply IH; [done|].
  destruct Hp as [Hp|Hp]; [right; lia|left; split; [done|lia]].
Qed.

Lemma startup_measure input :
  eof_seen (startup input) ∧
  (parser_measure (startup input) ≤ String.length input + 1)%nat.
Proof.
  unfold startup.
  set (g := fprintf_stderr (Text "pon> ")
              (install_precedences (initial input))).
  assert (eof_seen g) as Hs by (intros H; discriminate H).
  pose proof (getNextToken_spec g) as H.
  destruct (getNextToken g) as [t g1].
  destruct (H t g1 eq_refl) as (_ & _ & _ & Hm).
  destruct (Hm Hs) as (Hs1 & _ & Hlt).
  split; [done|].
  change (parser_measure (set_TheModule _ g1)) with (parser_measure g1).
  assert (parser_measure g = String.length input + 2)%nat as Hg.
  { unfold parser_measure, lexer_measure. simpl. lia. }
  specialize (Hlt ltac:(discriminate)). lia.
Qed.

End MainReturns.

Section MainStable.
Import Parser Driver.

Lemma ParseExtern_stable n k g a g' :
  ParseExtern n g = Done a g' → ParseExtern (n + k) g = Done a g'.
Proof.
  unfold ParseExtern. destruct (getNextToken g) as [t g1].
  apply ParsePrototype_stable.
Qed.

Lemma ParseTopLevelExpr_stable n k g a g' :
  ParseTopLevelExpr n g = Done a g' → ParseTopLevelExpr (n + k) g = Done a g'.
Proof.
  unfold ParseTopLevelExpr.
  destruct (ParseExpression n g) as [E g1|] eqn:H; [|done].
  by rewrite (ParseExpression_stable _ k _ _ _ H).
Qed.

Lemma HandleDefinition_stable n k g a g' :
  HandleDefinition n g = Done a g' → HandleDefinition (n + k) g = Done a g'.
Proof.
  unfold HandleDefinition.
  destruct (ParseDefinition n g) as [F g1|] eqn:H; [|done].
  by rewrite (ParseDefinition_stable _ k _ _ _ H).
Qed.

Lemma HandleExtern_stable n k g a g' :
  HandleExtern n g = Done a g' → HandleExtern (n + k) g = Done a g'.
Proof.
  unfold HandleExtern.
  destruct (ParseExtern n g) as [F g1|] eqn:H; [|done].
  by rewrite (ParseExtern_stable _ k _ _ _ H).
Qed.

Lemma HandleTopLevelExpression_stable n k g a g' :
  HandleTopLevelExpression n g = Done a g' →
  HandleTopLevelExpression (n + k) g = Done a g'.
Proof.
  unfold HandleTopLevelExpression.
  destruct (ParseTopLevelExpr n g) as [F g1|] eqn:H; [|done].
  by rewrite (ParseTopLevelExpr_stable _ k _ _ _ H).
Qed.

Lemma MainLoop_stable n : ∀ k g a g',
  MainLoop n g = Done a g' → MainLoop (n + k) g = Done a g'.
Proof.
  induction n as [|n IH]; intros k g a g' H; [done|].
  change (S n + k)%nat with (S (n + k)). rewrite MainLoop_S in *.
  cbv zeta in *.
  destruct (CurTok _ =? tok_eof); [done|].
  match type of H with Res_bind ?r _ = _ =>
    destruct r as [[] g1|] eqn:E; [|done] end.
  cbn [Res_bind] in H. apply (IH k) in H.
  destruct (CurTok _ =? chr ";").
  { by rewrite E. }
  destruct (CurTok _ =? tok_def).
  { by rewrite (HandleDefinition_stable _ k _ _ _ E). }
  destruct (CurTok _ =? tok_extern).
  { by rewrite (HandleExtern_stable _ k _ _ _ E). }
  by rewrite (HandleTopLevelExpression_stable _ k _ _ _ E).
Qed.

End MainStable.

(** X15.  [main] returns, whatever the input.  Every statement of the main
    loop either consumes a token or leaves the end of the input as the
    current token, every loop and recursion of the parser consumes a token
    per round, and the lowering reads nothing; so a bound on the depth of
    the calls of three times the length of the input plus seven is enough
    for [main] to return, and the globals it leaves do not depend on the
    bound. *)
Theorem main_returns input :
  ∃ g, ∀ n, (3 * String.length input + 7 ≤ n)%nat →
            Driver.main n input = Done tt g.
Proof.
  destruct (startup_measure input) as [Hs Hm].
  destruct (MainLoop_returns (3 * String.length input + 7) (startup input) Hs)
    as (g & Hg); [right; lia|].
  exists (fprintf_stderr (DumpModule (TheModule g)) g). intros n Hn.
  unfold Driver.main.
  replace n with (3 * String.length input + 7 +
                  (n - (3 * String.length input + 7)))%nat by lia.
  by rewrite (MainLoop_stable _ _ _ _ _ Hg).
Qed.

(** * The parser, function by function *)

Section ParserStatements.
Import Parser.

Lemma ParsePrototype_args_quiet n : ∀ ArgNames g a g',
  ParsePrototype_args n ArgNames g = Done a g' →
  stderr g' = stderr g ∧ same_precedences g g'.
Proof.
  induction n as [|n IH]; intros ArgNames g a g' H; [done|]. simpl in H.
  destruct (getNextToken g) as [t g1] eqn:E.
  pose proof (getNextToken_stderr _ _ _ E) as H1.
  pose proof (getNextToken_table _ _ _ E) as H2.
  destruct (t =? tok_identifier).
  - apply IH in H as [H3 H4]. split; [congruence|].
    by eapply same_precedences_trans.
  - by injection H as <- <-.
Qed.

Lemma ParsePrototype_reports n g a g' :
  ParsePrototype n g = Done a g' → reports g a g' ∧ same_precedences g g'.
Proof.
  unfold ParsePrototype.
  destruct (CurTok g =? tok_identifier); cbn [negb].
  2: { intros [= <- <-]. split; [|done].
       apply reports_error; [apply list_elem_of_In; simpl; tauto|done]. }
  cbv zeta. destruct (getNextToken g) as [t1 g1] eqn:E1.
  pose proof (getNextToken_stderr _ _ _ E1) as H1.
  pose proof (getNextToken_table _ _ _ E1) as T1.
  destruct (CurTok g1 =? chr "("); cbn [negb].
  2: { intros [= <- <-]. split; [|done].
       apply reports_error; [apply list_elem_of_In; simpl; tauto|done]. }
  destruct (ParsePrototype_args n [] g1) as [ArgNames g2|] eqn:E2; [|done].
  apply ParsePrototype_args_quiet in E2 as [H2 T2]. cbn [Res_bind].
  assert (same_precedences g g2) as T12
    by exact (same_precedences_trans _ _ _ T1 T2).
  destruct (CurTok g2 =? chr ")"); cbn [negb].
  2: { intros [= <- <-]. split; [|done].
       apply reports_error; [apply list_elem_of_In; simpl; tauto|congruence]. }
  destruct (getNextToken g2) as [t3 g3] eqn:E3.
  pose proof (getNextToken_stderr _ _ _ E3) as H3.
  pose proof (getNextToken_table _ _ _ E3) as T3.
  intros [= <- <-]. split; [unfold reports; congruence|].
  exact (same_precedences_trans _ _ _ T12 T3).
Qed.

Lemma ParseExpression_reports n g a g' :
  ParseExpression n g = Done a g' → reports g a g' ∧ same_precedences g g'.
Proof.
  intros H%ParseExpression_paths. split.
  - by apply (proj1 parser_path_reports).
  - by apply (proj1 parser_path_table) in H.
Qed.

Lemma ParseDefinition_reports n g a g' :
  ParseDefinition n g = Done a g' → reports g a g' ∧ same_precedences g g'.
Proof.
  unfold ParseDefinition.
  destruct (getNextToken g) as [t1 g1] eqn:E1.
  pose proof (getNextToken_stderr _ _ _ E1) as H1.
  pose proof (getNextToken_table _ _ _ E1) as T1.
  destruct (ParsePrototype n g1) as [P g2|] eqn:E2; [|done].
  apply ParsePrototype_reports in E2 as [H2 T2]. cbn [Res_bind].
  assert (same_precedences g g2) as T12
    by exact (same_precedences_trans _ _ _ T1 T2).
  destruct P as [P|].
  { destruct (ParseExpression n g2) as [E g3|] eqn:E3; [|done].
    apply ParseExpression_reports in E3 as [H3 T3]. cbn [Res_bind].
    assert (same_precedences g g3) as T13
      by exact (same_precedences_trans _ _ _ T12 T3).
    unfold reports in H2.
    destruct E as [E|]; intros [= <- <-]; (split; [|done]).
    - unfold reports in *. congruence.
    - apply (reports_before _ g2); [congruence|done]. }
  intros [= <- <-]. split; [|done].
  by apply (reports_before _ g1).
Qed.

Lemma ParseExtern_reports n g a g' :
  ParseExtern n g = Done a g' → reports g a g' ∧ same_precedences g g'.
Proof.
  unfold ParseExtern.
  destruct (getNextToken g) as [t1 g1] eqn:E1.
  pose proof (getNextToken_stderr _ _ _ E1) as H1.
  pose proof (getNextToken_table _ _ _ E1) as T1.
  intros [H2 T2]%ParsePrototype_reports. split.
  - by apply (reports_before _ g1).
  - exact (same_precedences_trans _ _ _ T1 T2).
Qed.

Lemma ParseTopLevelExpr_reports n g a g' :
  ParseTopLevelExpr n g = Done a g' → reports g a g' ∧ same_precedences g g'.
Proof.
  unfold ParseTopLevelExpr.
  destruct (ParseExpression n g) as [E g1|] eqn:E1; [|done].
  apply ParseExpression_reports in E1 as [H1 T1]. cbn [Res_bind].
  by destruct E as [E|]; intros [= <- <-].
Qed.

Lemma ParseDefinition_operators n g F g' :
  ParseDefinition n g = Done (Some F) g' → operators_of_table g (Body F).
Proof.
  unfold ParseDefinition.
  destruct (getNextToken g) as [t1 g1] eqn:E1.
  pose proof (getNextToken_table _ _ _ E1) as T1.
  destruct (ParsePrototype n g1) as [[P|] g2|] eqn:E2; [| |done]; [|done].
  apply ParsePrototype_reports in E2 as [_ T2]. cbn [Res_bind].
  destruct (ParseExpression n g2) as [[E|] g3|] eqn:E3; [| |done]; [|done].
  intros [= <- <-]. simpl.
  apply ParseExpression_paths in E3.
  apply (proj1 parser_path_operators) with (e := E) in E3; [|done].
  eapply operators_of_table_same; [|exact E3]. intros c.
  by rewrite T2, T1.
Qed.

Lemma ParseTopLevelExpr_operators n g F g' :
  ParseTopLevelExpr n g = Done (Some F) g' → operators_of_table g (Body F).
Proof.
  unfold ParseTopLevelExpr.
  destruct (ParseExpression n g) as [[E|] g1|] eqn:E1; [| |done]; [|done].
  intros [= <- <-]. simpl. apply ParseExpression_paths in E1.
  by apply (proj1 parser_path_operators) with (e := E) in E1.
Qed.

End ParserStatements.

Lemma startup_operators input c :
  0 < precedence_of (startup input) c → c ∈ lowered_operators.
Proof.
  assert (BinopPrecedence (startup input) =
          BinopPrecedence (install_precedences (initial input))) as Ht.
  { unfold startup.
    destruct (Parser.getNextToken _) as [t g1] eqn:E.
    apply getNextToken_spec in E as (_ & Hb & _).
    cbn [BinopPrecedence set_TheModule]. by rewrite Hb. }
  unfold precedence_of. rewrite Ht. simpl.
  destruct (decide (c = "*"%char)) as [->|?]; [intros _; list_elem|].
  rewrite lookup_insert_ne by done.
  destruct (decide (c = "-"%char)) as [->|?]; [intros _; list_elem|].
  rewrite lookup_insert_ne by done.
  destruct (decide (c = "+"%char)) as [->|?]; [intros _; list_elem|].
  rewrite lookup_insert_ne by done.
  destruct (decide (c = "<"%char)) as [->|?]; [intros _; list_elem|].
  rewrite lookup_insert_ne by done. rewrite lookup_empty. simpl. lia.
Qed.

(** ** What the parser reports, reads and builds *)

(** X9.  One report per failure.  Whenever [ParseExpression],
    [ParsePrototype], [ParseDefinition], [ParseExtern] or
    [ParseTopLevelExpr] returns a result it has written nothing to
    [stderr], and whenever it returns null it has written exactly one line,
    by [Error], with one of the six texts of the parser. *)
Theorem parser_reports_once n g :
  returned (Parser.ParseExpression n g) (reports g) ∧
  returned (Parser.ParsePrototype n g) (reports g) ∧
  returned (Parser.ParseDefinition n g) (reports g) ∧
  returned (Parser.ParseExtern n g) (reports g) ∧
  returned (Parser.ParseTopLevelExpr n g) (reports g).
Proof.
  unfold returned. split_and!.
  - destruct (Parser.ParseExpression n g) eqn:E; [|done].
    by apply ParseExpression_reports in E as [? _].
  - destruct (Parser.ParsePrototype n g) eqn:E; [|done].
    by apply ParsePrototype_reports in E as [? _].
  - destruct (Parser.ParseDefinition n g) eqn:E; [|done].
    by apply ParseDefinition_reports in E as [? _].
  - destruct (Parser.ParseExtern n g) eqn:E; [|done].
    by apply ParseExtern_reports in E as [? _].
  - destruct (Parser.ParseTopLevelExpr n g) eqn:E; [|done].
    by apply ParseTopLevelExpr_reports in E as [? _].
Qed.

(** X10.  An expression is as long as it can be.  When [ParseExpression]
    returns an expression, the current token is not a binary operator:
    [GetTokPrecedence] returns -1 for it (and changes nothing).  When
    [ParseBinOpRHS] returns an expression, the precedence of the current
    token is below the minimum the function was called with. *)
Theorem expression_is_maximal n g :
  returned (Parser.ParseExpression n g)
    (λ a g', is_Some a → Parser.GetTokPrecedence g' = (-1, g')) ∧
  ∀ ExprPrec LHS,
    returned (Parser.ParseBinOpRHS n ExprPrec LHS g)
      (λ a g', is_Some a →
         ∃ p, p < ExprPrec ∧ Parser.GetTokPrecedence g' = (p, g')).
Proof.
  unfold returned. split.
  - destruct (Parser.ParseExpression n g) eqn:E; [|done].
    apply ParseExpression_paths in E.
    exact (proj1 parser_path_maximal _ _ _ E).
  - intros ExprPrec LHS.
    destruct (Parser.ParseBinOpRHS n ExprPrec LHS g) eqn:E; [|done].
    apply (parser_paths n) in E.
    destruct parser_path_maximal as (_ & _ & _ & _ & _ & H).
    exact (H _ _ _ _ _ E).
Qed.

(** X11.  The operators of a parsed expression are operators of the
    table.  Every operator in an expression that [ParseExpression] returns,
    and in the body of a function that [ParseDefinition] or
    [ParseTopLevelExpr] returns, is a character whose precedence in
    [BinopPrecedence] is positive.  With the table [main] installs these
    are [<], [+], [-] and [*] only. *)
Theorem parsed_operators_are_in_the_table n g :
  returned (Parser.ParseExpression n g)
    (λ a _, ∀ e, a = Some e → operators_of_table g e) ∧
  returned (Parser.ParseDefinition n g)
    (λ a _, ∀ F, a = Some F → operators_of_table g (Body F)) ∧
  returned (Parser.ParseTopLevelExpr n g)
    (λ a _, ∀ F, a = Some F → operators_of_table g (Body F)) ∧
  ∀ input c, 0 < precedence_of (startup input) c → c ∈ lowered_operators.
Proof.
  unfold returned. split_and!.
  - destruct (Parser.ParseExpression n g) eqn:E; [|done].
    apply ParseExpression_paths in E.
    exact (proj1 parser_path_operators _ _ _ E).
  - destruct (Parser.ParseDefinition n g) eqn:E; [|done].
    intros F ->. by apply ParseDefinition_operators in E.
  - destruct (Parser.ParseTopLevelExpr n g) eqn:E; [|done].
    intros F ->. by apply ParseTopLevelExpr_operators in E.
  - apply startup_operators.
Qed.

(** X12.  The parser leaves the back end alone.  No function of the
    parser, and neither [getNextToken] nor [GetTokPrecedence], changes the
    module, the builder, the table of local values or the handle counter;
    and none changes the precedence of any character (the zero entries that
    [operator[]] inserts apart). *)
Theorem parser_leaves_backend n g :
  let left (g' : Globals) :=
    backend g' = backend g ∧ same_precedences g g' in
  returned (Parser.ParseExpression n g) (λ _, left) ∧
  returned (Parser.ParsePrototype n g) (λ _, left) ∧
  returned (Parser.ParseDefinition n g) (λ _, left) ∧
  returned (Parser.ParseExtern n g) (λ _, left) ∧
  returned (Parser.ParseTopLevelExpr n g) (λ _, left) ∧
  left (Parser.getNextToken g).2 ∧ left (Parser.GetTokPrecedence g).2.
Proof.
  intros left. unfold returned, left. split_and!.
  - destruct (Parser.ParseExpression n g) eqn:E; [|done]. split.
    + by apply ParseExpression_backend in E.
    + by apply ParseExpression_reports in E as [_ ?].
  - destruct (Parser.ParsePrototype n g) eqn:E; [|done]. split.
    + by apply ParsePrototype_backend in E.
    + by apply ParsePrototype_reports in E as [_ ?].
  - destruct (Parser.ParseDefinition n g) eqn:E; [|done]. split.
    + by apply ParseDefinition_backend in E.
    + by apply ParseDefinition_reports in E as [_ ?].
  - destruct (Parser.ParseExtern n g) eqn:E; [|done]. split.
    + by apply ParseExtern_backend in E.
    + by apply ParseExtern_reports in E as [_ ?].
  - destruct (Parser.ParseTopLevelExpr n g) eqn:E; [|done]. split.
    + by apply ParseTopLevelExpr_backend in E.
    + by apply ParseTopLevelExpr_reports in E as [_ ?].
  - destruct (Parser.getNextToken g) eqn:E. simpl.
    by apply getNextToken_backend in E.
  - destruct (Parser.getNextToken g) eqn:E. simpl.
    by apply getNextToken_table in E.
  - destruct (Parser.GetTokPrecedence g) eqn:E. simpl.
    by apply GetTokPrecedence_backend in E.
  - destruct (Parser.GetTokPrecedence g) eqn:E. simpl.
    by apply GetTokPrecedence_table in E.
Qed.

(** X13.  The lowering leaves the front end alone.  None of the [Codegen]
    methods changes the input, [LastChar], [IdentifierStr], [NumVal], the
    current token or the precedence table. *)
Theorem lowering_leaves_frontend g :
  (∀ e, frontend (Codegen.ExprAST_Codegen e g).2 = frontend g) ∧
  (∀ P, frontend (Codegen.PrototypeAST_Codegen P g).2 = frontend g) ∧
  (∀ FA, frontend (Codegen.FunctionAST_Codegen FA g).2 = frontend g).
Proof.
  split_and!.
  - intros e. apply ExprAST_Codegen_frontend.
  - intros P. apply PrototypeAST_Codegen_frontend.
  - intros FA. apply FunctionAST_Codegen_frontend.
Qed.

(** X14.  The parser returns, and a result costs input.  Count what the
    parser has before it as what the tokenizer has plus one for the current
    token unless that is [tok_eof].  In globals where the current token is
    [tok_eof] only if [LastChar] is [EOF] (as after every call of
    [getNextToken]), a bound on the depth of the calls of three times that
    count plus three is enough for each parse function to return.  None
    increases the count; [ParseExpression] and [ParseTopLevelExpr] decrease
    it when they return a result, [ParseDefinition] and [ParseExtern]
    decrease it always when the current token is not [tok_eof]. *)
Theorem parser_returns_and_consumes n g :
  eof_seen g → (3 * parser_measure g + 3 ≤ n)%nat →
  (∃ a g', Parser.ParseExpression n g = Done a g' ∧ eof_seen g' ∧
           (parser_measure g' ≤ parser_measure g)%nat ∧
           (is_Some a → (parser_measure g' < parser_measure g)%nat)) ∧
  (∃ a g', Parser.ParsePrototype n g = Done a g' ∧ eof_seen g' ∧
           (parser_measure g' ≤ parser_measure g)%nat) ∧
  (CurTok g ≠ tok_eof →
   ∃ a g', Parser.ParseDefinition n g = Done a g' ∧ eof_seen g' ∧
           (parser_measure g' < parser_measure g)%nat) ∧
  (CurTok g ≠ tok_eof →
   ∃ a g', Parser.ParseExtern n g = Done a g' ∧ eof_seen g' ∧
           (parser_measure g' < parser_measure g)%nat) ∧
  (∃ a g', Parser.ParseTopLevelExpr n g = Done a g' ∧ eof_seen g' ∧
           (parser_measure g' ≤ parser_measure g)%nat ∧
           (is_Some a → (parser_measure g' < parser_measure g)%nat)).
Proof.
  intros Hs Hn. split_and!.
  - by apply ParseExpression_returns.
  - apply ParsePrototype_returns; [done|lia].
  - intros Hc. apply ParseDefinition_returns; [done|done|lia].
  - intros Hc. apply ParseExtern_returns; [done|done|lia].
  - by apply ParseTopLevelExpr_returns.
Qed.

Lemma parser_returns_and_consumes_witness :
  let g := startup "foo(1, x) * (2 + y) z" in
  ∃ a g', Parser.ParseExpression 70 g = Done a g' ∧ eof_seen g' ∧
          (parser_measure g' ≤ parser_measure g)%nat ∧
          (is_Some a → (parser_measure g' < parser_measure g)%nat).
Proof.
  intros g.
  refine (proj1 (parser_returns_and_consumes 70 g _ _)).
  - intros H. vm_compute in H. discriminate H.
  - vm_compute. lia.
Defined.

(** * Further properties of the lowering of expressions *)

Section LoweringChecks.
Import LLVM Codegen.

Lemma Insert_NamedValues I g : NamedValues (Insert I g).2 = NamedValues g.
Proof. unfold Insert. by destruct (Builder g) as [[F n]|]. Qed.

Lemma Codegen_args_bound Args :
  Forall (λ e, ∀ g x, is_bound (ExprAST_Codegen e g).2 x = is_bound g x)
         Args →
  ∀ ArgsV g x, is_bound (Codegen_args Args ArgsV g).2 x = is_bound g x.
Proof.
  induction 1 as [|Arg Args HArg _ IH]; intros ArgsV g x; simpl; [done|].
  specialize (HArg g x).
  destruct (ExprAST_Codegen Arg g) as [[V|] g1]; [|done].
  by rewrite IH.
Qed.

Lemma ExprAST_Codegen_bound e :
  ∀ g x, is_bound (ExprAST_Codegen e g).2 x = is_bound g x.
Proof.
  assert (∀ I g x, is_bound (Insert I g).2 x = is_bound g x) as HI.
  { intros I g x. unfold is_bound. by rewrite Insert_NamedValues. }
  induction e as [Val|Name|Op LHS RHS IHL IHR|Callee Args IH]
    using ExprAST_induction; intros g x.
  - done.
  - simpl. unfold NamedValues_index.
    destruct (NamedValues g !! Name) as [[V|]|] eqn:E; simpl; try done.
    unfold is_bound. simpl.
    destruct (decide (Name = x)) as [<-|Hne].
    + by rewrite lookup_insert_eq, E.
    + by rewrite lookup_insert_ne.
  - rewrite Binary_unfold. specialize (IHL g x).
    destruct (ExprAST_Codegen LHS g) as [L g1]. specialize (IHR g1 x).
    destruct (ExprAST_Codegen RHS g1) as [R g2]. simpl in *.
    assert (is_bound g2 x = is_bound g x) as H12 by congruence.
    destruct L as [L|], R as [R|]; try done.
    unfold CreateFAdd, CreateFSub, CreateFMul, CreateFCmpULT, CreateUIToFP.
    destruct (Ascii.eqb Op "+"); [simpl; by rewrite HI|].
    destruct (Ascii.eqb Op "-"); [simpl; by rewrite HI|].
    destruct (Ascii.eqb Op "*"); [simpl; by rewrite HI|].
    destruct (Ascii.eqb Op "<"); [|done].
    pose proof (HI (FCmpULT L R "cmptmp") g2 x) as H.
    destruct (Insert (FCmpULT L R "cmptmp") g2) as [L' g3]. simpl in *.
    rewrite HI. congruence.
  - rewrite Call_unfold.
    destruct (getFunction Callee (TheModule g)) as [f|]; [|done].
    destruct (negb _); [done|].
    pose proof (Codegen_args_bound Args IH [] g x) as H.
    destruct (Codegen_args Args [] g) as [[ArgsV|] g1]; [|done].
    simpl in *. unfold CreateCall. by rewrite HI.
Qed.

Lemma shape_getFunction g g' Callee :
  shape g' = shape g →
  farg_size <$> getFunction Callee (TheModule g') =
  farg_size <$> getFunction Callee (TheModule g).
Proof.
  unfold shape, getFunction. destruct (String.eqb Callee ""); [done|].
  generalize (functions (TheModule g')) (functions (TheModule g)).
  induction l as [|f' l' IH]; intros [|f l] H; try done.
  simpl in H. injection H as Hid Hname Harg Hl. simpl.
  rewrite Hname. destruct (String.eqb (fname f) Callee); simpl;
    [by rewrite Harg|by apply IH].
Qed.

Lemma shape_callable g g' Callee n :
  shape g' = shape g → callable g' Callee n = callable g Callee n.
Proof.
  intros H%(shape_getFunction _ _ Callee). unfold callable.
  destruct (getFunction Callee (TheModule g')),
    (getFunction Callee (TheModule g)); simplify_eq/=; congruence.
Qed.

Lemma lowers_same g g' :
  (∀ x, is_bound g' x = is_bound g x) → shape g' = shape g →
  ∀ e, lowers g' e = lowers g e.
Proof.
  intros Hb Hs.
  induction e as [Val|Name|Op LHS RHS IHL IHR|Callee Args IH]
    using ExprAST_induction; simpl.
  - done.
  - apply Hb.
  - by rewrite IHL, IHR.
  - rewrite (shape_callable g g') by done. f_equal.
    induction IH as [|Arg Args HArg _ IHA]; simpl; [done|].
    by rewrite HArg, IHA.
Qed.

Lemma lowers_after e0 g e :
  lowers (ExprAST_Codegen e0 g).2 e = lowers g e.
Proof.
  apply lowers_same.
  - intros x. apply ExprAST_Codegen_bound.
  - by destruct (ExprAST_Codegen_frame e0 g) as (? & _).
Qed.

Lemma lowers_after_Insert I g e : lowers (Insert I g).2 e = lowers g e.
Proof.
  apply lowers_same.
  - intros x. unfold is_bound. by rewrite Insert_NamedValues.
  - by destruct (Insert_frame I g) as (? & _).
Qed.

Lemma Codegen_args_lowers Args :
  Forall (λ e, ∀ g, is_Some (ExprAST_Codegen e g).1 ↔ lowers g e = true)
         Args →
  ∀ ArgsV g,
    is_Some (Codegen_args Args ArgsV g).1 ↔ forallb (lowers g) Args = true.
Proof.
  induction 1 as [|Arg Args HArg _ IH]; intros ArgsV g; simpl.
  - split; [done|eauto].
  - specialize (HArg g). pose proof (lowers_after Arg g) as Hsame.
    destruct (ExprAST_Codegen Arg g) as [[V|] g1]; simpl in *.
    + rewrite IH.
      assert (lowers g Arg = true) as -> by (apply HArg; eauto). simpl.
      assert (forallb (lowers g1) Args = forallb (lowers g) Args) as ->; [|done].
      clear -Hsame. induction Args as [|a l IHl]; simpl; [done|].
      by rewrite Hsame, IHl.
    + destruct (lowers g Arg); simpl.
      * destruct HArg as [_ H]. by destruct (H eq_refl).
      * split; [by intros [? [=]]|done].
Qed.

Lemma operator_cases Op :
  bool_decide (Op ∈ lowered_operators) =
  (Ascii.eqb Op "+" || Ascii.eqb Op "-" || Ascii.eqb Op "*" ||
   Ascii.eqb Op "<").
Proof.
  unfold lowered_operators.
  destruct (Ascii.eqb Op "+") eqn:E1;
    [apply Ascii.eqb_eq in E1 as ->; by vm_compute|].
  destruct (Ascii.eqb Op "-") eqn:E2;
    [apply Ascii.eqb_eq in E2 as ->; by vm_compute|].
  destruct (Ascii.eqb Op "*") eqn:E3;
    [apply Ascii.eqb_eq in E3 as ->; by vm_compute|].
  destruct (Ascii.eqb Op "<") eqn:E4;
    [apply Ascii.eqb_eq in E4 as ->; by vm_compute|].
  apply Ascii.eqb_neq in E1, E2, E3, E4. simpl.
  apply bool_decide_eq_false. intros H.
  apply list_elem_of_In in H. simpl in H. intuition congruence.
Qed.

Lemma ExprAST_Codegen_lowers e :
  ∀ g, is_Some (ExprAST_Codegen e g).1 ↔ lowers g e = true.
Proof.
  induction e as [Val|Name|Op LHS RHS IHL IHR|Callee Args IH]
    using ExprAST_induction; intros g.
  - simpl. split; eauto.
  - simpl. unfold NamedValues_index, is_bound.
    destruct (NamedValues g !! Name) as [[V|]|]; simpl;
      (split; [try by intros [? [=]]|try done]); eauto.
  - rewrite Binary_unfold. specialize (IHL g).
    pose proof (lowers_after LHS g RHS) as Hsame.
    destruct (ExprAST_Codegen LHS g) as [L g1]. specialize (IHR g1).
    destruct (ExprAST_Codegen RHS g1) as [R g2]. simpl in *.
    rewrite Hsame in IHR. rewrite operator_cases.
    destruct L as [L|].
    2: { assert (lowers g LHS = false) as ->.
         { destruct (lowers g LHS); [|done]. destruct IHL as [_ H].
           by destruct (H eq_refl). }
         split; [by intros [? [=]]|done]. }
    assert (lowers g LHS = true) as -> by (apply IHL; eauto).
    destruct R as [R|].
    2: { assert (lowers g RHS = false) as ->.
         { destruct (lowers g RHS); [|done]. destruct IHR as [_ H].
           by destruct (H eq_refl). }
         split; [by intros [? [=]]|done]. }
    assert (lowers g RHS = true) as -> by (apply IHR; eauto). simpl.
    unfold some.
    destruct (Ascii.eqb Op "+"); [split; eauto|].
    destruct (Ascii.eqb Op "-"); [split; eauto|].
    destruct (Ascii.eqb Op "*"); [split; eauto|].
    destruct (Ascii.eqb Op "<").
    + destruct (CreateFCmpULT L R "cmptmp" g2). split; eauto.
    + split; [by intros [? [=]]|done].
  - rewrite Call_unfold. cbn [lowers]. unfold callable.
    destruct (getFunction Callee (TheModule g)) as [f|];
      [|simpl; split; [by intros [? [=]]|done]].
    destruct (Nat.eqb (farg_size f) (length Args)); simpl;
      [|split; [by intros [? [=]]|done]].
    rewrite <- (Codegen_args_lowers Args IH [] g).
    destruct (Codegen_args Args [] g) as [[ArgsV|] g1]; simpl.
    + split; eauto.
    + split; by intros [? [=]].
Qed.

End LoweringChecks.

(** X16.  What decides whether an expression lowers.  [Codegen] of an
    expression returns a value exactly when, in the globals it is called
    in, every variable of the expression has a value in [NamedValues],
    every call names a function of the module that takes as many arguments
    as the call passes, and every operator is one of [+], [-], [*], [<].
    Lowering one expression changes none of this for another. *)
Theorem lowering_succeeds_iff e g :
  (is_Some (Codegen.ExprAST_Codegen e g).1 ↔ lowers g e = true) ∧
  ∀ e', lowers (Codegen.ExprAST_Codegen e g).2 e' = lowers g e'.
Proof.
  split; [apply ExprAST_Codegen_lowers|intros e'; apply lowers_after].
Qed.

Section LoweringReports.
Import LLVM Codegen.

Lemma reported_refl g g' : stderr g' = stderr g → reported g g' [].
Proof. unfold reported. intros ->. simpl. by rewrite app_nil_r. Qed.

Lemma reported_trans g1 g2 g3 n1 n2 :
  reported g1 g2 n1 → reported g2 g3 n2 → reported g1 g3 (n1 ++ n2).
Proof.
  unfold reported. intros H1 H2. by rewrite H2, H1, map_app, app_assoc.
Qed.

Lemma reported_Insert I g : reported g (Insert I g).2 [].
Proof. apply reported_refl, Insert_stderr. Qed.

Lemma reported_Error {A} s g : reported g (@Error A s g).2 [s].
Proof. done. Qed.

Lemma lowering_post_ok ops g (ok : Prop) g' :
  stderr g' = stderr g → ok → lowering_post ops g ok g'.
Proof.
  intros H Hok. exists []. split; [by apply reported_refl|].
  split; [constructor|]. split; [done|]. intros _. apply not_elem_of_nil.
Qed.

Lemma lowering_post_error ops s g (ok : Prop) :
  s ∈ codegen_errors → ¬ ok →
  (s = "invalid binary operator" →
   ¬ Forall (λ c, c ∈ lowered_operators) ops) →
  lowering_post ops g ok (fprintf_stderr (ErrorLine s) g).
Proof.
  intros Hs Hok Hop. exists [s]. split; [done|].
  split; [by constructor|]. split; [done|].
  intros Hall [Heq|[]%not_elem_of_nil]%elem_of_cons. by apply Hop.
Qed.

Lemma lowering_post_seq ops1 ops2 ops g1 (ok1 : Prop) g2 (ok2 : Prop) g3
    (ok : Prop) :
  lowering_post ops1 g1 ok1 g2 → lowering_post ops2 g2 ok2 g3 →
  (Forall (λ c, c ∈ lowered_operators) ops →
   Forall (λ c, c ∈ lowered_operators) ops1 ∧
   Forall (λ c, c ∈ lowered_operators) ops2) →
  (ok ↔ ok1 ∧ ok2) →
  lowering_post ops g1 ok g3.
Proof.
  intros (n1 & H1 & F1 & R1 & O1) (n2 & H2 & F2 & R2 & O2) Hops Hok.
  exists (n1 ++ n2). split; [by eapply reported_trans|].
  split; [by apply Forall_app|]. split.
  - rewrite Hok, R1, R2. split.
    + by intros [-> ->].
    + by intros [-> ->]%app_eq_nil.
  - intros [Ho1 Ho2]%Hops. rewrite elem_of_app. intros [?|?]; auto.
    + by apply O1.
    + by apply O2.
Qed.

Lemma lowering_post_iff ops g (ok ok' : Prop) g' :
  (ok ↔ ok') → lowering_post ops g ok g' → lowering_post ops g ok' g'.
Proof.
  intros Hiff (new & ? & ? & ? & ?). exists new. by rewrite <- Hiff.
Qed.

Lemma lowering_post_ops ops ops' g (ok : Prop) g' :
  (Forall (λ c, c ∈ lowered_operators) ops' →
   Forall (λ c, c ∈ lowered_operators) ops) →
  lowering_post ops g ok g' → lowering_post ops' g ok g'.
Proof.
  intros Hops (new & ? & ? & ? & Ho). exists new. split_and!; auto.
Qed.

Lemma Codegen_args_post Args :
  Forall (λ e, ∀ g, lowering_post (operators e) g
                      (is_Some (ExprAST_Codegen e g).1)
                      (ExprAST_Codegen e g).2) Args →
  ∀ ArgsV g,
    lowering_post (flat_map operators Args) g
      (is_Some (Codegen_args Args ArgsV g).1)
      (Codegen_args Args ArgsV g).2.
Proof.
  induction 1 as [|Arg Args HArg _ IH]; intros ArgsV g; simpl.
  - apply lowering_post_ok; eauto.
  - specialize (HArg g).
    destruct (ExprAST_Codegen Arg g) as [[V|] g1]; simpl in *.
    + eapply lowering_post_seq; [exact HArg|apply (IH (ArgsV ++ [V]))| |].
      * by intros ?%Forall_app.
      * split; [eauto|by intros [_ ?]].
    + eapply lowering_post_ops; [by intros [? _]%Forall_app|].
      eapply lowering_post_iff; [|exact HArg]. split; by intros [? [=]].
Qed.

Lemma ExprAST_Codegen_post e :
  ∀ g, lowering_post (operators e) g
         (is_Some (ExprAST_Codegen e g).1) (ExprAST_Codegen e g).2.
Proof.
  assert (¬ is_Some (@None Value)) as Hnone by (by intros [? [=]]).
  induction e as [Val|Name|Op LHS RHS IHL IHR|Callee Args IH]
    using ExprAST_induction; intros g.
  - simpl. apply lowering_post_ok; eauto.
  - simpl. unfold NamedValues_index.
    destruct (NamedValues g !! Name) as [[V|]|]; simpl.
    + apply lowering_post_ok; eauto.
    + apply lowering_post_error; [list_elem|done|done].
    + apply (lowering_post_error [] _
               (set_NamedValues (<[Name:=None]> (NamedValues g)) g));
        [list_elem|done|done].
  - rewrite Binary_unfold. specialize (IHL g).
    destruct (ExprAST_Codegen LHS g) as [L g1]. specialize (IHR g1).
    destruct (ExprAST_Codegen RHS g1) as [R g2]. cbn [fst snd] in *.
    assert (Forall (λ c, c ∈ lowered_operators)
              (operators (BinaryExprAST Op LHS RHS)) →
            Forall (λ c, c ∈ lowered_operators) (operators LHS) ∧
            Forall (λ c, c ∈ lowered_operators) (operators RHS)) as Hops.
    { simpl. by intros [_ ?%Forall_app]%Forall_cons. }
    assert (∀ ok : Prop, (ok ↔ is_Some L ∧ is_Some R) →
              lowering_post (operators (BinaryExprAST Op LHS RHS)) g ok g2)
      as H12.
    { intros ok Hok.
      by eapply lowering_post_seq; [exact IHL|exact IHR|exact Hops|]. }
    destruct L as [L|]; [|apply H12; by split; [|intros [? _]]].
    destruct R as [R|]; [|apply H12; by split; [|intros [_ ?]]].
    unfold some, CreateFAdd, CreateFSub, CreateFMul, CreateFCmpULT,
      CreateUIToFP.
    assert (∀ (V : Value) g3, stderr g3 = stderr g2 →
              lowering_post (operators (BinaryExprAST Op LHS RHS)) g
                (is_Some (Some V)) g3) as Hok.
    { intros V g3 H3.
      eapply lowering_post_seq;
        [apply (H12 True); by split; eauto
        |apply (lowering_post_ok [] g2 True g3 H3 I)
        |by intros ?|split; eauto]. }
    destruct (Ascii.eqb Op "+") eqn:E1;
      [cbn [fst snd]; apply Hok, Insert_stderr|].
    destruct (Ascii.eqb Op "-") eqn:E2;
      [cbn [fst snd]; apply Hok, Insert_stderr|].
    destruct (Ascii.eqb Op "*") eqn:E3;
      [cbn [fst snd]; apply Hok, Insert_stderr|].
    destruct (Ascii.eqb Op "<") eqn:E4.
    + pose proof (Insert_stderr (FCmpULT L R "cmptmp") g2) as H.
      destruct (Insert (FCmpULT L R "cmptmp") g2) as [L' g3].
      cbn [fst snd] in *. apply Hok. by rewrite Insert_stderr.
    + cbn [fst snd].
      eapply (lowering_post_seq _ [Op] _ _ True _ False);
        [apply (H12 True); by split; eauto| |intros H; split; [exact H|]|].
      * apply lowering_post_error; [list_elem|tauto|]. intros _ H.
        apply Forall_cons in H as [H _].
        pose proof (operator_cases Op) as Hc.
        rewrite E1, E2, E3, E4 in Hc. simpl in Hc.
        by apply bool_decide_eq_false in Hc.
      * simpl in H. apply Forall_cons in H as [? _]. by constructor.
      * split; [by intros ?%Hnone|tauto].
  - rewrite Call_unfold.
    destruct (getFunction Callee (TheModule g)) as [f|].
    2: { cbn [fst snd]. apply lowering_post_error; [list_elem|done|done]. }
    destruct (negb _).
    { cbn [fst snd]. apply lowering_post_error; [list_elem|done|done]. }
    pose proof (Codegen_args_post Args IH [] g) as H.
    destruct (Codegen_args Args [] g) as [[ArgsV|] g1]; cbn [fst snd] in *.
    + eapply lowering_post_seq;
        [exact H|apply (lowering_post_ok [] g1 True)| |].
      * unfold CreateCall. apply Insert_stderr.
      * done.
      * simpl. by intros ?.
      * split; eauto.
    + eapply lowering_post_iff; [|exact H]. split; by intros [? [=]].
Qed.

End LoweringReports.

Section DefinitionReports.
Import LLVM Codegen.

Lemma bind_arguments_stderr F Args Idx g :
  stderr (bind_arguments F Idx Args g) = stderr g.
Proof. by destruct (bind_arguments_frame F Args Idx g) as (_ & ? & _). Qed.

Lemma PrototypeAST_Codegen_reported P g :
  ∃ new, reported g (PrototypeAST_Codegen P g).2 new ∧
         Forall (λ s, s ∈ redefinition_errors) new ∧
         (is_Some (PrototypeAST_Codegen P g).1 → new = []) ∧
         (fresh_ids g → (PrototypeAST_Codegen P g).1 = None → new ≠ []).
Proof.
  assert (∀ s g', stderr g' = stderr g → s ∈ redefinition_errors →
            ∃ new, reported g (fprintf_stderr (ErrorLine s) g') new ∧
                   Forall (λ s, s ∈ redefinition_errors) new ∧
                   (is_Some (@None nat) → new = []) ∧
                   (fresh_ids g → @None nat = None → new ≠ [])) as Herr.
  { intros s g' Hg Hs. exists [s]. split; [|split; [by constructor|]].
    - unfold reported. simpl. by rewrite Hg.
    - split; [by intros [? [=]]|done]. }
  assert (∀ (F : nat) g', stderr g' = stderr g →
            ∃ new, reported g g' new ∧
                   Forall (λ s, s ∈ redefinition_errors) new ∧
                   (is_Some (Some F) → new = []) ∧
                   (fresh_ids g → Some F = None → new ≠ [])) as Hok.
  { intros F g' Hg. exists []. split; [by apply reported_refl|].
    split; [constructor|]. split; done. }
  destruct (decide (fresh_ids g)) as [Hf|Hf].
  - destruct P as [Name Args].
    pose proof (PrototypeAST_Codegen_spec Name Args g Hf) as H.
    cbv zeta in H.
    destruct (getFunction Name (TheModule g)) as [f|].
    + destruct H as (lu & ->).
      destruct (negb (empty f)); [apply Herr; [done|list_elem]|].
      destruct (negb _); [apply Herr; [done|list_elem]|].
      apply Hok. cbn [snd]; by rewrite bind_arguments_stderr.
    + rewrite H. apply Hok. cbn [snd]; by rewrite bind_arguments_stderr.
  - unfold PrototypeAST_Codegen, Function_Create.
    assert (∀ g', stderr g' = stderr g →
              ∃ new, reported g g' new ∧
                     Forall (λ s, s ∈ redefinition_errors) new ∧
                     (is_Some (@None nat) → new = []) ∧
                     (fresh_ids g → @None nat = None → new ≠ [])) as Hnone.
    { intros g' Hg. exists []. split; [by apply reported_refl|].
      split; [constructor|]. split; done. }
    destruct (String.eqb _ _ || negb _);
      [|destruct (createValueName _ _ _ _) as [name lu]];
      (destruct (negb (String.eqb _ _));
         [|cbn [fst snd]; apply Hok; cbn [snd]; by rewrite bind_arguments_stderr]);
      (destruct (getFunction _ _) as [f|]; [|by apply Hnone]);
      (destruct (negb (empty f)); [apply Herr; [done|list_elem]|]);
      (destruct (negb (Nat.eqb _ _)); [apply Herr; [done|list_elem]|]);
      cbn [fst snd]; apply Hok; cbn [snd]; by rewrite bind_arguments_stderr.
Qed.

Lemma FunctionAST_Codegen_reported FA g :
  ∃ new, reported g (FunctionAST_Codegen FA g).2 new ∧
         Forall (λ s, s ∈ redefinition_errors ++ codegen_errors) new ∧
         (is_Some (FunctionAST_Codegen FA g).1 → new = []) ∧
         (fresh_ids g → (FunctionAST_Codegen FA g).1 = None → new ≠ []) ∧
         (Forall (λ c, c ∈ lowered_operators) (operators (Body FA)) →
          "invalid binary operator" ∉ new).
Proof.
  unfold FunctionAST_Codegen.
  destruct (PrototypeAST_Codegen_reported (Proto FA) (set_NamedValues ∅ g))
    as (n1 & H1 & F1 & S1 & N1).
  destruct (PrototypeAST_Codegen (Proto FA) (set_NamedValues ∅ g))
    as [[F|] g1]; cbn [fst snd] in *.
  2: { exists n1. split; [done|]. split.
       { eapply Forall_impl; [exact F1|]. intros s Hs.
         apply elem_of_app. by left. }
       split; [by intros [? [=]]|]. split; [auto|].
       intros _ Hin. rewrite Forall_forall in F1.
       apply F1, list_elem_of_In in Hin. simpl in Hin.
       intuition discriminate. }
  rewrite (S1 ltac:(eauto)) in H1. clear n1 F1 S1 N1.
  destruct (BasicBlock_Create "entry" F g1) as [BB g2] eqn:EB.
  assert (stderr (SetInsertPoint BB g2) = stderr g) as Hb.
  { apply (f_equal snd) in EB. simpl in EB. subst g2.
    unfold reported in H1. simpl in *. by rewrite app_nil_r in H1. }
  destruct (ExprAST_Codegen_post (Body FA) (SetInsertPoint BB g2))
    as (n2 & H2 & F2 & S2 & O2).
  destruct (ExprAST_Codegen (Body FA) (SetInsertPoint BB g2)) as [[V|] g3];
    cbn [fst snd] in *.
  - unfold CreateRet, verifyFunction.
    pose proof (Insert_stderr (ReturnInst V) g3) as Hi.
    destruct (Insert (ReturnInst V) g3) as [I g4]. cbn [fst snd] in *.
    destruct S2 as [S2 _]. rewrite (S2 ltac:(eauto)) in H2.
    exists []. split.
    { unfold reported in *. simpl in *. rewrite Hi, H2, Hb. done. }
    split; [constructor|]. split; [done|]. split; [done|].
    intros _. apply not_elem_of_nil.
  - exists n2. split.
    { unfold reported in *. simpl. by rewrite H2, Hb. }
    split.
    { eapply Forall_impl; [exact F2|]. intros s Hs.
      apply elem_of_app. by right. }
    split; [by intros [? [=]]|]. split; [|done].
    intros _ _ ->. destruct S2 as [_ S2]. by destruct (S2 eq_refl) as [? [=]].
Qed.

End DefinitionReports.

(** * What [main] reports *)

Section MainReports.
Import Parser Driver.

Lemma diagnostics_app g g' out :
  stderr g' = stderr g ++ out →
  diagnostics g' =
  diagnostics g ++
  omap (λ o, match o with ErrorLine Str => Some Str | _ => None end) out.
Proof. unfold diagnostics. intros ->. by rewrite omap_app. Qed.

Lemma diagnostics_same g g' : stderr g' = stderr g → diagnostics g' = diagnostics g.
Proof. unfold diagnostics. by intros ->. Qed.

Lemma diagnostics_reported g g' new :
  reported g g' new → diagnostics g' = diagnostics g ++ new.
Proof.
  intros H%diagnostics_app. rewrite H. f_equal. clear H.
  induction new as [|s new IH]; [done|].
  change (s :: omap (λ o, match o with ErrorLine Str => Some Str | _ => None end)
                 (map ErrorLine new) = s :: new).
  by rewrite IH.
Qed.

Lemma reports_known_same g g' :
  stderr g' = stderr g → same_precedences g g' →
  reports_known g → reports_known g'.
Proof.
  intros Hs Ht [H1 H2]. split.
  - intros c. rewrite Ht. apply H1.
  - by rewrite (diagnostics_same _ _ Hs).
Qed.

Lemma reports_known_print o g :
  (∀ s, o ≠ ErrorLine s) → reports_known g →
  reports_known (fprintf_stderr o g).
Proof.
  intros Ho [H1 H2]. split; [done|].
  rewrite (diagnostics_app g _ [o]) by done.
  destruct o; simpl; rewrite ?app_nil_r; try done. by destruct (Ho Str).
Qed.

Lemma reports_known_parsed {A} g (a : option A) g' :
  reports g a g' → same_precedences g g' →
  reports_known g → reports_known g'.
Proof.
  intros Hr Ht [H1 H2]. split.
  { intros c. rewrite Ht. apply H1. }
  destruct a as [x|]; simpl in Hr.
  - by rewrite (diagnostics_same _ _ Hr).
  - destruct Hr as (s & Hs & Hr).
    rewrite (diagnostics_app _ _ _ Hr). simpl.
    apply Forall_app. split; [done|]. constructor; [|constructor].
    apply elem_of_app. by left.
Qed.

Lemma reports_known_token g :
  reports_known g → reports_known (getNextToken g).2.
Proof.
  destruct (getNextToken g) as [t g1] eqn:E. simpl.
  apply reports_known_same.
  - by apply getNextToken_stderr in E.
  - by apply getNextToken_table in E.
Qed.

Lemma frontend_table g g' : frontend g' = frontend g → same_precedences g g'.
Proof.
  unfold frontend. intros [= _ _ _ _ _ H] c. unfold precedence_of.
  by rewrite H.
Qed.

Lemma reports_known_prototype P g :
  reports_known g → reports_known (Codegen.PrototypeAST_Codegen P g).2.
Proof.
  intros [H1 H2].
  destruct (PrototypeAST_Codegen_reported P g) as (new & Hr & Hn & _).
  pose proof (frontend_table _ _ (PrototypeAST_Codegen_frontend P g)) as Ht.
  split.
  { intros c. rewrite Ht. apply H1. }
  rewrite (diagnostics_reported _ _ _ Hr). apply Forall_app. split; [done|].
  eapply Forall_impl; [exact Hn|]. intros s Hs.
  apply elem_of_app. right. apply elem_of_app. by left.
Qed.

Lemma reports_known_function FA g :
  reports_known g → operators_of_table g (Body FA) →
  reports_known (Codegen.FunctionAST_Codegen FA g).2.
Proof.
  intros [H1 H2] Hops.
  destruct (FunctionAST_Codegen_reported FA g) as (new & Hr & Hn & _ & _ & Ho).
  pose proof (frontend_table _ _ (FunctionAST_Codegen_frontend FA g)) as Ht.
  split.
  { intros c. rewrite Ht. apply H1. }
  rewrite (diagnostics_reported _ _ _ Hr). apply Forall_app. split; [done|].
  assert ("invalid binary operator" ∉ new) as Hinv.
  { apply Ho. eapply Forall_impl; [exact Hops|]. simpl. auto. }
  rewrite Forall_forall in *. intros s Hs.
  specialize (Hn s Hs).
  apply elem_of_app in Hn as [Hn|Hn].
  { apply elem_of_app. right. apply elem_of_app. by left. }
  apply list_elem_of_In in Hn. simpl in Hn.
  destruct Hn as [<-|[<-|[<-|[<-|[]]]]]; [list_elem|by destruct Hinv|..];
    list_elem.
Qed.

Lemma reports_known_dump F s g :
  reports_known g → reports_known (dump F (fprintf_stderr (Text s) g)).
Proof.
  intros H. unfold dump. by do 2 (apply reports_known_print; [done|]).
Qed.

Lemma HandleDefinition_reports_known n g g' :
  reports_known g → HandleDefinition n g = Done tt g' → reports_known g'.
Proof.
  unfold HandleDefinition. intros Hg.
  destruct (ParseDefinition n g) as [[F|] g1|] eqn:E; [| |done];
    cbn [Res_bind].
  - pose proof (ParseDefinition_operators _ _ _ _ E) as Hops.
    apply ParseDefinition_reports in E as [Hr Ht].
    pose proof (reports_known_parsed _ _ _ Hr Ht Hg) as Hg1.
    apply (operators_of_table_same _ _ _ Ht) in Hops.
    pose proof (reports_known_function F g1 Hg1 Hops) as Hg2.
    destruct (Codegen.FunctionAST_Codegen F g1) as [[LF|] g2];
      intros [= <-]; [by apply reports_known_dump|done].
  - apply ParseDefinition_reports in E as [Hr Ht].
    pose proof (reports_known_parsed _ _ _ Hr Ht Hg) as Hg1.
    pose proof (reports_known_token g1 Hg1) as Hg2.
    destruct (getNextToken g1). by intros [= <-].
Qed.

Lemma HandleExtern_reports_known n g g' :
  reports_known g → HandleExtern n g = Done tt g' → reports_known g'.
Proof.
  unfold HandleExtern. intros Hg.
  destruct (ParseExtern n g) as [[P|] g1|] eqn:E; [| |done];
    cbn [Res_bind].
  - apply ParseExtern_reports in E as [Hr Ht].
    pose proof (reports_known_parsed _ _ _ Hr Ht Hg) as Hg1.
    pose proof (reports_known_prototype P g1 Hg1) as Hg2.
    destruct (Codegen.PrototypeAST_Codegen P g1) as [[LF|] g2];
      intros [= <-]; [by apply reports_known_dump|done].
  - apply ParseExtern_reports in E as [Hr Ht].
    pose proof (reports_known_parsed _ _ _ Hr Ht Hg) as Hg1.
    pose proof (reports_known_token g1 Hg1) as Hg2.
    destruct (getNextToken g1). by intros [= <-].
Qed.

Lemma HandleTopLevelExpression_reports_known n g g' :
  reports_known g → HandleTopLevelExpression n g = Done tt g' →
  reports_known g'.
Proof.
  unfold HandleTopLevelExpression. intros Hg.
  destruct (ParseTopLevelExpr n g) as [[F|] g1|] eqn:E; [| |done];
    cbn [Res_bind].
  - pose proof (ParseTopLevelExpr_operators _ _ _ _ E) as Hops.
    apply ParseTopLevelExpr_reports in E as [Hr Ht].
    pose proof (reports_known_parsed _ _ _ Hr Ht Hg) as Hg1.
    apply (operators_of_table_same _ _ _ Ht) in Hops.
    pose proof (reports_known_function F g1 Hg1 Hops) as Hg2.
    destruct (Codegen.FunctionAST_Codegen F g1) as [[LF|] g2];
      intros [= <-]; [by apply reports_known_dump|done].
  - apply ParseTopLevelExpr_reports in E as [Hr Ht].
    pose proof (reports_known_parsed _ _ _ Hr Ht Hg) as Hg1.
    pose proof (reports_known_token g1 Hg1) as Hg2.
    destruct (getNextToken g1). by intros [= <-].
Qed.

Lemma MainLoop_reports_known n : ∀ g g',
  reports_known g → MainLoop n g = Done tt g' → reports_known g'.
Proof.
  induction n as [|n IH]; intros g g' Hg H; [done|].
  rewrite MainLoop_S in H. cbv zeta in H.
  assert (reports_known (fprintf_stderr (Text "pon> ") g)) as Hg0
    by (by apply reports_known_print).
  revert Hg0 H. generalize (fprintf_stderr (Text "pon> ") g).
  clear Hg g. intros g0 Hg0 H.
  destruct (CurTok g0 =? tok_eof); [by injection H as <-|].
  match type of H with Res_bind ?r _ = _ =>
    destruct r as [[] g1|] eqn:E; [|done] end.
  cbn [Res_bind] in H. apply (IH g1); [|done].
  destruct (CurTok g0 =? chr ";").
  { pose proof (reports_known_token g0 Hg0) as Hg1.
    destruct (getNextToken g0). by injection E as <-. }
  destruct (CurTok g0 =? tok_def);
    [by eapply HandleDefinition_reports_known|].
  destruct (CurTok g0 =? tok_extern);
    [by eapply HandleExtern_reports_known|].
  by eapply HandleTopLevelExpression_reports_known.
Qed.

Lemma startup_reports_known input : reports_known (startup input).
Proof.
  split; [apply startup_operators|].
  unfold startup.
  destruct (getNextToken _) as [t g1] eqn:E.
  apply getNextToken_stderr in E.
  assert (diagnostics (set_TheModule (mkModule [] 0) g1) = []) as ->;
    [|constructor].
  unfold diagnostics. cbn [stderr set_TheModule]. by rewrite E.
Qed.

End MainReports.

(** X18.  What [main] can report.  Whatever the input, every line that
    [Error] has written when [main] returns has one of eleven texts: the
    six of the parser, the two of [PrototypeAST::Codegen] and three of the
    four of the expressions.  [invalid binary operator] is not among them:
    the parser builds a binary node only for a character with a positive
    precedence in the table, [main] gives one to [<], [+], [-] and [*]
    only, and each of these has its case in [BinaryExprAST::Codegen]. *)
Theorem main_reports_known_errors n input :
  returned (Driver.main n input)
    (λ _ g, Forall (λ s, s ∈ main_errors) (diagnostics g) ∧
            "invalid binary operator" ∉ diagnostics g).
Proof.
  unfold returned, Driver.main.
  destruct (Driver.MainLoop n (startup input)) as [[] g|] eqn:E; [|done].
  cbn [Res_bind].
  apply MainLoop_reports_known in E as [_ H]; [|apply startup_reports_known].
  assert (diagnostics (fprintf_stderr (DumpModule (TheModule g)) g) =
          diagnostics g) as ->.
  { rewrite (diagnostics_app g _ [DumpModule (TheModule g)]) by done.
    simpl. by rewrite app_nil_r. }
  split; [done|]. intros Hin. rewrite Forall_forall in H.
  apply H, list_elem_of_In in Hin. simpl in Hin. intuition discriminate.
Qed.

(** X19.  The module [main] leaves is well formed.  When [main] returns,
    every handle in the module is below the next handle to be handed out,
    and two functions of the module with the same name that is not empty
    are the same function: the invariant LLVM's symbol table keeps, which
    the statements on redefinition and on rolling back assume. *)
Theorem main_keeps_module_invariant n input :
  returned (Driver.main n input) (λ _ g, fresh_ids g ∧ unique_names g).
Proof.
  unfold returned, Driver.main.
  destruct (Driver.MainLoop n (startup input)) as [[] g|] eqn:E; [|done].
  cbn [Res_bind]. apply MainLoop_wf in E; [done|apply wf_startup].
Qed.

(** X17.  What the lowering reports.  [Codegen] of an expression writes
    to [stderr] only by [Error], with texts of its own four; it writes
    nothing exactly when it returns a value, so a null result always comes
    with at least one report (and with more than one when both operands of
    an operator fail); and it reports [invalid binary operator] only for
    an expression with an operator other than [+], [-], [*], [<].
    [FunctionAST::Codegen] and [PrototypeAST::Codegen] likewise report
    nothing when they return a function; when the handle counter is above
    every handle in use, as LLVM keeps it, their null result comes with at
    least one report. *)
Theorem lowering_reports g :
  (∀ e,
     let r := Codegen.ExprAST_Codegen e g in
     ∃ new, reported g r.2 new ∧ Forall (λ s, s ∈ codegen_errors) new ∧
            (is_Some r.1 ↔ new = []) ∧
            (Forall (λ c, c ∈ lowered_operators) (operators e) →
             "invalid binary operator" ∉ new)) ∧
  (∀ P,
     let r := Codegen.PrototypeAST_Codegen P g in
     ∃ new, reported g r.2 new ∧ Forall (λ s, s ∈ redefinition_errors) new ∧
            (is_Some r.1 → new = []) ∧
            (fresh_ids g → r.1 = None → new ≠ [])) ∧
  (∀ FA,
     let r := Codegen.FunctionAST_Codegen FA g in
     ∃ new, reported g r.2 new ∧
            Forall (λ s, s ∈ redefinition_errors ++ codegen_errors) new ∧
            (is_Some r.1 → new = []) ∧
            (fresh_ids g → r.1 = None → new ≠ [])).
Proof.
  split_and!.
  - intros e. apply ExprAST_Codegen_post.
  - intros P. apply PrototypeAST_Codegen_reported.
  - intros FA r.
    destruct (FunctionAST_Codegen_reported FA g) as (new & ? & ? & ? & ? & _).
    by exists new.
Qed.

(** * The functions of the module *)

Section LoweringPreorder.
Import LLVM Codegen.

Variable R : Globals → Globals → Prop.
Hypothesis R_refl : ∀ g, R g g.
Hypothesis R_trans : ∀ g1 g2 g3, R g1 g2 → R g2 g3 → R g1 g3.
Hypothesis R_Insert : ∀ I g, is_terminator I = false → R g (Insert I g).2.
Hypothesis R_Error : ∀ s g, R g (fprintf_stderr (ErrorLine s) g).
Hypothesis R_null :
  ∀ Name g, R g (set_NamedValues (<[Name := None]> (NamedValues g)) g).

Lemma Codegen_args_preorder Args :
  Forall (λ e, ∀ g, R g (ExprAST_Codegen e g).2) Args →
  ∀ ArgsV g, R g (Codegen_args Args ArgsV g).2.
Proof.
  induction 1 as [|Arg Args HArg _ IH]; intros ArgsV g; simpl; [done|].
  specialize (HArg g). destruct (ExprAST_Codegen Arg g) as [[V|] g1]; [|done].
  eapply R_trans; [exact HArg|apply IH].
Qed.

(** A relation between globals that holds across every step of the
    lowering of an expression holds across the lowering. *)
Lemma ExprAST_Codegen_preorder e : ∀ g, R g (ExprAST_Codegen e g).2.
Proof.
  induction e as [Val|Name|Op LHS RHS IHL IHR|Callee Args IH]
    using ExprAST_induction; intros g.
  - apply R_refl.
  - simpl. unfold NamedValues_index.
    destruct (NamedValues g !! Name) as [[V|]|]; simpl.
    + apply R_refl.
    + apply R_Error.
    + eapply R_trans; [apply R_null|apply R_Error].
  - rewrite Binary_unfold. specialize (IHL g).
    destruct (ExprAST_Codegen LHS g) as [L g1]. specialize (IHR g1).
    destruct (ExprAST_Codegen RHS g1) as [R' g2]. simpl in *.
    assert (R g g2) as H12 by (by eapply R_trans).
    destruct L as [L|], R' as [R'|]; try done.
    eapply R_trans; [exact H12|].
    unfold CreateFAdd, CreateFSub, CreateFMul, CreateFCmpULT, CreateUIToFP.
    destruct (Ascii.eqb Op "+"); [by apply R_Insert|].
    destruct (Ascii.eqb Op "-"); [by apply R_Insert|].
    destruct (Ascii.eqb Op "*"); [by apply R_Insert|].
    destruct (Ascii.eqb Op "<"); [|apply R_Error].
    pose proof (R_Insert (FCmpULT L R' "cmptmp") g2 eq_refl) as H.
    destruct (Insert (FCmpULT L R' "cmptmp") g2) as [L' g3].
    eapply R_trans; [exact H|by apply R_Insert].
  - rewrite Call_unfold.
    destruct (getFunction Callee (TheModule g)) as [f|]; [|apply R_Error].
    destruct (negb _); [apply R_Error|].
    pose proof (Codegen_args_preorder Args IH [] g) as H.
    destruct (Codegen_args Args [] g) as [[ArgsV|] g1]; [|done].
    eapply R_trans; [exact H|by apply R_Insert].
Qed.

End LoweringPreorder.

Section ModuleClosed.
Import LLVM Codegen.

Lemma updated_ids F (h : Function → Function) fs :
  (∀ f, fid (h f) = fid f) →
  map fid (map (λ f, if Nat.eqb (fid f) F then h f else f) fs) = map fid fs.
Proof.
  intros Hh. rewrite map_map. apply map_ext. intros f.
  by destruct (Nat.eqb (fid f) F).
Qed.

Lemma updated_elem F (h : Function → Function) fs f' :
  f' ∈ map (λ f, if Nat.eqb (fid f) F then h f else f) fs →
  ∃ f, f ∈ fs ∧ f' = if Nat.eqb (fid f) F then h f else f.
Proof.
  change (@map Function Function) with (@fmap list _ Function Function).
  intros (f & -> & Hf)%list_elem_of_fmap. eauto.
Qed.

Lemma updated_here F (h : Function → Function) fs f :
  f ∈ fs → fid f = F →
  h f ∈ map (λ f, if Nat.eqb (fid f) F then h f else f) fs.
Proof.
  change (@map Function Function) with (@fmap list _ Function Function).
  intros Hf HF. apply list_elem_of_fmap. exists f. split; [|done].
  by rewrite HF, Nat.eqb_refl.
Qed.

Lemma find_NoDup fs f :
  NoDup (map fid fs) → f ∈ fs →
  find (λ x, Nat.eqb (fid x) (fid f)) fs = Some f.
Proof.
  induction fs as [|a fs IH]; [by intros _ ?%elem_of_nil|].
  simpl. intros [Ha Hfs]%NoDup_cons [->|Hf]%elem_of_cons.
  - by rewrite Nat.eqb_refl.
  - destruct (Nat.eqb (fid a) (fid f)) eqn:E; [|by apply IH].
    apply Nat.eqb_eq in E. destruct Ha. rewrite E.
    change (@map Function nat) with (@fmap list _ Function nat).
    apply list_elem_of_fmap. eauto.
Qed.

Lemma straight_line_app insts I :
  straight_line insts = true → is_terminator I = false →
  straight_line (insts ++ [I]) = true.
Proof.
  unfold straight_line. intros H HI. rewrite forallb_app, H. simpl.
  by rewrite HI.
Qed.

(** One more instruction in the open block. *)
Lemma Insert_open I F insts g :
  open_at F insts g →
  let g' := (Insert I g).2 in
  NoDup (map fid (functions (TheModule g'))) ∧
  Builder g' = Some (F, 0%nat) ∧
  (∃ f, f ∈ functions (TheModule g') ∧ fid f = F ∧
        fblocks f = [mkBasicBlock "entry" (insts ++ [I])]) ∧
  Forall (λ f, fid f ≠ F → closed f) (functions (TheModule g')) ∧
  shape g' = shape g ∧ heap g' = heap g.
Proof.
  intros (Hnd & HB & (f & Hf & HF & Hbl) & Hsl & Hcl).
  unfold Insert. rewrite HB. cbn [snd].
  set (h := λ f : Function,
         mkFunction (fid f) (fname f) (farg_size f)
           (alter (λ b, mkBasicBlock (bb_name b) (bb_insts b ++ [I]))
                  0%nat (fblocks f))).
  unfold update_function. cbn [TheModule set_TheModule functions Builder].
  split; [by rewrite updated_ids|]. split; [done|]. split; [|split].
  - exists (h f). split; [by apply updated_here|]. split; [done|].
    simpl. by rewrite Hbl.
  - rewrite Forall_forall in *. intros f' (f0 & Hf0 & ->)%updated_elem Hne.
    destruct (Nat.eqb (fid f0) F) eqn:E.
    + apply Nat.eqb_eq in E. by destruct Hne.
    + apply Nat.eqb_neq in E. auto.
  - split; [|done]. by apply (update_function_shape F h g).
Qed.

Lemma open_step I g :
  is_terminator I = false →
  ∀ F insts, open_at F insts g → ∃ insts', open_at F insts' (Insert I g).2.
Proof.
  intros HI F insts Ho.
  destruct (Insert_open I F insts g Ho) as (? & ? & ? & ? & _).
  exists (insts ++ [I]). destruct Ho as (_ & _ & _ & Hsl & _).
  split_and!; try done. by apply straight_line_app.
Qed.

Lemma ExprAST_Codegen_open e g F insts :
  open_at F insts g → ∃ insts', open_at F insts' (ExprAST_Codegen e g).2.
Proof.
  revert F insts.
  apply (ExprAST_Codegen_preorder
           (λ g g', ∀ F insts, open_at F insts g → ∃ insts', open_at F insts' g')).
  - eauto.
  - intros g1 g2 g3 H12 H23 F insts (insts' & H)%H12. by apply H23 in H.
  - intros I g0 HI. by apply open_step.
  - eauto.
  - eauto.
Qed.

Lemma module_closed_backend g g' :
  backend g' = backend g → module_closed g → module_closed g'.
Proof.
  intros Hb (Hwf & Hnd & Hcl). split; [by apply (wf_backend g)|].
  revert Hb. unfold backend. intros [= HM _ _ _]. by rewrite HM.
Qed.

Lemma fresh_not_in g :
  fresh_ids g → heap g ∉ map fid (functions (TheModule g)).
Proof.
  unfold fresh_ids. rewrite Forall_forall.
  change (@map Function nat) with (@fmap list _ Function nat).
  intros H (f & Hf & Hin)%list_elem_of_fmap. apply H in Hin. lia.
Qed.

(** What [PrototypeAST::Codegen] leaves: a closed module, and when it
    returns a function, one of the name and arity asked for that has no
    block yet. *)
Lemma PrototypeAST_Codegen_closed P g :
  module_closed g →
  let r := PrototypeAST_Codegen P g in
  module_closed r.2 ∧
  ∀ F, r.1 = Some F →
       ∃ f, f ∈ functions (TheModule r.2) ∧ fid f = F ∧ fblocks f = [] ∧
            fname f = proto_Name P ∧ farg_size f = length (proto_Args P).
Proof.
  intros (Hwf & Hnd & Hcl) r.
  pose proof (wf_PrototypeAST_Codegen P g Hwf) as Hwf'. fold r in Hwf'.
  destruct P as [Name Args].
  pose proof (PrototypeAST_Codegen_spec Name Args g (proj1 Hwf)) as H.
  cbv zeta in H. fold r in H.
  assert (∀ F g0, TheModule (bind_arguments F 0 Args g0) = TheModule g0)
    as Hbind by (intros F g0; by destruct (bind_arguments_frame F Args 0 g0)).
  destruct (getFunction Name (TheModule g)) as [f|] eqn:Eget.
  - destruct H as (lu & H).
    assert (functions (TheModule r.2) = functions (TheModule g)) as Hfs.
    { rewrite H. destruct (negb (empty f)); [done|].
      destruct (negb _); [done|]. cbn [snd]. by rewrite Hbind. }
    split; [split; [done|by rewrite Hfs]|].
    intros F HF. rewrite Hfs. rewrite H in HF.
    destruct (negb (empty f)) eqn:Ee; [done|].
    destruct (negb (Nat.eqb _ _)) eqn:Ea; [done|]. cbn [fst] in HF.
    injection HF as <-.
    unfold getFunction in Eget. destruct (String.eqb Name ""); [done|].
    apply find_Some_elem in Eget as [Hf Hn]. exists f.
    split; [done|]. split; [done|].
    apply negb_false_iff in Ee, Ea. unfold empty in Ee.
    apply Nat.eqb_eq in Ea. apply String.eqb_eq in Hn.
    by destruct (fblocks f).
  - assert (functions (TheModule r.2) =
            functions (TheModule g) ++
              [mkFunction (heap g) Name (length Args) []]) as Hfs.
    { rewrite H. cbn [snd]. by rewrite Hbind. }
    split.
    + split; [done|]. rewrite Hfs. split.
      * rewrite map_app. apply NoDup_app. split; [done|]. split.
        -- intros x Hx [->|[]%elem_of_nil]%elem_of_cons.
           by apply (fresh_not_in g (proj1 Hwf)).
        -- apply NoDup_singleton.
      * apply Forall_app. split; [done|]. constructor; [by left|constructor].
    + intros F HF. rewrite H in HF. cbn [fst] in HF. injection HF as <-.
      rewrite Hfs.
      eexists. split; [apply elem_of_app; right; left|]. done.
Qed.

Lemma shape_here g g' f :
  shape g' = shape g → NoDup (map fid (functions (TheModule g'))) →
  f ∈ functions (TheModule g) →
  ∀ f', f' ∈ functions (TheModule g') → fid f' = fid f →
        fname f' = fname f ∧ farg_size f' = farg_size f.
Proof.
  intros Hs Hnd Hf f' Hf' Hid.
  assert ((fid f, fname f, farg_size f) ∈ shape g') as Hin.
  { rewrite Hs. unfold shape.
    change (@map Function) with (@fmap list _ Function).
    apply list_elem_of_fmap. eauto. }
  unfold shape in Hin. change (@map Function) with (@fmap list _ Function) in Hin.
  apply list_elem_of_fmap in Hin as (f0 & [= H1 H2 H3] & Hf0).
  assert (f0 = f') as ->; [|done].
  pose proof (find_NoDup _ _ Hnd Hf0) as E0.
  pose proof (find_NoDup _ _ Hnd Hf') as E'.
  rewrite <- H1, <- Hid in E0. congruence.
Qed.

(** What [FunctionAST::Codegen] leaves: a closed module, and when it
    returns a function, the definition of the name and arity asked for. *)
Lemma FunctionAST_Codegen_defines FA g :
  module_closed g →
  let r := FunctionAST_Codegen FA g in
  module_closed r.2 ∧
  ∀ F, r.1 = Some F →
       ∃ f insts V,
         deref F (TheModule r.2) = Some f ∧
         fname f = proto_Name (Proto FA) ∧
         farg_size f = length (proto_Args (Proto FA)) ∧
         fblocks f = [mkBasicBlock "entry" (insts ++ [ReturnInst V])] ∧
         straight_line insts = true.
Proof.
  intros Hg r.
  pose proof (wf_FunctionAST_Codegen FA g (proj1 Hg)) as Hwf. fold r in Hwf.
  match goal with |- _ ∧ ?Q =>
    enough ((NoDup (map fid (functions (TheModule r.2))) ∧
             Forall closed (functions (TheModule r.2))) ∧ Q)
      as [[? ?] ?] by (split; [split; [exact Hwf|split; assumption]|assumption])
  end.
  clear Hwf. unfold r, FunctionAST_Codegen. clear r.
  assert (module_closed (set_NamedValues ∅ g)) as Hg0 by done.
  destruct (PrototypeAST_Codegen_closed (Proto FA) _ Hg0)
    as ((Hwf1 & Hnd1 & Hcl1) & HF).
  destruct (PrototypeAST_Codegen (Proto FA) (set_NamedValues ∅ g))
    as [[F|] g1]; cbn [fst snd] in *; [|done].
  destruct (HF F eq_refl) as (f & Hf & HfF & Hbl & Hname & Harity). clear HF.
  assert (deref F (TheModule g1) = Some f) as Hderef.
  { unfold deref. rewrite <- HfF. by apply find_NoDup. }
  unfold BasicBlock_Create. rewrite Hderef, Hbl. cbn [length].
  set (h := λ f : Function,
         mkFunction (fid f) (fname f) (farg_size f)
           (fblocks f ++ [mkBasicBlock "entry" []])).
  set (g2 := SetInsertPoint (F, 0%nat) (update_function F h g1)).
  assert (shape g2 = shape g1) as Hs2
    by (by apply (update_function_shape F h g1)).
  assert (open_at F [] g2) as Ho.
  { unfold g2, SetInsertPoint, update_function.
    split; [simpl; by rewrite updated_ids|]. split; [done|]. split; [|split].
    - exists (h f). split; [by apply updated_here|]. split; [done|].
      simpl. by rewrite Hbl.
    - done.
    - simpl. rewrite Forall_forall in *.
      intros f' (f0 & Hf0 & ->)%updated_elem Hne.
      destruct (Nat.eqb (fid f0) F) eqn:E.
      + apply Nat.eqb_eq in E. by destruct Hne.
      + auto. }
  destruct (ExprAST_Codegen_open (Body FA) g2 F [] Ho) as (insts & Ho3).
  destruct (ExprAST_Codegen_frame (Body FA) g2) as (Hs3 & _).
  destruct (ExprAST_Codegen (Body FA) g2) as [[V|] g3]; cbn [fst snd] in *.
  - unfold CreateRet, verifyFunction.
    destruct (Insert_open (ReturnInst V) F insts g3 Ho3)
      as (Hnd4 & _ & (f4 & Hf4 & HfF4 & Hbl4) & Hcl4 & Hs4 & _).
    destruct Ho3 as (Hnd3 & _ & _ & Hsl3 & _).
    destruct (Insert (ReturnInst V) g3) as [I g4]. cbn [fst snd] in *.
    split; [split; [done|]|].
    + rewrite Forall_forall in *. intros f' Hf'.
      destruct (decide (fid f' = F)) as [E|E]; [|by apply Hcl4].
      assert (f' = f4) as ->.
      { pose proof (find_NoDup _ _ Hnd4 Hf') as H1.
        pose proof (find_NoDup _ _ Hnd4 Hf4) as H2.
        rewrite E in H1. rewrite HfF4 in H2. congruence. }
      right. eauto.
    + intros ? [= <-]. exists f4, insts, V.
      assert (shape g4 = shape g1) as Hs41 by congruence.
      destruct (shape_here g1 g4 f Hs41 Hnd4 Hf f4 Hf4) as [Hn4 Ha4];
        [congruence|].
      split; [|split; [congruence|split; [congruence|done]]].
      unfold deref. rewrite <- HfF4. by apply find_NoDup.
  - split; [|done]. destruct Ho3 as (Hnd3 & _ & _ & _ & Hcl3).
    unfold eraseFromParent. cbn [TheModule set_TheModule functions].
    split.
    + change (@map Function nat) with (@fmap list _ Function nat).
      apply NoDup_fmap_2_strong.
      * intros x y [_ Hx]%list_elem_of_filter [_ Hy]%list_elem_of_filter Hxy.
        pose proof (find_NoDup _ _ Hnd3 Hx) as H1.
        pose proof (find_NoDup _ _ Hnd3 Hy) as H2.
        rewrite Hxy in H1. congruence.
      * apply NoDup_filter.
        apply (NoDup_fmap_1 fid). exact Hnd3.
    + rewrite Forall_forall in *.
      intros f' [Hne Hin]%list_elem_of_filter. by apply Hcl3.
Qed.

Lemma FunctionAST_Codegen_closed FA g :
  module_closed g → module_closed (FunctionAST_Codegen FA g).2.
Proof. intros Hg. by destruct (FunctionAST_Codegen_defines FA g Hg). Qed.

End ModuleClosed.

Section MainClosed.
Import Parser Driver.

Lemma module_closed_startup input : module_closed (startup input).
Proof.
  unfold startup. destruct (getNextToken _) as [t g].
  split; [split; constructor|]. split; constructor.
Qed.

Lemma module_closed_token g : module_closed g → module_closed (getNextToken g).2.
Proof.
  destruct (getNextToken g) as [t g1] eqn:E. simpl.
  apply module_closed_backend. by apply getNextToken_backend in E.
Qed.

Lemma module_closed_dump F s g :
  module_closed g → module_closed (dump F (fprintf_stderr (Text s) g)).
Proof. done. Qed.

Lemma HandleDefinition_closed n g g' :
  module_closed g → HandleDefinition n g = Done tt g' → module_closed g'.
Proof.
  unfold HandleDefinition. intros Hg.
  destruct (ParseDefinition n g) as [[F|] g1|] eqn:E; [| |done];
    cbn [Res_bind]; apply ParseDefinition_backend in E;
    pose proof (module_closed_backend _ _ E Hg) as Hg1.
  - pose proof (FunctionAST_Codegen_closed F g1 Hg1) as Hg2.
    by destruct (Codegen.FunctionAST_Codegen F g1) as [[LF|] g2];
      intros [= <-].
  - pose proof (module_closed_token g1 Hg1) as Hg2.
    destruct (getNextToken g1). by intros [= <-].
Qed.

Lemma HandleExtern_closed n g g' :
  module_closed g → HandleExtern n g = Done tt g' → module_closed g'.
Proof.
  unfold HandleExtern. intros Hg.
  destruct (ParseExtern n g) as [[P|] g1|] eqn:E; [| |done];
    cbn [Res_bind]; apply ParseExtern_backend in E;
    pose proof (module_closed_backend _ _ E Hg) as Hg1.
  - destruct (PrototypeAST_Codegen_closed P g1 Hg1) as [Hg2 _].
    by destruct (Codegen.PrototypeAST_Codegen P g1) as [[LF|] g2];
      intros [= <-].
  - pose proof (module_closed_token g1 Hg1) as Hg2.
    destruct (getNextToken g1). by intros [= <-].
Qed.

Lemma HandleTopLevelExpression_closed n g g' :
  module_closed g → HandleTopLevelExpression n g = Done tt g' →
  module_closed g'.
Proof.
  unfold HandleTopLevelExpression. intros Hg.
  destruct (ParseTopLevelExpr n g) as [[F|] g1|] eqn:E; [| |done];
    cbn [Res_bind]; apply ParseTopLevelExpr_backend in E;
    pose proof (module_closed_backend _ _ E Hg) as Hg1.
  - pose proof (FunctionAST_Codegen_closed F g1 Hg1) as Hg2.
    by destruct (Codegen.FunctionAST_Codegen F g1) as [[LF|] g2];
      intros [= <-].
  - pose proof (module_closed_token g1 Hg1) as Hg2.
    destruct (getNextToken g1). by intros [= <-].
Qed.

Lemma MainLoop_closed n : ∀ g g',
  module_closed g → MainLoop n g = Done tt g' → module_closed g'.
Proof.
  induction n as [|n IH]; intros g g' Hg H; [done|].
  rewrite MainLoop_S in H. cbv zeta in H.
  assert (module_closed (fprintf_stderr (Text "pon> ") g)) as Hg0 by done.
  revert Hg0 H. generalize (fprintf_stderr (Text "pon> ") g).
  clear Hg g. intros g0 Hg0 H.
  destruct (CurTok g0 =? tok_eof); [by injection H as <-|].
  match type of H with Res_bind ?r _ = _ =>
    destruct r as [[] g1|] eqn:E; [|done] end.
  cbn [Res_bind] in H. apply (IH g1); [|done].
  destruct (CurTok g0 =? chr ";").
  { pose proof (module_closed_token g0 Hg0) as Hg1.
    destruct (getNextToken g0). by injection E as <-. }
  destruct (CurTok g0 =? tok_def); [by eapply HandleDefinition_closed|].
  destruct (CurTok g0 =? tok_extern); [by eapply HandleExtern_closed|].
  by eapply HandleTopLevelExpression_closed.
Qed.

End MainClosed.

(** X20.  The functions [main] leaves.  When [main] returns, all handles
    in the module are different, and every function of the module is
    either a declaration, without a block, or has exactly one block,
    called [entry], whose last instruction is a [ret] and which has no
    other: a body that failed to lower has been erased, and one that
    lowered has been closed by [CreateRet].  The same holds after each
    statement, of [FunctionAST::Codegen] and of [PrototypeAST::Codegen]. *)
Theorem main_leaves_closed_functions n input :
  returned (Driver.main n input)
    (λ _ g, NoDup (map fid (functions (TheModule g))) ∧
            Forall closed (functions (TheModule g))) ∧
  ∀ g, module_closed g →
       (∀ FA, module_closed (Codegen.FunctionAST_Codegen FA g).2) ∧
       (∀ P, module_closed (Codegen.PrototypeAST_Codegen P g).2).
Proof.
  split.
  - unfold returned, Driver.main.
    destruct (Driver.MainLoop n (startup input)) as [[] g|] eqn:E; [|done].
    cbn [Res_bind].
    apply MainLoop_closed in E as (_ & ? & ?); [done|].
    apply module_closed_startup.
  - intros g Hg. split.
    + intros FA. by apply FunctionAST_Codegen_closed.
    + intros P. by apply PrototypeAST_Codegen_closed.
Qed.

(** * What the body of a definition may refer to *)

Section Scope.
Import LLVM Codegen.

Lemma bind_arguments_bound F Args : ∀ Idx g x,
  is_bound (bind_arguments F Idx Args g) x =
  bool_decide (x ∈ Args) || is_bound g x.
Proof.
  induction Args as [|a Args IH]; intros Idx g x; [done|].
  cbn [bind_arguments]. rewrite IH.
  assert (is_bound
            (set_NamedValues (<[a:=Some (Argument F Idx)]> (NamedValues g)) g)
            x = bool_decide (x = a) || is_bound g x) as ->.
  { unfold is_bound. cbn [NamedValues set_NamedValues].
    destruct (decide (x = a)) as [->|Hne].
    - by rewrite lookup_insert_eq, bool_decide_eq_true_2.
    - by rewrite lookup_insert_ne, bool_decide_eq_false_2. }
  rewrite orb_assoc. f_equal.
  destruct (decide (x = a)) as [->|Hne].
  - rewrite (bool_decide_eq_true_2 (a = a)) by done.
    rewrite (bool_decide_eq_true_2 (a ∈ a :: Args)) by left.
    by rewrite orb_true_r.
  - rewrite (bool_decide_eq_false_2 (x = a)) by done. rewrite orb_false_r.
    apply bool_decide_ext. rewrite elem_of_cons. tauto.
Qed.

Lemma getFunction_app Name fs f lu lu' :
  getFunction Name (mkModule (fs ++ [f]) lu) =
  match getFunction Name (mkModule fs lu') with
  | Some f0 => Some f0
  | None => if negb (String.eqb Name "") && String.eqb (fname f) Name
            then Some f else None
  end.
Proof.
  unfold getFunction. cbn [functions].
  destruct (String.eqb Name ""); [done|]. cbn [negb andb].
  induction fs as [|a fs IH]; simpl; [done|].
  by destruct (String.eqb (fname a) Name).
Qed.

(** The table of local values and the module as the body of a definition
    finds them. *)
Lemma PrototypeAST_Codegen_scope P g F g1 :
  fresh_ids g →
  PrototypeAST_Codegen P (set_NamedValues ∅ g) = (Some F, g1) →
  (∀ x, is_bound g1 x = bool_decide (x ∈ proto_Args P)) ∧
  (∀ c n, callable g1 c n =
          callable g c n ||
          (negb (String.eqb c "") && String.eqb c (proto_Name P) &&
           Nat.eqb n (length (proto_Args P)))).
Proof.
  intros Hf. destruct P as [Name Args]. cbn [proto_Name proto_Args].
  pose proof (PrototypeAST_Codegen_spec Name Args (set_NamedValues ∅ g) Hf)
    as H.
  cbv zeta in H. cbn [TheModule set_NamedValues heap] in H.
  assert (∀ F0 g0, TheModule (bind_arguments F0 0 Args g0) = TheModule g0)
    as Hbind
    by (intros F0 g0; by destruct (bind_arguments_frame F0 Args 0 g0)).
  destruct (getFunction Name (TheModule g)) as [f|] eqn:Eget.
  - destruct H as (lu & ->).
    destruct (negb (empty f)); [done|].
    destruct (negb (Nat.eqb _ _)) eqn:Ea; [done|].
    intros [= <- <-]. split.
    + intros x. rewrite bind_arguments_bound. unfold is_bound. simpl.
      rewrite lookup_empty. by rewrite orb_false_r.
    + intros c n. unfold callable. rewrite Hbind.
      cbn [TheModule set_heap set_TheModule].
      assert (∀ lu', getFunction c (mkModule (functions (TheModule g)) lu') =
                     getFunction c (TheModule g)) as -> by done.
      destruct (String.eqb c "") eqn:Ec; cbn [negb andb];
        [by rewrite orb_false_r|].
      destruct (String.eqb c Name) eqn:En; cbn [andb];
        [|by rewrite orb_false_r].
      apply String.eqb_eq in En. subst c. rewrite Eget.
      apply negb_false_iff, Nat.eqb_eq in Ea. rewrite Ea.
      destruct (Nat.eqb n (length Args)) eqn:E; [|by rewrite orb_false_r].
      apply Nat.eqb_eq in E. subst n. by rewrite Nat.eqb_refl.
  - rewrite H. intros [= <- <-]. split.
    + intros x. rewrite bind_arguments_bound. unfold is_bound. simpl.
      rewrite lookup_empty. by rewrite orb_false_r.
    + intros c n. unfold callable. rewrite Hbind.
      cbn [TheModule set_heap set_TheModule set_NamedValues].
      rewrite (getFunction_app c _ _ _ (LastUnique (TheModule g))).
      assert (mkModule (functions (TheModule g)) (LastUnique (TheModule g)) =
              TheModule g) as -> by (by destruct (TheModule g)).
      destruct (getFunction c (TheModule g)) as [f0|] eqn:E0.
      * destruct (String.eqb c "") eqn:Ec; cbn [negb andb];
          [by rewrite orb_false_r|].
        destruct (String.eqb c Name) eqn:En; cbn [andb];
          [|by rewrite orb_false_r].
        apply String.eqb_eq in En. subst c. congruence.
      * cbn [fname farg_size orb]. rewrite (String.eqb_sym Name c).
        destruct (negb (String.eqb c "") && String.eqb c Name); [|done].
        cbn [andb farg_size]. apply Nat.eqb_sym.
Qed.

Lemma FunctionAST_Codegen_iff FA g :
  let r := PrototypeAST_Codegen (Proto FA) (set_NamedValues ∅ g) in
  is_Some (FunctionAST_Codegen FA g).1 ↔
  is_Some r.1 ∧ lowers r.2 (Body FA) = true.
Proof.
  intros r. unfold FunctionAST_Codegen. fold r.
  destruct r as [[F|] g1]; cbn [fst snd].
  2: { split; [by intros [? [=]]|by intros [[? [=]] _]]. }
  destruct (BasicBlock_Create "entry" F g1) as [BB g2] eqn:EB.
  assert (lowers (SetInsertPoint BB g2) (Body FA) = lowers g1 (Body FA))
    as Hsame.
  { apply (f_equal snd) in EB. cbn [snd] in EB. subst g2.
    apply lowers_same; [done|].
    unfold BasicBlock_Create, SetInsertPoint. cbn [snd].
    change (shape (set_Builder ?b ?g)) with (shape g).
    by apply update_function_shape. }
  pose proof (ExprAST_Codegen_lowers (Body FA) (SetInsertPoint BB g2)) as He.
  rewrite Hsame in He.
  destruct (ExprAST_Codegen (Body FA) (SetInsertPoint BB g2)) as [[V|] g3];
    cbn [fst] in He.
  - destruct (CreateRet V g3). cbn [fst]. split; [|eauto].
    intros _. split; [eauto|]. apply He. eauto.
  - cbn [fst]. split; [by intros [? [=]]|].
    intros [_ H]. by apply He in H as [? [=]].
Qed.

End Scope.

(** X21.  What the body of a definition may refer to.
    [FunctionAST::Codegen] returns a function exactly when
    [PrototypeAST::Codegen], called with [NamedValues] cleared, returns one
    and the body passes the check of what lowers in the globals that call
    leaves.  There the variables with a value are the parameters of the
    prototype and nothing else; and the functions that can be called are
    those of the module before, and the function being defined itself
    (when it has a name) with as many arguments as it has parameters.  The
    handle counter is assumed above every handle in use, as LLVM keeps
    it. *)
Theorem definition_scope FA g F g1 :
  fresh_ids g →
  Codegen.PrototypeAST_Codegen (Proto FA) (set_NamedValues ∅ g) =
    (Some F, g1) →
  (∀ x, is_bound g1 x = bool_decide (x ∈ proto_Args (Proto FA))) ∧
  (∀ c n, callable g1 c n =
          callable g c n ||
          (negb (String.eqb c "") && String.eqb c (proto_Name (Proto FA)) &&
           Nat.eqb n (length (proto_Args (Proto FA))))) ∧
  (is_Some (Codegen.FunctionAST_Codegen FA g).1 ↔
   lowers g1 (Body FA) = true).
Proof.
  intros Hf Hp.
  destruct (PrototypeAST_Codegen_scope _ _ _ _ Hf Hp) as [Hb Hc].
  split; [done|]. split; [done|].
  rewrite FunctionAST_Codegen_iff, Hp. cbn [fst snd]. split; [by intros [_ ?]|].
  intros H. split; [eauto|done].
Qed.

(** The instance: [def fib(n) fib(n-1) + fib(n-2)] in the empty module. *)
Lemma definition_scope_witness :
  let n := VariableExprAST "n" in
  let one := NumberExprAST (strtod "1") in
  let two := NumberExprAST (strtod "2") in
  let fib :=
    mkFunctionAST (mkPrototypeAST "fib" ["n"])
      (BinaryExprAST "+"
         (CallExprAST "fib" [BinaryExprAST "-" n one])
         (CallExprAST "fib" [BinaryExprAST "-" n two])) in
  let g := initial EmptyString in
  let g1 :=
    (Codegen.PrototypeAST_Codegen (Proto fib) (set_NamedValues ∅ g)).2 in
  callable g "fib" 1 = false ∧ callable g1 "fib" 1 = true ∧
  is_bound g1 "n" = true ∧
  is_Some (Codegen.FunctionAST_Codegen fib g).1.
Proof.
  intros n one two fib g g1.
  destruct (definition_scope fib g 0%nat g1) as (Hb & Hc & Hl).
  - constructor.
  - reflexivity.
  - split; [reflexivity|]. split; [by rewrite Hc|].
    split; [by rewrite Hb|]. apply Hl. reflexivity.
Defined.

(** X22.  What [Codegen] returns.  In a module whose handles are all
    different and whose functions are all closed, the function
    [FunctionAST::Codegen] returns is in the module it leaves, has the name
    and the number of parameters of the prototype, and has one block,
    [entry], of instructions none of which is a [ret], followed by a
    [ret]; the function [PrototypeAST::Codegen] returns is in the module,
    has the name and the number of parameters asked for, and has no
    block. *)
Theorem lowered_function_is_in_the_module g :
  module_closed g →
  (∀ FA F g', Codegen.FunctionAST_Codegen FA g = (Some F, g') →
     ∃ f insts V,
       LLVM.deref F (TheModule g') = Some f ∧
       fname f = proto_Name (Proto FA) ∧
       farg_size f = length (proto_Args (Proto FA)) ∧
       fblocks f = [mkBasicBlock "entry" (insts ++ [ReturnInst V])] ∧
       straight_line insts = true) ∧
  (∀ P F g', Codegen.PrototypeAST_Codegen P g = (Some F, g') →
     ∃ f, LLVM.deref F (TheModule g') = Some f ∧
          fname f = proto_Name P ∧
          farg_size f = length (proto_Args P) ∧ fblocks f = []).
Proof.
  intros Hg. split.
  - intros FA F g' H.
    destruct (FunctionAST_Codegen_defines FA g Hg) as [_ Hd].
    rewrite H in Hd. by apply Hd.
  - intros P F g' H.
    destruct (PrototypeAST_Codegen_closed P g Hg) as [(_ & Hnd & _) Hd].
    rewrite H in Hd, Hnd. cbn [fst snd] in *.
    destruct (Hd F eq_refl) as (f & Hf & HF & ? & ? & ?).
    exists f. split; [|done]. unfold LLVM.deref. rewrite <- HF.
    by apply find_NoDup.
Qed.

Lemma lowered_function_is_in_the_module_witness :
  let g := initial EmptyString in
  let sq :=
    mkFunctionAST (mkPrototypeAST "sq" ["x"])
      (BinaryExprAST "*" (VariableExprAST "x") (VariableExprAST "x")) in
  ∃ f insts V,
    LLVM.deref 0 (TheModule (Codegen.FunctionAST_Codegen sq g).2) = Some f ∧
    fname f = "sq" ∧ farg_size f = 1%nat ∧
    fblocks f = [mkBasicBlock "entry" (insts ++ [ReturnInst V])] ∧
    straight_line insts = true.
Proof.
  intros g sq.
  assert (module_closed g) as Hg by (vm_compute; repeat constructor).
  exact (proj1 (lowered_function_is_in_the_module g Hg) sq 0%nat
           (Codegen.FunctionAST_Codegen sq g).2 eq_refl).
Defined.

Section Statements.
Import Parser Driver.

Lemma echoed g g1 g' msg f :
  stderr g1 = stderr g →
  stderr g' = stderr g1 ++ [Text msg; DumpFunction (Some f)] →
  f ∈ functions (TheModule g') →
  echoed_or_reported msg g g'.
Proof. intros H1 H2 Hf. left. exists f. by rewrite H2, H1. Qed.

Lemma parse_reported {A} msg g g1 g' :
  reports (A:=A) g None g1 → stderr g' = stderr g1 →
  echoed_or_reported msg g g'.
Proof.
  intros (s & _ & H1) H2. right. exists [s]. split; [done|].
  unfold reported. by rewrite H2, H1.
Qed.

Lemma lowering_reported msg g g1 g' new :
  stderr g1 = stderr g → reported g1 g' new → new ≠ [] →
  echoed_or_reported msg g g'.
Proof.
  intros H1 H2 Hn. right. exists new. split; [done|].
  unfold reported in *. by rewrite H2, H1.
Qed.

Lemma deref_elem F M f : LLVM.deref F M = Some f → f ∈ functions M.
Proof. by intros [? _]%find_Some_elem. Qed.

Lemma HandleDefinition_outcome n g g' :
  module_closed g → HandleDefinition n g = Done tt g' →
  echoed_or_reported "Read function definition:" g g'.
Proof.
  unfold HandleDefinition. intros Hg.
  destruct (ParseDefinition n g) as [[F|] g1|] eqn:E; [| |done];
    cbn [Res_bind]; pose proof (ParseDefinition_backend _ _ _ _ E) as Hb;
    pose proof (module_closed_backend _ _ Hb Hg) as Hg1;
    apply ParseDefinition_reports in E as [Hr _].
  - destruct (FunctionAST_Codegen_reported F g1) as (new & Hn & _ & Hs & Hf & _).
    destruct (FunctionAST_Codegen_defines F g1 Hg1) as [_ Hd].
    destruct (Codegen.FunctionAST_Codegen F g1) as [[LF|] g2];
      cbn [fst snd] in *; intros [= <-].
    + destruct (Hd LF eq_refl) as (f & ? & ? & Hderef & _).
      rewrite (Hs ltac:(eauto)) in Hn. unfold reported in Hn. simpl in Hn.
      rewrite app_nil_r in Hn.
      eapply (echoed g g2); [congruence| |by eapply deref_elem].
      unfold dump. simpl. rewrite Hderef. by rewrite <- app_assoc.
    + eapply lowering_reported; [exact Hr|exact Hn|].
      apply Hf; [apply Hg1|done].
  - destruct (getNextToken g1) as [t g2] eqn:E2.
    apply getNextToken_stderr in E2. intros [= <-].
    by eapply parse_reported.
Qed.

Lemma HandleExtern_outcome n g g' :
  module_closed g → HandleExtern n g = Done tt g' →
  echoed_or_reported "Read extern: " g g'.
Proof.
  unfold HandleExtern. intros Hg.
  destruct (ParseExtern n g) as [[P|] g1|] eqn:E; [| |done];
    cbn [Res_bind]; pose proof (ParseExtern_backend _ _ _ _ E) as Hb;
    pose proof (module_closed_backend _ _ Hb Hg) as Hg1;
    apply ParseExtern_reports in E as [Hr _].
  - destruct (PrototypeAST_Codegen_reported P g1) as (new & Hn & _ & Hs & Hf).
    destruct (PrototypeAST_Codegen_closed P g1 Hg1) as [(_ & Hnd & _) Hd].
    destruct (Codegen.PrototypeAST_Codegen P g1) as [[LF|] g2];
      cbn [fst snd] in *; intros [= <-].
    + destruct (Hd LF eq_refl) as (f & Hin & HF & _).
      rewrite (Hs ltac:(eauto)) in Hn. unfold reported in Hn. simpl in Hn.
      rewrite app_nil_r in Hn.
      eapply (echoed g g2 _ _ f); [congruence| |done].
      unfold dump, LLVM.deref. simpl. rewrite <- HF, (find_NoDup _ _ Hnd Hin).
      by rewrite <- app_assoc.
    + eapply lowering_reported; [exact Hr|exact Hn|].
      apply Hf; [apply Hg1|done].
  - destruct (getNextToken g1) as [t g2] eqn:E2.
    apply getNextToken_stderr in E2. intros [= <-].
    by eapply parse_reported.
Qed.

Lemma HandleTopLevelExpression_outcome n g g' :
  module_closed g → HandleTopLevelExpression n g = Done tt g' →
  echoed_or_reported "Read top-level expression:" g g'.
Proof.
  unfold HandleTopLevelExpression. intros Hg.
  destruct (ParseTopLevelExpr n g) as [[F|] g1|] eqn:E; [| |done];
    cbn [Res_bind]; pose proof (ParseTopLevelExpr_backend _ _ _ _ E) as Hb;
    pose proof (module_closed_backend _ _ Hb Hg) as Hg1;
    apply ParseTopLevelExpr_reports in E as [Hr _].
  - destruct (FunctionAST_Codegen_reported F g1) as (new & Hn & _ & Hs & Hf & _).
    destruct (FunctionAST_Codegen_defines F g1 Hg1) as [_ Hd].
    destruct (Codegen.FunctionAST_Codegen F g1) as [[LF|] g2];
      cbn [fst snd] in *; intros [= <-].
    + destruct (Hd LF eq_refl) as (f & ? & ? & Hderef & _).
      rewrite (Hs ltac:(eauto)) in Hn. unfold reported in Hn. simpl in Hn.
      rewrite app_nil_r in Hn.
      eapply (echoed g g2); [congruence| |by eapply deref_elem].
      unfold dump. simpl. rewrite Hderef. by rewrite <- app_assoc.
    + eapply lowering_reported; [exact Hr|exact Hn|].
      apply Hf; [apply Hg1|done].
  - destruct (getNextToken g1) as [t g2] eqn:E2.
    apply getNextToken_stderr in E2. intros [= <-].
    by eapply parse_reported.
Qed.

End Statements.

(** X23.  A statement is echoed or reported.  In a module whose handles
    are all different and whose functions are all closed (as [main] keeps
    it), each of [HandleDefinition], [HandleExtern] and
    [HandleTopLevelExpression] writes to [stderr] either its [Read ...]
    text followed by the dump of a function that is in the module it
    leaves, or lines of [Error], at least one; never nothing, and never
    both. *)
Theorem statement_is_echoed_or_reported n g :
  module_closed g →
  returned (Driver.HandleDefinition n g)
    (λ _, echoed_or_reported "Read function definition:" g) ∧
  returned (Driver.HandleExtern n g)
    (λ _, echoed_or_reported "Read extern: " g) ∧
  returned (Driver.HandleTopLevelExpression n g)
    (λ _, echoed_or_reported "Read top-level expression:" g).
Proof.
  intros Hg. unfold returned. split_and!.
  - destruct (Driver.HandleDefinition n g) as [[] g'|] eqn:E; [|done].
    by eapply HandleDefinition_outcome.
  - destruct (Driver.HandleExtern n g) as [[] g'|] eqn:E; [|done].
    by eapply HandleExtern_outcome.
  - destruct (Driver.HandleTopLevelExpression n g) as [[] g'|] eqn:E; [|done].
    by eapply HandleTopLevelExpression_outcome.
Qed.

Lemma statement_is_echoed_or_reported_witness :
  let g := startup "1 + x;" in
  ∃ g', Driver.HandleTopLevelExpression 20 g = Done tt g' ∧
        echoed_or_reported "Read top-level expression:" g g'.
Proof.
  intros g.
  assert (∃ g', Driver.HandleTopLevelExpression 20 g = Done tt g')
    as (g' & E) by (vm_compute; eexists; reflexivity).
  exists g'. split; [exact E|].
  assert (module_closed g) as Hg by (vm_compute; repeat constructor).
  pose proof (proj2 (proj2 (statement_is_echoed_or_reported 20 g Hg))) as H.
  unfold returned in H. by rewrite E in H.
Defined.
